(** * Ralphy execution kernel: a shallow embedding and its checked properties

    The development follows the TypeScript sources of the orchestrator:
    - [Csv]          src/cli/src/tasks/csv.ts
    - [Validation]   the command validator and the command runner
    - [Circuit]      the connection circuit breaker of the retry engine
    - [MemoryQueue]  the in-memory task queue
    - [TaskState]    src/cli/src/execution/task-state.ts
    - [Locks]        the file lock manager of src/cli/src/execution/planning.ts
    - [HashStore]    the per-task content-addressed file cache
    - [Streaming]    the line reader of the streaming command runner
    - [Errors], [Retry]  src/cli/src/utils/errors.ts and the retry loop
    - [QueueViews]   the views and statistics of the in-memory queue
    - [FileQueue]    src/cli/src/execution/file-queue.ts
    - [TaskStateOps] claims, transitions and resets of the task state
    - [LockSteps]    the steps of one lock acquisition
    - [HashStoreViews]  the queries of the file cache
    - [Markdown]     the Markdown task source of src/cli/src/tasks/converter.ts
    - [CsvFile]      the CSV task source over its file
    - [StateFormats] the CSV and Markdown forms of the task state file
    - [QueueBudget]  the retry budget of one task of the in-memory queue

    The definitions come first, one module per component; the properties
    follow in the modules [CsvProps], [ValidationProps], [CircuitProps],
    [MemoryQueueProps], [TaskStateProps], [LocksProps] and [HashStoreProps],
    and then in [CsvRowProps], [ValidationMoreProps], [StreamingProps],
    [RetryProps], [QueueViewsProps], [FileQueueProps], [TaskStateOpsProps],
    [LocksMoreProps], [HashStoreViewsProps], [TextProps], [MarkdownProps],
    [CsvFileProps] and [QueueBudgetProps].

    Conventions of the embedding:
    - Text is a [string] (a sequence of 8-bit characters); every character
      the sources compare against is ASCII.  White space, line ends and
      letter case are those of ASCII, so [trim], the line splitters and the
      patterns are the code's on ASCII text ([asciiText]); where a statement
      depends on how the code treats other characters (the Unicode spaces
      that [String.prototype.trim] strips, the line separators U+2028 and
      U+2029), it says that the text is ASCII.
    - A number is an integer [Z]; [String] and [Number.parseInt] are exact
      on the safe integers, up to 2^53 in absolute value.
    - A JavaScript [Map] whose iteration order is observable is an
      association list in insertion order; the other maps, and objects used
      as maps (their own properties), are [gmap]s.
    - An object that the source mutates in place and then files in a map is
      rebuilt and inserted; no object is ever in two maps at once.
    - [Date.now()] and [new Date()] are an argument [now], or successive
      readings of a [clock] where a function reads the time repeatedly.
    - Library functions (SHA-256, gzip, the JSON and YAML codecs, Node's
      path resolution) are [Variable]s of a [Section].
    - A call that throws returns [None]; file-system calls are taken not to
      fail for reasons of their own (permissions, full disks), and only
      regular files are modelled. *)

From Stdlib Require Import ZArith String Ascii List Bool Lia.
From Stdlib Require Import DecimalString.
From Stdlib Require DecimalPos.
From stdpp Require Import base option list strings gmap fin_maps.

Local Open Scope string_scope.
Local Open Scope Z_scope.

(** ** Characters and strings shared by the components *)

Definition dquote : ascii := "034"%char.
Definition newline : ascii := "010"%char.
Definition creturn : ascii := "013"%char.
Definition DQ : string := String dquote EmptyString.
Definition NL : string := String newline EmptyString.

Definition ascii_eqb (a b : ascii) : bool := Ascii.eqb a b.

(** [s.includes(c)] for a one-character needle. *)
Fixpoint includesChar (c : ascii) (s : string) : bool :=
  match s with
  | EmptyString => false
  | String d rest => ascii_eqb c d || includesChar c rest
  end.

(** [s.startsWith(p)]. *)
Fixpoint startsWith (p s : string) : bool :=
  match p, s with
  | EmptyString, _ => true
  | String a p', String b s' => ascii_eqb a b && startsWith p' s'
  | String _ _, EmptyString => false
  end.

(** [s.includes(needle)], also the test of a regular expression that is a
    plain literal. *)
Fixpoint includes (needle s : string) : bool :=
  startsWith needle s ||
  match s with
  | EmptyString => false
  | String _ rest => includes needle rest
  end.

(** A character of ASCII, and a text of such characters. *)
Definition isAsciiChar (c : ascii) : bool := (nat_of_ascii c <? 128)%nat.

Fixpoint asciiText (s : string) : bool :=
  match s with
  | EmptyString => true
  | String c rest => isAsciiChar c && asciiText rest
  end.

(** The white space removed by [String.prototype.trim], on ASCII text: tab,
    line feed, vertical tab, form feed, carriage return and space. *)
Definition isSpace (c : ascii) : bool :=
  let n := nat_of_ascii c in
  (Nat.eqb n 32 || (Nat.leb 9 n && Nat.leb n 13))%bool.

Fixpoint trimStart (s : string) : string :=
  match s with
  | EmptyString => EmptyString
  | String c rest => if isSpace c then trimStart rest else s
  end.

Fixpoint trimEnd (s : string) : string :=
  match s with
  | EmptyString => EmptyString
  | String c rest =>
      match trimEnd rest with
      | EmptyString => if isSpace c then EmptyString else String c EmptyString
      | r => String c r
      end
  end.

Definition trim (s : string) : string := trimEnd (trimStart s).

(** [parts.join(sep)]. *)
Fixpoint join (sep : string) (parts : list string) : string :=
  match parts with
  | [] => EmptyString
  | [p] => p
  | p :: rest => p +:+ sep +:+ join sep rest
  end.

(** ** CSV task source (src/cli/src/tasks/csv.ts) *)

Module Csv.

(** [content.split(/\r?\n/)]: a line ends at a line feed, and a carriage
    return directly before that line feed belongs to the separator. *)
Fixpoint splitLinesAux (s cur : string) : list string :=
  match s with
  | EmptyString => [cur]
  | String c rest =>
      if ascii_eqb c newline then cur :: splitLinesAux rest EmptyString
      else
        match rest with
        | String d rest' =>
            if ascii_eqb c creturn && ascii_eqb d newline
            then cur :: splitLinesAux rest' EmptyString
            else splitLinesAux rest (cur +:+ String c EmptyString)
        | EmptyString => splitLinesAux rest (cur +:+ String c EmptyString)
        end
  end.

Definition splitLines (s : string) : list string := splitLinesAux s EmptyString.

(** The character loop of [parseCSV] over one line: [current], [inQuotes]
    and [values] are the loop's variables; the [i++] of the doubled-quote
    case is the two-character pattern. *)
Fixpoint parseLine (line current : string) (inQuotes : bool)
    (values : list string) : list string :=
  match line with
  | EmptyString => values ++ [current]
  | String char rest =>
      if ascii_eqb char dquote then
        match inQuotes, rest with
        | true, String next rest' =>
            if ascii_eqb next dquote
            then parseLine rest' (current +:+ DQ) inQuotes values
            else parseLine rest current (negb inQuotes) values
        | _, _ => parseLine rest current (negb inQuotes) values
        end
      else if ascii_eqb char "," && negb inQuotes
      then parseLine rest EmptyString inQuotes (values ++ [current])
      else parseLine rest (current +:+ String char EmptyString) inQuotes values
  end.

Definition parseCSV (content : string) : list (list string) :=
  map (fun line => parseLine line EmptyString false []) (splitLines (trim content)).

(** The global replace in [escapeCSV]: every double quote is doubled. *)
Fixpoint doubleQuotes (value : string) : string :=
  match value with
  | EmptyString => EmptyString
  | String c rest =>
      if ascii_eqb c dquote then DQ +:+ DQ +:+ doubleQuotes rest
      else String c (doubleQuotes rest)
  end.

Definition escapeCSV (value : string) : string :=
  if includesChar "," value || includesChar dquote value || includesChar newline value
  then DQ +:+ doubleQuotes value +:+ DQ
  else value.

Definition toCSV (rows : list (list string)) : string :=
  join NL (map (fun row => join "," (map escapeCSV row)) rows).

Record CsvTask := {
  id : string;
  title : string;
  completed : bool;
  parallelGroup : Z;
  description : string
}.

(** [String(n)] for an integer [n]. *)
Definition stringOfZ (n : Z) : string := NilZero.string_of_int (Z.to_int n).

Definition isDigit (c : ascii) : bool :=
  let n := nat_of_ascii c in (Nat.leb 48 n && Nat.leb n 57)%bool.

Fixpoint digitsPrefix (s : string) (acc : option Z) : option Z :=
  match s with
  | String c rest =>
      if isDigit c
      then digitsPrefix rest
             (Some (10 * default 0 acc + Z.of_nat (nat_of_ascii c - 48)))
      else acc
  | EmptyString => acc
  end.

(** [Number.parseInt(s, 10)]: leading white space, an optional sign, then the
    longest run of digits; [None] is NaN.  The result is the integer the
    digits write, which is the code's result up to 2^53; beyond that the
    code rounds to the nearest number it can hold. *)
Definition parseInt10 (s : string) : option Z :=
  match trimStart s with
  | String "-" rest => Z.opp <$> digitsPrefix rest None
  | String "+" rest => digitsPrefix rest None
  | t => digitsPrefix t None
  end.

Definition toLowerChar (c : ascii) : ascii :=
  let n := nat_of_ascii c in
  if (Nat.leb 65 n && Nat.leb n 90)%bool then ascii_of_nat (n + 32) else c.

Fixpoint toLowerCase (s : string) : string :=
  match s with
  | EmptyString => EmptyString
  | String c rest => String (toLowerChar c) (toLowerCase rest)
  end.

(** [a || b] on strings: the empty string is falsy; so is a missing cell. *)
Definition orElse (cell : option string) (dflt : string) : string :=
  match cell with
  | Some EmptyString | None => dflt
  | Some s => s
  end.

Definition rowToTask (i : nat) (row : list string) : CsvTask :=
  {| id := orElse (row !! 0%nat) (stringOfZ (Z.of_nat i));
     title := orElse (row !! 1%nat) "";
     completed :=
       match row !! 2%nat with
       | Some cell => String.eqb cell "1" || String.eqb (toLowerCase cell) "true"
       | None => false
       end;
     parallelGroup := default 0 (parseInt10 (orElse (row !! 3%nat) "0"));
     description := orElse (row !! 4%nat) "" |}.

(** The loop of [readFile] from row [i] on. *)
Fixpoint readRows (i : nat) (rows : list (list string)) : list CsvTask :=
  match rows with
  | [] => []
  | row :: rest =>
      if (2 <=? length row)%nat
      then rowToTask i row :: readRows (S i) rest
      else readRows (S i) rest
  end.

(** [readFile], on the text of the file: the header row is skipped. *)
Definition readFile (content : string) : list CsvTask :=
  readRows 1 (tail (parseCSV content)).

(** [writeFile], as the text written. *)
Definition writeFile (tasks : list CsvTask) : string :=
  toCSV (["id"; "title"; "done"; "group"; "desc"] ::
         map (fun task =>
                [id task; title task;
                 if completed task then "1" else "0";
                 stringOfZ (parallelGroup task);
                 description task]) tasks).

(** Scenario S1's input text. *)
Definition s1_input : string :=
  "id,title,done,group,desc" +:+ NL +:+
  "1,Add login,0,1," +:+ DQ +:+ "Use OAuth" +:+ DQ +:+ NL +:+
  "2," +:+ DQ +:+ "Fix, bug" +:+ DQ +:+ ",1,0,".

Definition s1_tasks : list CsvTask :=
  [ {| id := "1"; title := "Add login"; completed := false;
       parallelGroup := 1; description := "Use OAuth" |};
    {| id := "2"; title := "Fix, bug"; completed := true;
       parallelGroup := 0; description := "" |} ].

(** What [writeFile] produces for the two tasks of S1: the quotes around
    [Use OAuth] are gone, since that cell needs no escaping. *)
Definition s1_output : string :=
  "id,title,done,group,desc" +:+ NL +:+
  "1,Add login,0,1,Use OAuth" +:+ NL +:+
  "2," +:+ DQ +:+ "Fix, bug" +:+ DQ +:+ ",1,0,".

(** Equality modulo a trailing newline: equal once one trailing line feed, if
    any, is dropped from each side. *)
Fixpoint dropTrailingNewline (s : string) : string :=
  match s with
  | EmptyString => EmptyString
  | String c EmptyString => if ascii_eqb c newline then EmptyString else s
  | String c rest => String c (dropTrailingNewline rest)
  end.

Definition eqModuloTrailingNewline (a b : string) : Prop :=
  dropTrailingNewline a = dropTrailingNewline b.

End Csv.

(** ** Command validation and the command runner *)

Module Validation.

(** A character class [[...]] tested anywhere in the text. *)
Definition hasCharIn (class : list ascii) (s : string) : bool :=
  existsb (fun c => includesChar c s) class.

Definition backtick : ascii := "096"%char.

(** [dangerousPatterns] of [validateCommand], in source order. *)
Definition commandDangerousPatterns : list (string -> bool) :=
  [ hasCharIn [";"; "&"; "|"; backtick; "$"]%char;
    includes "${";
    includes "$(";
    includes (String backtick EmptyString);
    includes "||";
    includes "&&";
    hasCharIn ["<"; ">"]%char ].

Definition isAlnum (c : ascii) : bool :=
  let n := nat_of_ascii c in
  ((Nat.leb 97 n && Nat.leb n 122) || (Nat.leb 65 n && Nat.leb n 90) ||
   (Nat.leb 48 n && Nat.leb n 57))%bool.

(** One character of [validCommandPattern]: the class differs by platform
    in its last member only. *)
Definition validCommandChar (isWindows : bool) (c : ascii) : bool :=
  isAlnum c || ascii_eqb c "." || ascii_eqb c "_" || ascii_eqb c "-" ||
  (if isWindows then ascii_eqb c "\" else ascii_eqb c "/").

Fixpoint allChars (p : ascii -> bool) (s : string) : bool :=
  match s with
  | EmptyString => true
  | String c rest => p c && allChars p rest
  end.

(** [/^[class]+$/.test(command)]: at least one character, all in the class. *)
Definition validCommandPattern (isWindows : bool) (command : string) : bool :=
  match command with
  | EmptyString => false
  | _ => allChars (validCommandChar isWindows) command
  end.

Definition validateCommand (isWindows : bool) (command : string) : option string :=
  if existsb (fun pattern => pattern command) commandDangerousPatterns then None
  else if negb (validCommandPattern isWindows command) then None
  else Some command.

(** [dangerousPatterns] of [validateArgs], in source order. *)
Definition argDangerousPatterns : list (string -> bool) :=
  [ hasCharIn [";"; "&"; "|"; backtick]%char;
    includes "${";
    includes "$(";
    includes (String backtick EmptyString);
    includes "||";
    includes "&&" ].

Definition validateArgs (args : list string) : option (list string) :=
  if existsb (fun arg => existsb (fun pattern => pattern arg) argDangerousPatterns) args
  then None
  else Some args.

Record ValidationResult := {
  valid : bool;
  command : option string;
  args : option (list string);
  error : option string
}.

Definition validateCommandAndArgs (isWindows : bool) (cmd : string)
    (arguments : list string) : ValidationResult :=
  match validateCommand isWindows cmd with
  | None | Some EmptyString =>
      {| valid := false; command := None; args := None;
         error := Some "Invalid command - potential command injection detected" |}
  | Some validatedCommand =>
      match validateArgs arguments with
      | None =>
          {| valid := false; command := None; args := None;
             error := Some "Invalid arguments - potential command injection detected" |}
      | Some validatedArgs =>
          {| valid := true; command := Some validatedCommand;
             args := Some validatedArgs; error := None |}
      end
  end.

(** What a call of the runner does about processes: it starts one through
    the Bun runtime with the given argument vector, starts one through
    Node's [spawn] with the given [shell] option, or returns an error text
    without starting any. *)
Inductive Launch :=
| BunSpawn (argv : list string)
| NodeSpawn (cmd : string) (arguments : list string) (shell : bool)
| NoSpawn (message : string).

(** [validation.command || command]. *)
Definition orCommand (c : option string) (dflt : string) : string :=
  match c with
  | Some (String _ _ as v) => v
  | _ => dflt
  end.

(** The process-launching skeleton of [execCommand]; [isBun] and
    [isWindows] are the module's two platform constants. *)
Definition execCommand (isBun isWindows : bool) (cmd : string)
    (arguments : list string) : Launch :=
  if isBun then
    BunSpawn (if isWindows then "cmd.exe" :: "/c" :: cmd :: arguments
              else cmd :: arguments)
  else
    let validation := validateCommandAndArgs isWindows cmd arguments in
    if negb (valid validation)
    then NoSpawn ("Error: " +:+ default "undefined" (error validation))
    else NodeSpawn (orCommand (command validation) cmd)
                   (default arguments (args validation)) false.

(** [execCommandStreaming] has the same skeleton; its error text goes to
    [onLine] instead of [stderr]. *)
Definition execCommandStreaming (isBun isWindows : bool) (cmd : string)
    (arguments : list string) : Launch :=
  if isBun then
    BunSpawn (if isWindows then "cmd.exe" :: "/c" :: cmd :: arguments
              else cmd :: arguments)
  else
    let validation := validateCommandAndArgs isWindows cmd arguments in
    if negb (valid validation)
    then NoSpawn ("Error: " +:+ default "undefined" (error validation))
    else NodeSpawn (orCommand (command validation) cmd)
                   (default arguments (args validation)) false.

Definition spawns (l : Launch) : bool :=
  match l with NoSpawn _ => false | _ => true end.

(** The deny-list of the claim, on one word: none of [; & | ` $], no
    redirection character, no substitution sequence. *)
Definition denyListed (word : string) : bool :=
  hasCharIn [";"; "&"; "|"; backtick; "$"; "<"; ">"]%char word ||
  includes "${" word || includes "$(" word.

End Validation.

(** ** Circuit breaker of the retry engine *)

Module Circuit.

Inductive CircuitState := CLOSED | OPEN | HALF_OPEN.

Record ConnectionStateManager := {
  circuitState : CircuitState;
  consecutiveFailures : Z;
  lastFailureTime : option Z;
  halfOpenAttempts : Z
}.

Definition failureThreshold : Z := 3.
Definition resetTimeoutMs : Z := 30000.
Definition halfOpenMaxAttempts : Z := 2.

Definition initial : ConnectionStateManager :=
  {| circuitState := CLOSED; consecutiveFailures := 0;
     lastFailureTime := None; halfOpenAttempts := 0 |}.

(** Why an attempt is refused; the source renders these as texts. *)
Inductive Reason :=
| Cooldown (seconds : Z)
| StillUnavailable (testAttempts : Z).

Record Attempt := { allowed : bool; reason : option Reason }.

(** [Math.ceil(ms / 1000)]. *)
Definition ceilSeconds (ms : Z) : Z := - ((- ms) / 1000).

(** [canAttempt()], with [now] the value of [Date.now()].  A
    [lastFailureTime] of [null] or [0] is falsy. *)
Definition canAttempt (now : Z) (st : ConnectionStateManager)
    : Attempt * ConnectionStateManager :=
  match circuitState st with
  | CLOSED => ({| allowed := true; reason := None |}, st)
  | OPEN =>
      let truthy := match lastFailureTime st with
                    | Some t => negb (t =? 0)
                    | None => false
                    end in
      if truthy && (now - default 0 (lastFailureTime st) >? resetTimeoutMs)
      then ({| allowed := true; reason := None |},
            {| circuitState := HALF_OPEN;
               consecutiveFailures := consecutiveFailures st;
               lastFailureTime := lastFailureTime st;
               halfOpenAttempts := 0 |})
      else
        let remainingMs := resetTimeoutMs - (now - default 0 (lastFailureTime st)) in
        ({| allowed := false; reason := Some (Cooldown (ceilSeconds remainingMs)) |}, st)
  | HALF_OPEN =>
      if halfOpenAttempts st >=? halfOpenMaxAttempts
      then ({| allowed := false;
               reason := Some (StillUnavailable halfOpenMaxAttempts) |},
            {| circuitState := OPEN;
               consecutiveFailures := consecutiveFailures st;
               lastFailureTime := Some now;
               halfOpenAttempts := halfOpenAttempts st |})
      else ({| allowed := true; reason := None |},
            {| circuitState := HALF_OPEN;
               consecutiveFailures := consecutiveFailures st;
               lastFailureTime := lastFailureTime st;
               halfOpenAttempts := halfOpenAttempts st + 1 |})
  end.

Definition recordSuccess (st : ConnectionStateManager) : ConnectionStateManager :=
  match circuitState st with
  | HALF_OPEN =>
      {| circuitState := CLOSED; consecutiveFailures := 0;
         lastFailureTime := lastFailureTime st; halfOpenAttempts := 0 |}
  | _ =>
      {| circuitState := circuitState st; consecutiveFailures := 0;
         lastFailureTime := lastFailureTime st;
         halfOpenAttempts := halfOpenAttempts st |}
  end.

(** [recordFailure(error)]; [isConnectionError] is the outcome of the
    classification of [error] (retryable and matching the connection
    pattern), [now] the value of [Date.now()]. *)
Definition recordFailure (isConnectionError : bool) (now : Z)
    (st : ConnectionStateManager) : ConnectionStateManager :=
  if negb isConnectionError then st
  else
    let failures := consecutiveFailures st + 1 in
    match circuitState st with
    | HALF_OPEN =>
        {| circuitState := OPEN; consecutiveFailures := failures;
           lastFailureTime := Some now; halfOpenAttempts := halfOpenAttempts st |}
    | s =>
        {| circuitState := if failures >=? failureThreshold then OPEN else s;
           consecutiveFailures := failures;
           lastFailureTime := Some now; halfOpenAttempts := halfOpenAttempts st |}
    end.

End Circuit.

(** ** In-memory task queue *)

Module MemoryQueue.

Inductive TaskPriority := low | normal | high | critical.

Record Task := {
  id : string;
  title : string;
  body : option string;
  parallelGroup : option Z;
  completed : bool
}.

(** Dates are epoch milliseconds; an absent optional field is [None]. *)
Record QueueItem := {
  task : Task;
  priority : TaskPriority;
  enqueuedAt : Z;
  startedAt : option Z;
  completedAt : option Z;
  attempts : Z;
  maxAttempts : Z
}.

(** A JavaScript [Map] from task ids to items, in insertion order. *)
Definition ItemMap := list (string * QueueItem).

Definition mhas (k : string) (m : ItemMap) : bool :=
  existsb (fun kv => String.eqb (fst kv) k) m.

Fixpoint mget (k : string) (m : ItemMap) : option QueueItem :=
  match m with
  | [] => None
  | (k', v) :: rest => if String.eqb k' k then Some v else mget k rest
  end.

Definition mdelete (k : string) (m : ItemMap) : ItemMap :=
  List.filter (fun kv => negb (String.eqb (fst kv) k)) m.

(** [m.set(k, v)]: an existing key keeps its position, a new one goes last. *)
Fixpoint mset (k : string) (v : QueueItem) (m : ItemMap) : ItemMap :=
  match m with
  | [] => [(k, v)]
  | (k', v') :: rest =>
      if String.eqb k' k then (k, v) :: rest else (k', v') :: mset k v rest
  end.

Definition mvalues (m : ItemMap) : list QueueItem := map snd m.

Record MemoryTaskQueue := {
  pending : ItemMap;
  running : ItemMap;
  completedItems : ItemMap;
  failed : ItemMap;
  skipped : ItemMap
}.

Definition emptyQueue : MemoryTaskQueue :=
  {| pending := []; running := []; completedItems := []; failed := []; skipped := [] |}.

Definition priorityOrder (p : TaskPriority) : Z :=
  match p with critical => 0 | high => 1 | normal => 2 | low => 3 end.

(** [enqueue]; [None] is the thrown error, [now] the value of [new Date()]. *)
Definition enqueue (now : Z) (t : Task) (p : TaskPriority) (maxAtt : Z)
    (q : MemoryTaskQueue) : option MemoryTaskQueue :=
  if mhas (id t) (pending q) || mhas (id t) (running q) then None
  else
    let item := {| task := t; priority := p; enqueuedAt := now;
                   startedAt := None; completedAt := None;
                   attempts := 0; maxAttempts := maxAtt |} in
    Some {| pending := mset (id t) item (pending q); running := running q;
            completedItems := completedItems q; failed := failed q;
            skipped := skipped q |}.

(** One iteration of the selection loop of [dequeue] and [peek]; the second
    component is [highestPriorityValue], [None] standing for infinity. *)
Definition selectStep (acc : option QueueItem * option Z) (item : QueueItem)
    : option QueueItem * option Z :=
  let '(highestPriorityItem, highestPriorityValue) := acc in
  let priorityValue := priorityOrder (priority item) in
  let lower := match highestPriorityValue with
               | None => true
               | Some v => priorityValue <? v
               end in
  let same := match highestPriorityValue with
              | None => false
              | Some v => priorityValue =? v
              end in
  if lower then (Some item, Some priorityValue)
  else if same then
    match highestPriorityItem with
    | None => (Some item, highestPriorityValue)
    | Some best =>
        if enqueuedAt item <? enqueuedAt best
        then (Some item, highestPriorityValue)
        else acc
    end
  else acc.

Definition peek (q : MemoryTaskQueue) : option QueueItem :=
  fst (fold_left selectStep (mvalues (pending q)) (None, None)).

Definition dequeue (now : Z) (q : MemoryTaskQueue)
    : option QueueItem * MemoryTaskQueue :=
  match fold_left selectStep (mvalues (pending q)) (None, None) with
  | (Some highestPriorityItem, _) =>
      let key := id (task highestPriorityItem) in
      let item := {| task := task highestPriorityItem;
                     priority := priority highestPriorityItem;
                     enqueuedAt := enqueuedAt highestPriorityItem;
                     startedAt := Some now;
                     completedAt := completedAt highestPriorityItem;
                     attempts := attempts highestPriorityItem + 1;
                     maxAttempts := maxAttempts highestPriorityItem |} in
      (Some item,
       {| pending := mdelete key (pending q);
          running := mset key item (running q);
          completedItems := completedItems q; failed := failed q;
          skipped := skipped q |})
  | (None, _) => (None, q)
  end.

Definition markComplete (now : Z) (taskId : string) (q : MemoryTaskQueue)
    : MemoryTaskQueue :=
  match mget taskId (running q) with
  | None => q
  | Some item =>
      let item' := {| task := task item; priority := priority item;
                      enqueuedAt := enqueuedAt item; startedAt := startedAt item;
                      completedAt := Some now; attempts := attempts item;
                      maxAttempts := maxAttempts item |} in
      {| pending := pending q; running := mdelete taskId (running q);
         completedItems := mset taskId item' (completedItems q);
         failed := failed q; skipped := skipped q |}
  end.

Definition markFailed (now : Z) (taskId : string) (q : MemoryTaskQueue)
    : MemoryTaskQueue :=
  match mget taskId (running q) with
  | None => q
  | Some item =>
      let attempts' := attempts item + 1 in
      if attempts' <? maxAttempts item then
        let item' := {| task := task item; priority := priority item;
                        enqueuedAt := enqueuedAt item; startedAt := None;
                        completedAt := completedAt item; attempts := attempts';
                        maxAttempts := maxAttempts item |} in
        {| pending := mset taskId item' (pending q);
           running := mdelete taskId (running q);
           completedItems := completedItems q; failed := failed q;
           skipped := skipped q |}
      else
        let item' := {| task := task item; priority := priority item;
                        enqueuedAt := enqueuedAt item; startedAt := startedAt item;
                        completedAt := Some now; attempts := attempts';
                        maxAttempts := maxAttempts item |} in
        {| pending := pending q; running := mdelete taskId (running q);
           completedItems := completedItems q;
           failed := mset taskId item' (failed q); skipped := skipped q |}
  end.

(** [a || b] on two lookups: items are objects, hence truthy. *)
Definition orItem (a b : option QueueItem) : option QueueItem :=
  match a with Some _ => a | None => b end.

Definition markSkipped (now : Z) (taskId : string) (q : MemoryTaskQueue)
    : MemoryTaskQueue :=
  match orItem (mget taskId (pending q)) (mget taskId (running q)) with
  | None => q
  | Some item =>
      let item' := {| task := task item; priority := priority item;
                      enqueuedAt := enqueuedAt item; startedAt := startedAt item;
                      completedAt := Some now; attempts := attempts item;
                      maxAttempts := maxAttempts item |} in
      {| pending := mdelete taskId (pending q);
         running := mdelete taskId (running q);
         completedItems := completedItems q; failed := failed q;
         skipped := mset taskId item' (skipped q) |}
  end.

Definition resetTask (taskId : string) (q : MemoryTaskQueue) : MemoryTaskQueue :=
  match orItem (mget taskId (failed q)) (mget taskId (skipped q)) with
  | None => q
  | Some item =>
      let item' := {| task := task item; priority := priority item;
                      enqueuedAt := enqueuedAt item; startedAt := None;
                      completedAt := None; attempts := 0;
                      maxAttempts := maxAttempts item |} in
      {| pending := mset taskId item' (pending q); running := running q;
         completedItems := completedItems q;
         failed := mdelete taskId (failed q);
         skipped := mdelete taskId (skipped q) |}
  end.

Definition remove (taskId : string) (q : MemoryTaskQueue) : MemoryTaskQueue :=
  {| pending := mdelete taskId (pending q);
     running := mdelete taskId (running q);
     completedItems := mdelete taskId (completedItems q);
     failed := mdelete taskId (failed q);
     skipped := mdelete taskId (skipped q) |}.

Definition hasTask (taskId : string) (q : MemoryTaskQueue) : bool :=
  mhas taskId (pending q) || mhas taskId (running q) ||
  mhas taskId (completedItems q) || mhas taskId (failed q) ||
  mhas taskId (skipped q).

(** The queue operations of the interface that change the partitions. *)
Inductive Op :=
| Enqueue (t : Task) (p : TaskPriority) (maxAtt : Z)
| Dequeue
| MarkComplete (taskId : string)
| MarkFailed (taskId : string)
| MarkSkipped (taskId : string)
| ResetTask (taskId : string)
| Remove (taskId : string).

(** One call at time [now]; a call that throws leaves the queue as it was. *)
Definition apply (now : Z) (op : Op) (q : MemoryTaskQueue) : MemoryTaskQueue :=
  match op with
  | Enqueue t p m => default q (enqueue now t p m q)
  | Dequeue => snd (dequeue now q)
  | MarkComplete i => markComplete now i q
  | MarkFailed i => markFailed now i q
  | MarkSkipped i => markSkipped now i q
  | ResetTask i => resetTask i q
  | Remove i => remove i q
  end.

Fixpoint run (ops : list (Z * Op)) (q : MemoryTaskQueue) : MemoryTaskQueue :=
  match ops with
  | [] => q
  | (now, op) :: rest => run rest (apply now op q)
  end.

Definition b2n (b : bool) : nat := if b then 1%nat else 0%nat.

(** In how many of the five partitions the id occurs. *)
Definition partitionCount (taskId : string) (q : MemoryTaskQueue) : nat :=
  (b2n (mhas taskId (pending q)) + b2n (mhas taskId (running q)) +
   b2n (mhas taskId (completedItems q)) + b2n (mhas taskId (failed q)) +
   b2n (mhas taskId (skipped q)))%nat.

(** The id sits in one of the three partitions [enqueue] does not look at. *)
Definition finishedHas (taskId : string) (q : MemoryTaskQueue) : bool :=
  mhas taskId (completedItems q) || mhas taskId (failed q) ||
  mhas taskId (skipped q).

(** No [enqueue] of the sequence targets an id that is, at that moment, in
    completed, failed or skipped. *)
Fixpoint noFinishedReenqueue (ops : list (Z * Op)) (q : MemoryTaskQueue) : Prop :=
  match ops with
  | [] => True
  | (now, op) :: rest =>
      match op with
      | Enqueue t _ _ => finishedHas (id t) q = false
      | _ => True
      end /\ noFinishedReenqueue rest (apply now op q)
  end.

(** One execution that fails: the item is dequeued at [started] and marked
    failed at [ended]. *)
Definition failingExecution (taskId : string) (times : Z * Z)
    (q : MemoryTaskQueue) : MemoryTaskQueue :=
  markFailed (snd times) taskId (snd (dequeue (fst times) q)).

Definition failingExecutions (taskId : string) (times : list (Z * Z))
    (q : MemoryTaskQueue) : MemoryTaskQueue :=
  fold_left (fun q' t => failingExecution taskId t q') times q.

Definition mkTask (i : string) : Task :=
  {| id := i; title := i; body := None; parallelGroup := None; completed := false |}.

(** Every item is filed under its own task id. *)
Definition wellKeyed (m : ItemMap) : Prop :=
  Forall (fun kv => id (task (snd kv)) = fst kv) m.

(** The invariant of the queue: every id is in at most one partition, and
    every partition files its items under their own ids. *)
Record Inv (q : MemoryTaskQueue) : Prop := {
  inv_unique : forall i, (partitionCount i q <= 1)%nat;
  inv_pending : wellKeyed (pending q);
  inv_running : wellKeyed (running q);
  inv_completed : wellKeyed (completedItems q);
  inv_failed : wellKeyed (failed q);
  inv_skipped : wellKeyed (skipped q)
}.

(** The queue with the one item as its only content, in pending. *)
Definition pendingOnly (it : QueueItem) : MemoryTaskQueue :=
  {| pending := [(id (task it), it)]; running := []; completedItems := [];
     failed := []; skipped := [] |}.

End MemoryQueue.

(** ** The guard on persisted JSON *)

(** The test [/"__(proto|constructor|prototype)"__/] that both the hash
    store and the state manager run on persisted JSON: the expression is a
    literal with a three-way alternative, so it matches exactly the texts that
    contain one of three literals. *)
Definition pollutionPattern (text : string) : bool :=
  includes (DQ +:+ "__proto" +:+ DQ +:+ "__") text ||
  includes (DQ +:+ "__constructor" +:+ DQ +:+ "__") text ||
  includes (DQ +:+ "__prototype" +:+ DQ +:+ "__") text.

(** A JSON object text with one key. *)
Definition objectWithKey (key : string) : string :=
  "{" +:+ DQ +:+ key +:+ DQ +:+ ":{}}".

(** The text of a state file whose [tasks] object has the key [__proto__]. *)
Definition pollutedStateText : string :=
  "{" +:+ DQ +:+ "version" +:+ DQ +:+ ":1," +:+
  DQ +:+ "lastUpdated" +:+ DQ +:+ ":" +:+ DQ +:+ DQ +:+ "," +:+
  DQ +:+ "tasks" +:+ DQ +:+ ":{" +:+ DQ +:+ "__proto__" +:+ DQ +:+ ":{" +:+
  DQ +:+ "id" +:+ DQ +:+ ":" +:+ DQ +:+ "x" +:+ DQ +:+ "," +:+
  DQ +:+ "title" +:+ DQ +:+ ":" +:+ DQ +:+ "x" +:+ DQ +:+ "," +:+
  DQ +:+ "state" +:+ DQ +:+ ":" +:+ DQ +:+ "pending" +:+ DQ +:+ "," +:+
  DQ +:+ "attemptCount" +:+ DQ +:+ ":0," +:+
  DQ +:+ "errorHistory" +:+ DQ +:+ ":[]}}}".

(** ** Task state manager (src/cli/src/execution/task-state.ts) *)

Module TaskState.

(** The enum [TaskState]; its values are strings, and the readers of the
    CSV and Markdown formats cast any string to it ([state as TaskState]):
    a string that is none of the six values is an [OtherState]. *)
Inductive TaskState :=
| PENDING | RUNNING | COMPLETED | FAILED | DEFERRED | SKIPPED
| OtherState (text : string).

(** The string value of a state. *)
Definition stateText (s : TaskState) : string :=
  match s with
  | PENDING => "pending"
  | RUNNING => "running"
  | COMPLETED => "completed"
  | FAILED => "failed"
  | DEFERRED => "deferred"
  | SKIPPED => "skipped"
  | OtherState text => text
  end.


(** A time as the manager holds it: epoch milliseconds, or [NaN] where
    [Number.parseInt] or [Date] found no number. *)
Inductive JsNumber := NaN | Num (z : Z).

Record ExecutionContext := {
  branch : option string;
  worktree : option string;
  sandbox : option string
}.

Record TaskStateEntry := {
  id : string;
  title : string;
  state : TaskState;
  attemptCount : Z;
  lastAttemptTime : option JsNumber;
  errorHistory : list string;
  executionContext : option ExecutionContext
}.

Record StateFileFormat := {
  version : Z;
  lastUpdated : string;
  tasks : gmap string TaskStateEntry
}.

Inductive StateFormat := yaml | json | csv | md.

(** The task of a task source, as far as the state manager reads it. *)
Record Task := { taskId : string; taskTitle : string }.

Record TaskStateManager := {
  sourceType : string;
  sourcePath : string;
  format : StateFormat;
  managed : gmap string TaskStateEntry;
  (** the text of the state file, when the file exists *)
  stateFile : option string
}.

Section Manager.

(** The [switch (this.format)] of [loadState] and that of [persistState],
    as functions of the format and the text or the data; a parser that
    throws gives [None].  The code's own switches are [parseState] and
    [printState] of the module [StateFormats] below, which send the CSV and
    Markdown formats to [fromCSV], [toCSV], [fromMarkdown] and [toMarkdown]
    and the two others to the YAML and JSON libraries; what is defined and
    proved here for every [parse] and [print] holds for them. *)
Variable parse : StateFormat -> string -> option StateFileFormat.
Variable print : StateFormat -> StateFileFormat -> string.
(** [JSON.stringify(data)], the unindented form the guard of [loadState]
    inspects. *)
Variable stringify : StateFileFormat -> string.
(** [new Date().toISOString()] at the time of [persistState]. *)
Variable timestamp : string.

Definition buildTaskKey (m : TaskStateManager) (i : string) : string :=
  sourceType m +:+ ":" +:+ sourcePath m +:+ ":" +:+ i.

(** The [try] block of [loadState]: [None] when anything in it throws. *)
Definition loadData (fmt : StateFormat) (content : string) : option StateFileFormat :=
  match fmt with
  | json =>
      match parse json content with
      | Some data =>
          if pollutionPattern (stringify data) then None else Some data
      | None => None
      end
  | other => parse other content
  end.

(** [loadState]: a failure leaves an empty map. *)
Definition loadState (fmt : StateFormat) (content : string)
    : gmap string TaskStateEntry :=
  match loadData fmt content with
  | Some data => tasks data
  | None => ∅
  end.

Definition resetInterrupted (e : TaskStateEntry) : TaskStateEntry :=
  match state e with
  | RUNNING =>
      {| id := id e; title := title e; state := PENDING; attemptCount := 0;
         lastAttemptTime := lastAttemptTime e; errorHistory := errorHistory e;
         executionContext := executionContext e |}
  | _ => e
  end.

Definition mergeTask (m : TaskStateManager)
    (acc : gmap string TaskStateEntry) (t : Task) : gmap string TaskStateEntry :=
  let key := buildTaskKey m (taskId t) in
  match acc !! key with
  | None =>
      <[key := {| id := taskId t; title := taskTitle t; state := PENDING;
                  attemptCount := 0; lastAttemptTime := None;
                  errorHistory := []; executionContext := None |}]> acc
  | Some existing =>
      <[key := {| id := id existing; title := taskTitle t;
                  state := state existing; attemptCount := attemptCount existing;
                  lastAttemptTime := lastAttemptTime existing;
                  errorHistory := errorHistory existing;
                  executionContext := executionContext existing |}]> acc
  end.

Definition validKeys (m : TaskStateManager) (tasksFromSource : list Task)
    : list string :=
  map (fun t => buildTaskKey m (taskId t)) tasksFromSource.

Definition persistState (m : TaskStateManager) : TaskStateManager :=
  {| sourceType := sourceType m; sourcePath := sourcePath m; format := format m;
     managed := managed m;
     stateFile :=
       Some (print (format m)
               {| version := 1; lastUpdated := timestamp; tasks := managed m |}) |}.

(** [initialize(tasksFromSource)]. *)
Definition initialize (tasksFromSource : list Task) (m : TaskStateManager)
    : TaskStateManager :=
  let loaded := match stateFile m with
                | Some content => loadState (format m) content
                | None => managed m
                end in
  let reset := resetInterrupted <$> loaded in
  let merged := fold_left (mergeTask m) tasksFromSource reset in
  let kept := filter (fun kv => bool_decide (fst kv ∈ validKeys m tasksFromSource))
                     merged in
  persistState
    {| sourceType := sourceType m; sourcePath := sourcePath m; format := format m;
       managed := kept; stateFile := stateFile m |}.

End Manager.

(** The entry of a task that was running when the process died, and the
    same entry once [initialize] has reset it. *)
Definition interruptedEntry : TaskStateEntry :=
  {| id := "1"; title := "A"; state := RUNNING; attemptCount := 2;
     lastAttemptTime := Some (Num 1700000000000); errorHistory := ["timeout"];
     executionContext := None |}.

Definition recoveredEntry : TaskStateEntry :=
  {| id := "1"; title := "A"; state := PENDING; attemptCount := 0;
     lastAttemptTime := Some (Num 1700000000000); errorHistory := ["timeout"];
     executionContext := None |}.

End TaskState.

(** [path.join(dir, name)] for a plain file or directory name. *)
Definition pjoin (dir name : string) : string := dir +:+ "/" +:+ name.

(** [s.endsWith(suffix)]. *)
Definition endsWith (suffix s : string) : bool :=
  let n := String.length s in
  let k := String.length suffix in
  (k <=? n)%nat && String.eqb (String.substring (n - k) k s) suffix.

(** ** File lock manager (src/cli/src/execution/planning.ts) *)

Module Locks.

Definition LOCK_TIMEOUT_MS : Z := 30000.
Definition LOCK_MAX_LOCKS : nat := 5000.
Definition LOCK_DIR : string := ".ralphy/locks".
Definition LOCK_CLEANUP_INTERVAL_MS : Z := 60000.

Record LockInfo := {
  timestamp : Z;
  timeout : Z;
  owner : string;
  refreshCount : Z
}.

(** A lock file, by what reading and parsing it yields: nothing but white
    space; text [JSON.parse] rejects; the JSON value [null]; some other JSON
    value without numeric [timestamp] and [timeout]; or the payload this
    module writes.  For the fourth kind [coerced now] is what the untyped
    comparison [now - lockInfo.timestamp >= lockInfo.timeout] of
    [cleanupStaleLockFiles] gives on the value: false where a field is
    missing, and the comparison of the converted numbers where the fields
    are strings. *)
Inductive LockFile :=
| Blank
| Unparseable
| JsonNull
| JsonOther (coerced : Z -> bool)
| Written (info : LockInfo).

(** The process-wide state the lock manager works on: the [locks] map, the
    global [_lastLockCleanup], the files of the lock directories (keyed by
    directory and file name), and how many times [Date.now()] was read. *)
Record World := {
  locks : gmap string LockInfo;
  lastLockCleanup : Z;
  disk : gmap (string * string) LockFile;
  tick : nat
}.

Definition setLocks (l : gmap string LockInfo) (w : World) : World :=
  {| locks := l; lastLockCleanup := lastLockCleanup w; disk := disk w; tick := tick w |}.
Definition setDisk (d : gmap (string * string) LockFile) (w : World) : World :=
  {| locks := locks w; lastLockCleanup := lastLockCleanup w; disk := d; tick := tick w |}.
Definition setLastCleanup (t : Z) (w : World) : World :=
  {| locks := locks w; lastLockCleanup := t; disk := disk w; tick := tick w |}.

Section Manager.

(** [resolve] and [normalize] of Node's path module (and the lowering of
    case on Windows), as one function of the path and the working directory. *)
Variable normalizePathForLocking : string -> string -> string.
(** The hexadecimal SHA-256 digest of a text. *)
Variable sha256hex : string -> string.
(** This process: [pid-startTime]. *)
Variable lockOwner : string.
(** The successive values of [Date.now()]; waiting between attempts only
    shows in these values. *)
Variable clock : nat -> Z.

Definition dateNow (w : World) : Z * World :=
  (clock (tick w),
   {| locks := locks w; lastLockCleanup := lastLockCleanup w; disk := disk w;
      tick := S (tick w) |}).

Definition lockDirOf (workDir : string) : string := pjoin workDir LOCK_DIR.

Definition getLockFilePath (normalizedPath workDir : string) : string * string :=
  (lockDirOf workDir, sha256hex normalizedPath +:+ ".lock").

Definition refreshLock (normalizedPath workDir : string) (w : World) : World :=
  match locks w !! normalizedPath with
  | None => w
  | Some lockInfo =>
      let '(now, w1) := dateNow w in
      let lockInfo' := {| timestamp := now; timeout := timeout lockInfo;
                          owner := owner lockInfo;
                          refreshCount := refreshCount lockInfo + 1 |} in
      setDisk (<[getLockFilePath normalizedPath workDir := Written lockInfo']> (disk w1))
              (setLocks (<[normalizedPath := lockInfo']> (locks w1)) w1)
  end.

(** Whether [cleanupStaleLockFiles] unlinks a file with this content. *)
Definition staleOnCleanup (now : Z) (f : LockFile) : bool :=
  match f with
  | Written lockInfo => now - timestamp lockInfo >=? timeout lockInfo
  | JsonOther coerced => coerced now
  | Blank | Unparseable | JsonNull => true
  end.

Definition cleanupStaleLockFiles (workDir : string) (w : World) : World :=
  let '(now, w1) := dateNow w in
  setDisk
    (filter (fun kv =>
               negb (String.eqb (fst (fst kv)) (lockDirOf workDir) &&
                     endsWith ".lock" (snd (fst kv)) &&
                     staleOnCleanup now (snd kv)))
            (disk w1))
    w1.

(** [cleanupStaleLocks]: expired entries go first; above the ceiling the
    registry is cleared and refilled with this process's own entries (the
    preceding eviction of half the ceiling of foreign entries is subsumed by
    that clearing, and the order of [sorted] is not observable in the
    resulting map). *)
Definition cleanupStaleLocks (w : World) : World :=
  let '(now, w1) := dateNow w in
  let live := filter (fun kv => negb (now - timestamp (snd kv) >? timeout (snd kv)))
                     (locks w1) in
  if (LOCK_MAX_LOCKS <? size live)%nat
  then setLocks (filter (fun kv => String.eqb (owner (snd kv)) lockOwner) live) w1
  else setLocks live w1.

(** Whether the retry path of [acquireFileLock] unlinks an existing lock
    file with this content. *)
Definition staleOnAcquire (now : Z) (f : LockFile) : bool :=
  match f with
  | Blank | Unparseable => true
  | Written lockInfo => now - timestamp lockInfo >=? timeout lockInfo
  | JsonNull | JsonOther _ => false
  end.

(** The attempts of [acquireFileLock] that remain; a [continue] of the
    source ends one iteration of its [for] loop like the backoff does. *)
Fixpoint acquireAttempts (remaining : nat) (normalizedPath workDir : string)
    (allowReentrant : bool) (w : World) : bool * World :=
  match remaining with
  | O => (false, w)
  | S remaining' =>
      let '(now, w1) := dateNow w in
      let w2 :=
        if now - lastLockCleanup w1 >? LOCK_CLEANUP_INTERVAL_MS
        then setLastCleanup now (cleanupStaleLockFiles workDir (cleanupStaleLocks w1))
        else w1 in
      let lockFile := getLockFilePath normalizedPath workDir in
      let heldInMemory :=
        match locks w2 !! normalizedPath with
        | Some existing =>
            if now - timestamp existing <? timeout existing then Some existing else None
        | None => None
        end in
      match heldInMemory with
      | Some existing =>
          if String.eqb (owner existing) lockOwner && allowReentrant
          then (true, refreshLock normalizedPath workDir w2)
          else (false, w2)
      | None =>
          match disk w2 !! lockFile with
          | None =>
              let lockInfo := {| timestamp := now; timeout := LOCK_TIMEOUT_MS;
                                 owner := lockOwner; refreshCount := 0 |} in
              (true,
               setLocks (<[normalizedPath := lockInfo]> (locks w2))
                        (setDisk (<[lockFile := Written lockInfo]> (disk w2)) w2))
          | Some content =>
              if staleOnAcquire now content
              then acquireAttempts remaining' normalizedPath workDir allowReentrant
                     (setDisk (delete lockFile (disk w2)) w2)
              else acquireAttempts remaining' normalizedPath workDir allowReentrant w2
          end
      end
  end.

Definition acquireFileLock (filePath workDir : string) (maxRetries : nat)
    (allowReentrant : bool) (w : World) : bool * World :=
  acquireAttempts maxRetries (normalizePathForLocking filePath workDir) workDir
                  allowReentrant w.

Definition releaseFileLock (filePath workDir : string) (w : World) : World :=
  let normalizedPath := normalizePathForLocking filePath workDir in
  let lockFile := getLockFilePath normalizedPath workDir in
  setDisk (delete lockFile (disk w)) (setLocks (delete normalizedPath (locks w)) w).

(** The de-duplication of [acquireLocksForFiles]: the first file of every
    normalized path, in the order given. *)
Fixpoint uniqueFiles (files : list string) (workDir : string)
    (seen : list string) : list string :=
  match files with
  | [] => []
  | file :: rest =>
      let normalizedPath := normalizePathForLocking file workDir in
      if bool_decide (normalizedPath ∈ seen)
      then uniqueFiles rest workDir seen
      else file :: uniqueFiles rest workDir (normalizedPath :: seen)
  end.

Definition releaseLocksForFiles (files : list string) (workDir : string)
    (w : World) : World :=
  fold_left (fun w' file => releaseFileLock file workDir w') files w.

(** The acquisition loop of [acquireLocksForFiles]; the second component is
    [acquiredThisAttempt] when the loop stops. *)
Fixpoint acquireLoop (files : list string) (workDir : string)
    (acquiredThisAttempt : list string) (w : World)
    : bool * list string * World :=
  match files with
  | [] => (true, acquiredThisAttempt, w)
  | file :: rest =>
      match acquireFileLock file workDir 5 false w with
      | (true, w1) => acquireLoop rest workDir (acquiredThisAttempt ++ [file]) w1
      | (false, w1) => (false, acquiredThisAttempt, w1)
      end
  end.

Definition acquireLocksForFiles (files : list string) (workDir : string)
    (w : World) : bool * World :=
  match acquireLoop (uniqueFiles files workDir []) workDir [] w with
  | (true, _, w1) => (true, w1)
  | (false, acquiredThisAttempt, w1) =>
      (false, releaseLocksForFiles acquiredThisAttempt workDir w1)
  end.

(** The files this call of [acquireLocksForFiles] locked before it stopped. *)
Definition acquiredDuring (files : list string) (workDir : string) (w : World)
    : list string :=
  snd (fst (acquireLoop (uniqueFiles files workDir []) workDir [] w)).

(** A lock is live while [now - timestamp < timeout]. *)
Definition live (now : Z) (info : LockInfo) : Prop :=
  now - timestamp info < timeout info.

End Manager.

(** Between [w] and [w'] no lock entry and no lock file appeared or changed,
    except under the names [ks] and the files [fs]. *)
Definition within (ks : list string) (fs : list (string * string)) (w w' : World)
    : Prop :=
  (forall k v, locks w' !! k = Some v -> locks w !! k = Some v \/ k ∈ ks) /\
  (forall f c, disk w' !! f = Some c -> disk w !! f = Some c \/ f ∈ fs).

(** Stand-ins for the two library functions, good enough to run the lock
    manager on an example: paths are joined to the working directory, and the
    digest of a name is the name itself. *)
Definition normalizeExample (filePath workDir : string) : string := pjoin workDir filePath.
Definition digestExample (s : string) : string := s.
Definition clockExample (n : nat) : Z := 1000 + Z.of_nat n.

Definition foreignLock : LockInfo :=
  {| timestamp := 900; timeout := 30000; owner := "4242-1"; refreshCount := 0 |}.

(** Another process holds a live lock on [b]; this process holds nothing. *)
Definition contended : World :=
  {| locks := ∅; lastLockCleanup := 1000;
     disk := {[ getLockFilePath digestExample (normalizeExample "b" "/w") "/w"
                  := Written foreignLock ]};
     tick := 0 |}.

End Locks.

(** ** Per-task hash store *)

Module HashStore.

Definition HASH_STORE_DIR : string := ".ralphy-hashes".
Definition ENABLE_HASH_STORE : bool := true.

Record HashMetadata := {
  originalPath : string;
  hash : string;
  size : Z;
  mtime : Z;
  compressed : bool;
  originalSize : Z;
  storedAt : Z;
  taskId : string
}.

Record HashReference := {
  refHash : string;
  hashPath : string;
  metadataPath : string
}.

Record TaskHashIndex := {
  indexTaskId : string;
  files : gmap string HashReference;
  createdAt : Z;
  updatedAt : Z
}.

Record AddFileOptions := { compress : bool; compressionThreshold : Z }.
Definition defaultOptions : AddFileOptions :=
  {| compress := true; compressionThreshold := 1024 |}.

Record AddFileResult := {
  addSuccess : bool;
  addHash : option string;
  addError : option string;
  alreadyExists : option bool
}.

Record GetFileResult := {
  success : bool;
  content : option string;
  metadata : option HashMetadata;
  error : option string
}.

(** A regular file: its bytes and its modification time. *)
Record File := { bytes : string; modified : Z }.

(** The regular files of the file system, by path. *)
Abbreviation FileSystem := (gmap string File).

Record FileHashStore := {
  storeTaskId : string;
  projectRoot : string;
  index : TaskHashIndex;
  initialized : bool;
  cleanedUp : bool
}.

Fixpoint dropChars (n : nat) (s : string) : string :=
  match n, s with
  | O, _ => s
  | S n', String _ rest => dropChars n' rest
  | S _, EmptyString => EmptyString
  end.

(** [s.replace(pattern, by)] with a text pattern: the first occurrence only. *)
Fixpoint replaceFirst (pattern by_ s : string) : string :=
  if startsWith pattern s
  then by_ +:+ dropChars (String.length pattern) s
  else match s with
       | EmptyString => EmptyString
       | String c rest => String c (replaceFirst pattern by_ rest)
       end.

(** No regular file lies below the task directory [dir]. *)
Definition emptyBelow (dir : string) (fs : FileSystem) : Prop :=
  forall name, fs !! pjoin dir name = None.

Section Store.

(** [path.resolve(root, relative)]. *)
Variable resolve : string -> string -> string.
(** The hexadecimal SHA-256 digest of a file's bytes. *)
Variable sha256hex : string -> string.
(** The gzip stream (level 6) and its inverse; [gunzip] throws on bytes that
    are no gzip stream. *)
Variable gzip : string -> string.
Variable gunzip : string -> option string.
(** [JSON.stringify] and [JSON.parse] on the two persisted records, and the
    messages of the errors [JSON.parse] and the gunzip stream throw. *)
Variable parseErrorMessage : string.
Variable gunzipErrorMessage : string.
Variable encodeMetadata : HashMetadata -> string.
Variable decodeMetadata : string -> option HashMetadata.
Variable encodeIndex : TaskHashIndex -> string.
Variable decodeIndex : string -> option TaskHashIndex.

Definition baseDir (s : FileHashStore) : string := resolve (projectRoot s) HASH_STORE_DIR.
Definition taskDir (s : FileHashStore) : string := pjoin (baseDir s) (storeTaskId s).
Definition indexPath (s : FileHashStore) : string :=
  pjoin (taskDir s) ".ralphy-hashes-ref.json".

(** The constructor, at time [now]. *)
Definition newStore (now : Z) (task root : string) : FileHashStore :=
  {| storeTaskId := task; projectRoot := root;
     index := {| indexTaskId := task; files := ∅; createdAt := now; updatedAt := now |};
     initialized := false; cleanedUp := false |}.

Definition setIndex (i : TaskHashIndex) (s : FileHashStore) : FileHashStore :=
  {| storeTaskId := storeTaskId s; projectRoot := projectRoot s; index := i;
     initialized := initialized s; cleanedUp := cleanedUp s |}.

Definition setInitialized (s : FileHashStore) : FileHashStore :=
  {| storeTaskId := storeTaskId s; projectRoot := projectRoot s; index := index s;
     initialized := true; cleanedUp := cleanedUp s |}.

(** The inner [try] block of [initialize] on the text of the index file:
    [None] when the guard or the parser throws. *)
Definition loadIndex (data : string) : option TaskHashIndex :=
  if pollutionPattern data then None else decodeIndex data.

(** [initialize()]; only regular files are modelled, so the two [mkdirSync]
    calls leave no trace. *)
Definition initialize (now : Z) (fs : FileSystem) (s : FileHashStore) : FileHashStore :=
  if negb ENABLE_HASH_STORE then s
  else if initialized s then s
  else
    match fs !! indexPath s with
    | Some f =>
        match loadIndex (bytes f) with
        | Some loaded => setInitialized (setIndex loaded s)
        | None =>
            setInitialized
              (setIndex {| indexTaskId := storeTaskId s; files := ∅;
                           createdAt := now; updatedAt := now |} s)
        end
    | None => setInitialized s
    end.

Definition writeFile (path data : string) (now : Z) (fs : FileSystem) : FileSystem :=
  <[path := {| bytes := data; modified := now |}]> fs.

Definition saveIndex (now : Z) (s : FileHashStore) (fs : FileSystem) : FileSystem :=
  writeFile (indexPath s) (encodeIndex (index s)) now fs.

Definition addFailure (message : string) : AddFileResult :=
  {| addSuccess := false; addHash := None; addError := Some message;
     alreadyExists := None |}.

(** [addFile(filePath, options)] at time [now].  The two writes of the
    content are taken to succeed.  The compressed copy goes into the content
    directory, which [initialize] has made.  The plain copy goes to the path
    of the compressed one with its first [.gz] removed: that is the content
    directory when the path of the task directory holds no [.gz], and some
    other directory, where the code's write can fail, when it does; the
    statements about the plain copy are for the first case. *)
Definition addFile (now : Z) (filePath : string) (options : AddFileOptions)
    (s : FileHashStore) (fs : FileSystem)
    : AddFileResult * FileHashStore * FileSystem :=
  if negb ENABLE_HASH_STORE then (addFailure "Hash store is disabled", s, fs)
  else if cleanedUp s then (addFailure "Hash store has been cleaned up", s, fs)
  else
    let s1 := initialize now fs s in
    let absolutePath := resolve (projectRoot s1) filePath in
    match fs !! absolutePath with
    | None => (addFailure ("File not found: " +:+ filePath), s1, fs)
    | Some source =>
        let statsSize := Z.of_nat (String.length (bytes source)) in
        let h := sha256hex (bytes source) in
        let hashFileName := h +:+ ".gz" in
        let hashPath_ := pjoin "content" hashFileName in
        let absoluteHashPath := pjoin (taskDir s1) hashPath_ in
        let exists_ := bool_decide (is_Some (fs !! absoluteHashPath)) in
        let shouldCompress :=
          compress options && (statsSize >=? compressionThreshold options) in
        let fs1 :=
          if exists_ then fs
          else
            let stored :=
              if shouldCompress
              then writeFile absoluteHashPath (gzip (bytes source)) now fs
              else writeFile (replaceFirst ".gz" "" absoluteHashPath)
                             (bytes source) now fs in
            let meta := {| originalPath := filePath; hash := h; size := statsSize;
                           mtime := modified source; compressed := shouldCompress;
                           originalSize := statsSize; storedAt := now;
                           taskId := storeTaskId s1 |} in
            writeFile (pjoin (pjoin (taskDir s1) "content") (h +:+ ".json"))
                      (encodeMetadata meta) now stored in
        let reference :=
          {| refHash := h;
             hashPath := if exists_ then hashPath_
                         else h +:+ (if shouldCompress then ".gz" else "");
             metadataPath := pjoin "content" (h +:+ ".json") |} in
        let s2 := setIndex {| indexTaskId := indexTaskId (index s1);
                              files := <[filePath := reference]> (files (index s1));
                              createdAt := createdAt (index s1);
                              updatedAt := now |} s1 in
        ({| addSuccess := true; addHash := Some h; addError := None;
            alreadyExists := Some exists_ |},
         s2, saveIndex now s2 fs1)
    end.

Definition getFailure (message : string) : GetFileResult :=
  {| success := false; content := None; metadata := None; error := Some message |}.

(** [getFile(filePath)] at time [now].  For a path that is the name of a
    property every object inherits ([toString], [constructor], [__proto__])
    and that the index does not hold, the code fails as well, with the text
    of a [TypeError] in place of the first message. *)
Definition getFile (now : Z) (filePath : string) (s : FileHashStore)
    (fs : FileSystem) : GetFileResult * FileHashStore :=
  if negb ENABLE_HASH_STORE then (getFailure "Hash store is disabled", s)
  else
    let s1 := initialize now fs s in
    match files (index s1) !! filePath with
    | None => (getFailure ("File not in hash store: " +:+ filePath), s1)
    | Some reference =>
        match fs !! pjoin (taskDir s1) (metadataPath reference) with
        | None => (getFailure ("Metadata not found for: " +:+ filePath), s1)
        | Some metaFile =>
            match decodeMetadata (bytes metaFile) with
            | None => (getFailure parseErrorMessage, s1)
            | Some meta =>
                match fs !! pjoin (taskDir s1) (hashPath reference) with
                | None => (getFailure ("Content not found for: " +:+ filePath), s1)
                | Some stored =>
                    let loaded := if compressed meta then gunzip (bytes stored)
                                  else Some (bytes stored) in
                    match loaded with
                    | None => (getFailure gunzipErrorMessage, s1)
                    | Some data =>
                        ({| success := true; content := Some data;
                            metadata := Some meta; error := None |}, s1)
                    end
                end
            end
        end
    end.

End Store.

(** The text of an index file whose [files] object has the key [__proto__]. *)
Definition pollutedIndexText : string :=
  "{" +:+ DQ +:+ "taskId" +:+ DQ +:+ ":" +:+ DQ +:+ "t" +:+ DQ +:+ "," +:+
  DQ +:+ "files" +:+ DQ +:+ ":{" +:+ DQ +:+ "__proto__" +:+ DQ +:+ ":{" +:+
  DQ +:+ "hash" +:+ DQ +:+ ":" +:+ DQ +:+ "h" +:+ DQ +:+ "," +:+
  DQ +:+ "hashPath" +:+ DQ +:+ ":" +:+ DQ +:+ "p" +:+ DQ +:+ "," +:+
  DQ +:+ "metadataPath" +:+ DQ +:+ ":" +:+ DQ +:+ "m" +:+ DQ +:+ "}}," +:+
  DQ +:+ "createdAt" +:+ DQ +:+ ":0," +:+ DQ +:+ "updatedAt" +:+ DQ +:+ ":0}".

(** Stand-ins for the library functions, good enough to run the store on an
    example: a constant 64-digit digest, identity compression, and codecs
    that never succeed in decoding. *)
Definition resolveExample (root relative : string) : string := pjoin root relative.
Definition digestExample (_ : string) : string :=
  "8f434346648f6b96df89dda901c5176b10a6d83961dd3c1ac88b59b2dc327aa4".

Definition projectFiles : FileSystem :=
  {[ "/p/a.txt" := {| bytes := "hi"; modified := 5 |} ]}.

End HashStore.


(** ** The streaming line reader of the command runner *)

Module Streaming.

(** [s.split("\n")]; [cur] is the piece being collected. *)
Fixpoint splitNLAux (s cur : string) : list string :=
  match s with
  | EmptyString => [cur]
  | String c rest =>
      if ascii_eqb c newline then cur :: splitNLAux rest EmptyString
      else splitNLAux rest (cur +:+ String c EmptyString)
  end.

Definition splitNL (s : string) : list string := splitNLAux s EmptyString.



Section Decoding.

(** The decoder of the stream: what a chunk of bytes decodes to, and the
    state the decoder is left in.  Under Bun this is
    [decoder.decode(value, { stream: true })] of one [TextDecoder], which holds
    back the bytes of an incomplete character for the next chunk; under Node
    it is [data.toString()], which keeps no state and decodes every chunk by
    itself, so that a character cut by the end of a chunk is replaced. *)
Variable State : Type.
Variable decode : State -> string -> string * State.




End Decoding.


(** A text without line feed. *)
Fixpoint noNewline (s : string) : bool :=
  match s with
  | EmptyString => true
  | String c rest => negb (ascii_eqb c newline) && noNewline rest
  end.

End Streaming.

(** ** Error classification (src/cli/src/utils/errors.ts) *)

Module Errors.

(** A [RalphyError], without its optional context. *)
Record RalphyError := { message : string; code : string }.

(** A thrown value, by the cases [standardizeError] tells apart; the last
    one carries [String(error)]. *)
Inductive Thrown :=
| ThrownRalphy (e : RalphyError)
| ThrownError (msg : string)
| ThrownString (s : string)
| ThrownOther (stringified : string).

Definition standardizeError (error : Thrown) : RalphyError :=
  match error with
  | ThrownRalphy e => e
  | ThrownError msg => {| message := msg; code := "UNKNOWN_ERROR" |}
  | ThrownString s => {| message := s; code := "STRING_ERROR" |}
  | ThrownOther s => {| message := s; code := "UNKNOWN_ERROR" |}
  end.

Definition retryableCodes : list string :=
  ["TIMEOUT_ERROR"; "PROCESS_ERROR"; "NETWORK_ERROR"; "RATE_LIMIT_ERROR"].

Definition retryableMessages : list string :=
  ["timeout"; "connection refused"; "network"; "rate limit"; "too many requests";
   "temporary failure"; "try again"; "connection error"; "unable to connect";
   "internet connection"; "econnrefused"; "econnreset"; "socket hang up";
   "fetch failed"].

Definition isRetryableError (error : Thrown) : bool :=
  let standardized := standardizeError error in
  let msg := Csv.toLowerCase (message standardized) in
  if existsb (String.eqb (code standardized)) retryableCodes then true
  else existsb (fun pattern => includes pattern msg) retryableMessages.

(** The alternatives of the pattern [recordFailure] tests with the [i]
    flag, in lower case. *)
Definition connectionWords : list string :=
  ["connection"; "network"; "timeout"; "unable to connect"; "internet connection";
   "econnrefused"; "econnreset"; "socket hang up"; "dns"; "enotfound"].

(** The classification at the head of [recordFailure]. *)
Definition isConnectionError (error : RalphyError) : bool :=
  isRetryableError (ThrownRalphy error) &&
  existsb (fun word => includes word (Csv.toLowerCase (message error))) connectionWords.

End Errors.

(** ** The retry engine around the circuit breaker *)

Module Retry.
Import Circuit.

Definition reset (st : ConnectionStateManager) : ConnectionStateManager :=
  {| circuitState := CLOSED; consecutiveFailures := 0;
     lastFailureTime := None; halfOpenAttempts := 0 |}.

(** The calls that change the process-wide breaker, with the time each one
    reads. *)
Inductive Call :=
| CanAttempt (now : Z)
| RecordSuccess
| RecordFailure (error : Errors.RalphyError) (now : Z)
| Reset.

Definition call (c : Call) (st : ConnectionStateManager) : ConnectionStateManager :=
  match c with
  | CanAttempt now => snd (canAttempt now st)
  | RecordSuccess => recordSuccess st
  | RecordFailure error now => recordFailure (Errors.isConnectionError error) now st
  | Reset => reset st
  end.

Definition calls (cs : list Call) (st : ConnectionStateManager) : ConnectionStateManager :=
  fold_left (fun s c => call c s) cs st.

(** The time a call reads, if it reads it. *)
Definition timeOf (c : Call) : option Z :=
  match c with
  | CanAttempt now | RecordFailure _ now => Some now
  | RecordSuccess | Reset => None
  end.

(** What every breaker reachable from [initial] satisfies. *)
Record Sane (st : ConnectionStateManager) : Prop := {
  sane_trials : 0 <= halfOpenAttempts st <= halfOpenMaxAttempts;
  sane_failures : 0 <= consecutiveFailures st;
  sane_closed : circuitState st = CLOSED -> consecutiveFailures st < failureThreshold;
  sane_time : circuitState st <> CLOSED -> is_Some (lastFailureTime st)
}.

(** Every time the calls read is after the epoch. *)
Definition positiveTimes (cs : list Call) : Prop :=
  Forall (fun c => forall t, timeOf c = Some t -> 0 < t) cs.

Section WithRetry.

(** The type of the results of [fn]. *)
Variable T : Type.

Inductive Outcome :=
| Returns (value : T)
| Throws (error : Errors.Thrown).

(** How [withRetry] ends: with the result of [fn]; with the error of the
    breaker and its reason; with the last error of [fn], standardized; or
    with the error of a loop that never ran. *)
Inductive Settled :=
| Resolved (value : T)
| CircuitRefused (why : option Reason)
| LastError (error : Errors.RalphyError)
| AllAttemptsFailed.

(** The invocations of [fn], by their number, and the successive values of
    [Date.now()]: the sleep between attempts only shows in these values. *)
Variable fn : nat -> Outcome.
Variable clock : nat -> Z.

Record Run := {
  breaker : ConnectionStateManager;
  ticks : nat;
  invocations : nat
}.

Definition canAttemptNow (r : Run) : Attempt * Run :=
  let '(a, b) := canAttempt (clock (ticks r)) (breaker r) in
  (a, {| breaker := b; ticks := S (ticks r); invocations := invocations r |}).

(** [recordFailure] reads the time only past its early return. *)
Definition recordFailureNow (error : Errors.RalphyError) (r : Run) : Run :=
  if Errors.isConnectionError error
  then {| breaker := recordFailure true (clock (ticks r)) (breaker r);
          ticks := S (ticks r); invocations := invocations r |}
  else r.

(** The [for] loop of [withRetry] with [remaining] iterations to go. *)
Fixpoint retryLoop (remaining : nat) (lastError : option Errors.RalphyError)
    (r : Run) : Settled * Run :=
  match remaining with
  | O =>
      (match lastError with Some e => LastError e | None => AllAttemptsFailed end, r)
  | S remaining' =>
      let r1 := {| breaker := breaker r; ticks := ticks r;
                   invocations := S (invocations r) |} in
      match fn (invocations r) with
      | Returns value =>
          (Resolved value,
           {| breaker := recordSuccess (breaker r1); ticks := ticks r1;
              invocations := invocations r1 |})
      | Throws error =>
          let e := Errors.standardizeError error in
          let r2 := recordFailureNow e r1 in
          match remaining' with
          | O => retryLoop remaining' (Some e) r2
          | S _ =>
              let '(_, r3) := canAttemptNow r2 in
              let '(recheck, r4) := canAttemptNow r3 in
              if allowed recheck
              then retryLoop remaining' (Some e) r4
              else (CircuitRefused (reason recheck), r4)
          end
      end
  end.

Definition withRetry (maxRetries : nat) (r : Run) : Settled * Run :=
  let '(circuitCheck, r1) := canAttemptNow r in
  if allowed circuitCheck
  then retryLoop maxRetries None r1
  else (CircuitRefused (reason circuitCheck), r1).

End WithRetry.

End Retry.
(** ** The read-only views of the in-memory queue *)

Module QueueViews.
Import MemoryQueue.

(** The comparator [getPending] sorts with. *)
Definition comparePending (a b : QueueItem) : Z :=
  let priorityDiff := priorityOrder (priority a) - priorityOrder (priority b) in
  if negb (priorityDiff =? 0) then priorityDiff
  else enqueuedAt a - enqueuedAt b.

(** [Array.prototype.sort] is stable: items that compare equal keep their
    order.  Insertion from the right, each item placed before the first one
    it does not follow, is that sort. *)
Fixpoint insertSorted (x : QueueItem) (sorted : list QueueItem) : list QueueItem :=
  match sorted with
  | [] => [x]
  | y :: rest =>
      if comparePending x y <=? 0 then x :: sorted else y :: insertSorted x rest
  end.

Definition sortPending (items : list QueueItem) : list QueueItem :=
  fold_right insertSorted [] items.

Definition getPending (q : MemoryTaskQueue) : list QueueItem :=
  sortPending (mvalues (pending q)).

Definition getRunning (q : MemoryTaskQueue) : list QueueItem := mvalues (running q).
Definition getCompleted (q : MemoryTaskQueue) : list QueueItem :=
  mvalues (completedItems q).
Definition getFailed (q : MemoryTaskQueue) : list QueueItem := mvalues (failed q).
Definition getSkipped (q : MemoryTaskQueue) : list QueueItem := mvalues (skipped q).

(** [m.size]. *)
Definition size (m : ItemMap) : Z := Z.of_nat (length m).

Record QueueStats := {
  total : Z;
  pendingCount : Z;
  runningCount : Z;
  completedCount : Z;
  failedCount : Z;
  skippedCount : Z
}.

Definition getStats (q : MemoryTaskQueue) : QueueStats :=
  {| total := size (pending q) + size (running q) + size (completedItems q) +
              size (failed q) + size (skipped q);
     pendingCount := size (pending q);
     runningCount := size (running q);
     completedCount := size (completedItems q);
     failedCount := size (failed q);
     skippedCount := size (skipped q) |}.

Definition getTask (taskId : string) (q : MemoryTaskQueue) : option QueueItem :=
  orItem (mget taskId (pending q))
    (orItem (mget taskId (running q))
       (orItem (mget taskId (completedItems q))
          (orItem (mget taskId (failed q)) (mget taskId (skipped q))))).

Definition clear (q : MemoryTaskQueue) : MemoryTaskQueue := emptyQueue.

(** The calls that move an item between partitions without adding or
    removing a task. *)
Definition isTransition (op : Op) : bool :=
  match op with
  | Enqueue _ _ _ | Remove _ => false
  | _ => true
  end.

(** The keys of a map are pairwise distinct. *)
Definition distinctKeys (m : ItemMap) : Prop := NoDup (map fst m).

(** No partition of a queue ever holds a key twice. *)
Record Distinct (q : MemoryTaskQueue) : Prop := {
  distinct_pending : distinctKeys (pending q);
  distinct_running : distinctKeys (running q);
  distinct_completed : distinctKeys (completedItems q);
  distinct_failed : distinctKeys (failed q);
  distinct_skipped : distinctKeys (skipped q)
}.

(** The choice the selection loop makes between the best item so far and
    the next one. *)
Definition pick (best next : QueueItem) : QueueItem :=
  if comparePending next best <? 0 then next else best.

(** The first of the least items of a list. *)
Fixpoint firstMin (items : list QueueItem) : option QueueItem :=
  match items with
  | [] => None
  | x :: rest =>
      Some (match firstMin rest with
            | None => x
            | Some m => if comparePending x m <=? 0 then x else m
            end)
  end.

End QueueViews.
(** ** File-backed queue (src/cli/src/execution/file-queue.ts) *)

Module FileQueue.
Import MemoryQueue QueueViews.

Inductive ItemState :=
| StatePending | StateRunning | StateCompleted | StateFailed | StateSkipped.

(** An item of the snapshot file; the dates are ISO texts there and epoch
    milliseconds here. *)
Record SerializedQueueItem := {
  sTask : Task;
  sPriority : TaskPriority;
  sEnqueuedAt : Z;
  sStartedAt : option Z;
  sCompletedAt : option Z;
  sAttempts : Z;
  sMaxAttempts : Z;
  sState : ItemState
}.

Record QueueSnapshot := {
  snapshotName : string;
  version : Z;
  createdAt : Z;
  updatedAt : Z;
  items : list SerializedQueueItem
}.

(** The calls [load] makes on the memory queue for one item of the
    snapshot, in order. *)
Definition restoreCalls (serialized : SerializedQueueItem) : list Op :=
  let enq := Enqueue (sTask serialized) (sPriority serialized)
               (sMaxAttempts serialized) in
  let taskId := id (sTask serialized) in
  match sState serialized with
  | StatePending | StateRunning => [enq]
  | StateCompleted => [enq; Dequeue; MarkComplete taskId]
  | StateFailed => [enq; Dequeue; MarkFailed taskId]
  | StateSkipped => [enq; MarkSkipped taskId]
  end.

(** The progress of a [load]: how many calls it has made on the memory
    queue, the queue, and whether a call has thrown. *)
Record LoadState := {
  calls : nat;
  queue : MemoryTaskQueue;
  threw : bool
}.

Section Load.

(** The call number [n] that a [load] makes on the memory queue is made at
    time [clock n]. *)
Variable clock : nat -> Z.

(** One call; [enqueue] is the only one that throws, and nothing follows a
    throw. *)
Definition callQueue (op : Op) (st : LoadState) : LoadState :=
  if threw st then st
  else
    match op with
    | Enqueue t p m =>
        match enqueue (clock (calls st)) t p m (queue st) with
        | Some q' => {| calls := S (calls st); queue := q'; threw := false |}
        | None => {| calls := S (calls st); queue := queue st; threw := true |}
        end
    | _ =>
        {| calls := S (calls st);
           queue := apply (clock (calls st)) op (queue st); threw := false |}
    end.

Definition restore (serialized : SerializedQueueItem) (st : LoadState) : LoadState :=
  fold_left (fun s op => callQueue op s) (restoreCalls serialized) st.

(** [load] once the file is read and parsed.  A snapshot of another
    version throws before the queue is cleared. *)
Definition load (snapshot : QueueSnapshot) (q : MemoryTaskQueue) : LoadState :=
  if negb (version snapshot =? 1)
  then {| calls := 0; queue := q; threw := true |}
  else
    fold_left (fun st serialized => restore serialized st) (items snapshot)
      {| calls := 0; queue := clear q; threw := false |}.

End Load.

(** The item [enqueue] files at time [now]. *)
Definition freshItem (now : Z) (t : Task) (p : TaskPriority) (maxAtt : Z) : QueueItem :=
  {| task := t; priority := p; enqueuedAt := now; startedAt := None;
     completedAt := None; attempts := 0; maxAttempts := maxAtt |}.

(** What a restored item keeps of the stored one, with its attempts. *)
Definition summary (item : QueueItem) : Task * TaskPriority * Z * Z :=
  (task item, priority item, attempts item, maxAttempts item).

Definition restoredAs (attemptsAfter : Z) (serialized : SerializedQueueItem)
    : Task * TaskPriority * Z * Z :=
  (sTask serialized, sPriority serialized, attemptsAfter, sMaxAttempts serialized).

Definition inState (s : ItemState) (serialized : SerializedQueueItem) : bool :=
  match s, sState serialized with
  | StatePending, StatePending | StateRunning, StateRunning
  | StateCompleted, StateCompleted | StateFailed, StateFailed
  | StateSkipped, StateSkipped => true
  | _, _ => false
  end.

(** Stored as pending or running. *)
Definition unfinished (serialized : SerializedQueueItem) : Prop :=
  sState serialized = StatePending \/ sState serialized = StateRunning.

(** Stored as completed or skipped, or as failed with a budget of at most
    two attempts. *)
Definition finished (serialized : SerializedQueueItem) : Prop :=
  sState serialized = StateCompleted \/ sState serialized = StateSkipped \/
  (sState serialized = StateFailed /\ sMaxAttempts serialized <= 2).

(** The attempts an item has after the calls that restore it. *)
Definition restoredAttempts (serialized : SerializedQueueItem) : Z :=
  match sState serialized with
  | StateCompleted => 1
  | StateFailed => 2
  | _ => 0
  end.

Definition taskIds (l : list SerializedQueueItem) : list string :=
  map (fun serialized => id (sTask serialized)) l.

End FileQueue.
(** ** The operations of the task state manager *)

Module TaskStateOps.
Import TaskState.

#[global] Instance TaskState_eq_dec : EqDecision TaskState.
Proof. solve_decision. Defined.

Definition setManaged (m : TaskStateManager) (entries : gmap string TaskStateEntry)
    : TaskStateManager :=
  {| sourceType := sourceType m; sourcePath := sourcePath m; format := format m;
     managed := entries; stateFile := stateFile m |}.

(** [{ ...a, ...b }] on two optional contexts: a field of [b] that is set
    wins. *)
Definition mergeContext (a : option ExecutionContext) (b : ExecutionContext)
    : ExecutionContext :=
  match a with
  | None => b
  | Some a' =>
      {| branch := match branch b with Some x => Some x | None => branch a' end;
         worktree := match worktree b with Some x => Some x | None => worktree a' end;
         sandbox := match sandbox b with Some x => Some x | None => sandbox a' end |}
  end.

(** The summary of [getStats]. *)
Record TaskStats := {
  total : nat;
  pending : nat;
  running : nat;
  completed : nat;
  failed : nat;
  deferred : nat;
  skipped : nat
}.

Definition isFailedOrSkipped (e : TaskStateEntry) : bool :=
  match state e with
  | FAILED | SKIPPED => true
  | _ => false
  end.

(** What [resetTask] and [resetAllFailed] do to an entry. *)
Definition resetEntry (e : TaskStateEntry) : TaskStateEntry :=
  {| id := id e; title := title e; state := PENDING; attemptCount := 0;
     lastAttemptTime := lastAttemptTime e; errorHistory := [];
     executionContext := executionContext e |}.

Section Operations.

(** The printers of the four formats; every call that persists gets the
    text [stamp] of its own [new Date().toISOString()]. *)
Variable print : StateFormat -> StateFileFormat -> string.

(** [claimTaskForExecution(taskId)] at time [now]. *)
Definition claimTaskForExecution (now : Z) (stamp : string) (i : string)
    (m : TaskStateManager) : bool * TaskStateManager :=
  let key := buildTaskKey m i in
  match managed m !! key with
  | None => (false, m)
  | Some task =>
      match state task with
      | PENDING =>
          let task' := {| id := id task; title := title task; state := RUNNING;
                          attemptCount := attemptCount task + 1;
                          lastAttemptTime := Some (Num now);
                          errorHistory := errorHistory task;
                          executionContext := executionContext task |} in
          (true, persistState print stamp (setManaged m (<[key := task']> (managed m))))
      | _ => (false, m)
      end
  end.

(** [transitionState(taskId, newState, error, executionContext)]; an empty
    [error] is falsy. *)
Definition transitionState (stamp : string) (i : string) (newState : TaskState)
    (error : option string) (context : option ExecutionContext)
    (m : TaskStateManager) : TaskStateManager :=
  let key := buildTaskKey m i in
  match managed m !! key with
  | None => m
  | Some task =>
      let history := match error with
                     | Some (String c rest) =>
                         (errorHistory task ++ [String c rest])%list
                     | _ => errorHistory task
                     end in
      let context' := match context with
                      | Some c => Some (mergeContext (executionContext task) c)
                      | None => executionContext task
                      end in
      let task' := {| id := id task; title := title task; state := newState;
                      attemptCount := attemptCount task;
                      lastAttemptTime := lastAttemptTime task;
                      errorHistory := history; executionContext := context' |} in
      persistState print stamp (setManaged m (<[key := task']> (managed m)))
  end.

(** [getTasksByState(state)], as the entries with their keys: the order of
    the array is that of the map and is not kept here. *)
Definition getTasksByState (s : TaskState) (m : TaskStateManager)
    : gmap string TaskStateEntry :=
  filter (fun kv => state (snd kv) = s) (managed m).

Definition getTaskState (i : string) (m : TaskStateManager) : option TaskState :=
  state <$> managed m !! buildTaskKey m i.

Definition hasExceededMaxAttempts (i : string) (maxRetries : Z)
    (m : TaskStateManager) : bool :=
  match managed m !! buildTaskKey m i with
  | None => false
  | Some task => attemptCount task >? maxRetries
  end.

Definition countPending (m : TaskStateManager) : nat :=
  size (getTasksByState PENDING m).

Definition getStats (m : TaskStateManager) : TaskStats :=
  {| total := size (managed m);
     pending := size (getTasksByState PENDING m);
     running := size (getTasksByState RUNNING m);
     completed := size (getTasksByState COMPLETED m);
     failed := size (getTasksByState FAILED m);
     deferred := size (getTasksByState DEFERRED m);
     skipped := size (getTasksByState SKIPPED m) |}.

Definition resetTask (stamp : string) (i : string) (m : TaskStateManager)
    : TaskStateManager :=
  let key := buildTaskKey m i in
  match managed m !! key with
  | None => m
  | Some task =>
      persistState print stamp (setManaged m (<[key := resetEntry task]> (managed m)))
  end.

(** [resetAllFailed()]: the number of entries reset, and the manager. *)
Definition resetAllFailed (stamp : string) (m : TaskStateManager)
    : nat * TaskStateManager :=
  let count := size (filter (fun kv => isFailedOrSkipped (snd kv) = true) (managed m)) in
  let m' := setManaged m
              ((fun e => if isFailedOrSkipped e then resetEntry e else e)
                 <$> managed m) in
  (count, if (0 <? count)%nat then persistState print stamp m' else m').

Definition resetAllAttemptCounts (stamp : string) (m : TaskStateManager)
    : TaskStateManager :=
  persistState print stamp
    (setManaged m
       ((fun e => {| id := id e; title := title e; state := state e;
                     attemptCount := 0; lastAttemptTime := lastAttemptTime e;
                     errorHistory := errorHistory e;
                     executionContext := executionContext e |})
          <$> managed m)).

(** The calls that change the manager after [initialize]. *)
Inductive Call :=
| Claim (now : Z) (i : string)
| Transition (i : string) (newState : TaskState) (error : option string)
    (context : option ExecutionContext)
| ResetTask (i : string)
| ResetAllFailed
| ResetAllAttemptCounts.

Definition call (c : string * Call) (m : TaskStateManager) : TaskStateManager :=
  let '(stamp, op) := c in
  match op with
  | Claim now i => snd (claimTaskForExecution now stamp i m)
  | Transition i s e x => transitionState stamp i s e x m
  | ResetTask i => resetTask stamp i m
  | ResetAllFailed => snd (resetAllFailed stamp m)
  | ResetAllAttemptCounts => resetAllAttemptCounts stamp m
  end.

(** How many of the calls are claims of the task [i] that are granted. *)
Fixpoint granted (i : string) (cs : list (string * Call)) (m : TaskStateManager)
    : nat :=
  match cs with
  | [] => O
  | c :: rest =>
      (match snd c with
       | Claim now j =>
           if String.eqb j i && fst (claimTaskForExecution now (fst c) j m)
           then 1 else 0
       | _ => 0
       end + granted i rest (call c m))%nat
  end.

End Operations.

(** The call can put the task [i] back to pending. *)
Definition requeues (i : string) (op : Call) : bool :=
  match op with
  | Claim _ _ | ResetAllAttemptCounts => false
  | Transition j s _ _ =>
      String.eqb j i && bool_decide (s = PENDING)
  | ResetTask j => String.eqb j i
  | ResetAllFailed => true
  end.

(** The number of entries in a state. *)
Definition count (s : TaskState) (entries : gmap string TaskStateEntry) : nat :=
  size (filter (fun kv : string * TaskStateEntry => state (snd kv) = s) entries).

(** A state that is none of the six values of the enum. *)
Definition isOtherState (s : TaskState) : bool :=
  match s with
  | OtherState _ => true
  | _ => false
  end.

(** The number of entries whose state is none of the six values. *)
Definition countOther (entries : gmap string TaskStateEntry) : nat :=
  size (filter (fun kv : string * TaskStateEntry => isOtherState (state (snd kv)) = true)
          entries).

(** The task cannot be claimed: it has no entry, or its entry is not
    pending. *)
Definition blocked (i : string) (m : TaskStateManager) : Prop :=
  forall e, managed m !! buildTaskKey m i = Some e -> state e <> PENDING.

(** The entry [mergeTask] files for a task that has none. *)
Definition isNew (m : TaskStateManager) (k : string) (e : TaskStateEntry) : Prop :=
  state e = PENDING /\ attemptCount e = 0 /\ errorHistory e = [] /\
  lastAttemptTime e = None /\ executionContext e = None /\
  buildTaskKey m (id e) = k.

End TaskStateOps.
(** ** The steps of a lock acquisition *)

Module LockSteps.
Import Locks.

Section Steps.

Variable normalizePathForLocking : string -> string -> string.
Variable sha256hex : string -> string.
Variable lockOwner : string.
Variable clock : nat -> Z.

(** The world in which an attempt of [acquireFileLock] looks for the lock:
    after the reading of the time and the cleanup that may be due. *)
Definition afterCleanup (workDir : string) (w : World) : World :=
  let now := clock (tick w) in
  let w1 := snd (dateNow clock w) in
  if now - lastLockCleanup w1 >? LOCK_CLEANUP_INTERVAL_MS
  then setLastCleanup now
         (cleanupStaleLockFiles clock workDir (cleanupStaleLocks lockOwner clock w1))
  else w1.

(** An entry this process wrote at a reading of the time not before the
    reading number [since]. *)
Definition takenSince (since : nat) (info : LockInfo) : Prop :=
  owner info = lockOwner /\ timeout info = LOCK_TIMEOUT_MS /\
  exists n, (since <= n)%nat /\ timestamp info = clock n.

(** This process holds the lock of the normalized path, in the registry
    and on disk, since the reading number [since]. *)
Definition holds (since : nat) (normalizedPath workDir : string) (w : World) : Prop :=
  exists info,
    takenSince since info /\
    locks w !! normalizedPath = Some info /\
    disk w !! getLockFilePath sha256hex normalizedPath workDir = Some (Written info).

(** From the reading number [since] on, the readings of the time stay
    within one lock timeout of each other. *)
Definition shortCall (since : nat) : Prop :=
  forall n n', (since <= n)%nat -> (since <= n')%nat ->
    clock n' - clock n < LOCK_TIMEOUT_MS.

End Steps.

End LockSteps.
(** ** The queries of the hash store *)

Module HashStoreViews.
Import HashStore.

(** The property names every plain object inherits: [key in object] is
    true for them whatever the object holds. *)
Definition objectPrototypeKeys : list string :=
  ["constructor"; "__defineGetter__"; "__defineSetter__"; "hasOwnProperty";
   "__lookupGetter__"; "__lookupSetter__"; "isPrototypeOf"; "propertyIsEnumerable";
   "toString"; "valueOf"; "__proto__"; "toLocaleString"].

Section Queries.

Variable resolve : string -> string -> string.
Variable sha256hex : string -> string.
Variable decodeIndex : string -> option TaskHashIndex.

(** [hasFile(filePath)] at time [now]. *)
Definition hasFile (now : Z) (filePath : string) (s : FileHashStore)
    (fs : FileSystem) : bool * FileHashStore :=
  if negb ENABLE_HASH_STORE || cleanedUp s then (false, s)
  else
    let s1 := initialize resolve decodeIndex now fs s in
    (bool_decide (is_Some (files (index s1) !! filePath)) ||
     existsb (String.eqb filePath) objectPrototypeKeys, s1).

(** [getHash(filePath)]: an inherited property has no [hash]. *)
Definition getHash (now : Z) (filePath : string) (s : FileHashStore)
    (fs : FileSystem) : option string * FileHashStore :=
  if negb ENABLE_HASH_STORE || cleanedUp s then (None, s)
  else
    let s1 := initialize resolve decodeIndex now fs s in
    (refHash <$> files (index s1) !! filePath, s1).

(** [generateHash(filePath)]; [None] when the file cannot be read. *)
Definition generateHash (filePath : string) (s : FileHashStore) (fs : FileSystem)
    : option string :=
  (fun f => sha256hex (bytes f)) <$> fs !! resolve (projectRoot s) filePath.

(** [hasChanged(filePath)]; an empty stored hash is falsy. *)
Definition hasChanged (now : Z) (filePath : string) (s : FileHashStore)
    (fs : FileSystem) : bool * FileHashStore :=
  if negb ENABLE_HASH_STORE || cleanedUp s then (true, s)
  else
    let '(storedHash, s1) := getHash now filePath s fs in
    match storedHash with
    | None | Some EmptyString => (true, s1)
    | Some stored =>
        match generateHash filePath s1 fs with
        | Some currentHash => (negb (String.eqb currentHash stored), s1)
        | None => (true, s1)
        end
    end.

End Queries.

End HashStoreViews.
(** ** Markdown task source (second part of src/cli/src/tasks/converter.ts) *)

Module Markdown.
Import MemoryQueue.

(** [s.replace(/\r\n/g, "\n")]. *)
Fixpoint replaceCRLF (s : string) : string :=
  match s with
  | EmptyString => EmptyString
  | String c rest =>
      match rest with
      | String d rest' =>
          if ascii_eqb c creturn && ascii_eqb d newline
          then String newline (replaceCRLF rest')
          else String c (replaceCRLF rest)
      | EmptyString => String c EmptyString
      end
  end.

(** [s.replace(/\r/g, "\n")]. *)
Fixpoint replaceCR (s : string) : string :=
  match s with
  | EmptyString => EmptyString
  | String c rest =>
      String (if ascii_eqb c creturn then newline else c) (replaceCR rest)
  end.

Definition readFileNormalized (content : string) : string :=
  replaceCR (replaceCRLF content).

(** A text without carriage return. *)
Fixpoint noReturn (s : string) : bool :=
  match s with
  | EmptyString => true
  | String c rest => negb (ascii_eqb c creturn) && noReturn rest
  end.

Definition incompletePrefix : string := "- [ ] ".

Fixpoint dropPrefix (n : nat) (s : string) : string :=
  match n, s with
  | O, _ => s
  | S n', String _ rest => dropPrefix n' rest
  | S _, EmptyString => EmptyString
  end.

(** The group of [line.match(/^- \[ \] (.+)$/)]: the dot matches no line
    terminator; on ASCII text these are the line feed and the carriage
    return. *)
Definition incompleteMatch (line : string) : option string :=
  if startsWith incompletePrefix line
  then
    let rest := dropPrefix 6 line in
    match rest with
    | EmptyString => None
    | _ => if Streaming.noNewline rest && noReturn rest then Some rest else None
    end
  else None.

(** The loop of [getAllTasks] from the line of index [i] on. *)
Fixpoint tasksFrom (i : nat) (lines : list string) : list Task :=
  match lines with
  | [] => []
  | line :: rest =>
      match incompleteMatch line with
      | Some matched =>
          {| id := Csv.stringOfZ (Z.of_nat i + 1); title := trim matched;
             body := None; parallelGroup := None; completed := false |}
          :: tasksFrom (S i) rest
      | None => tasksFrom (S i) rest
      end
  end.

(** [getAllTasks], on the text of the file. *)
Definition getAllTasks (content : string) : list Task :=
  tasksFrom 0 (Streaming.splitNL (readFileNormalized content)).

Definition getNextTask (content : string) : option Task :=
  hd_error (getAllTasks content).

(** [line.replace(/^- \[ \] /, "- [x] ")]. *)
Definition checkLine (line : string) : string :=
  if startsWith incompletePrefix line
  then "- [x] " +:+ dropPrefix 6 line
  else line.

(** [markComplete(id)], as the text of the file after the call; [NaN]
    compares false with everything. *)
Definition markComplete (taskId : string) (content : string) : string :=
  let lines := Streaming.splitNL (readFileNormalized content) in
  match Csv.parseInt10 taskId with
  | Some n =>
      let lineNumber := n - 1 in
      if (0 <=? lineNumber) && (lineNumber <? Z.of_nat (length lines))
      then
        match lines !! Z.to_nat lineNumber with
        | Some line => join NL (<[Z.to_nat lineNumber := checkLine line]> lines)
        | None => content
        end
      else content
  | None => content
  end.

(** [countRemaining]: the matches of [/^- \[ \] /gm].  With the flag [m]
    the pattern matches at the start of every line; on ASCII text, and with
    the carriage returns gone, the lines are the pieces between line
    feeds. *)
Definition countRemaining (content : string) : nat :=
  length (List.filter (startsWith incompletePrefix)
            (Streaming.splitNL (readFileNormalized content))).

(** [countCompleted]: the matches of [/^- \[x\] /gim], on the lines of an
    ASCII text. *)
Definition countCompleted (content : string) : nat :=
  length (List.filter (fun line => startsWith "- [x] " line || startsWith "- [X] " line)
            (Streaming.splitNL (readFileNormalized content))).

(** A line that is the unchecked box and nothing else. *)
Definition bareBox (line : string) : bool := String.eqb line incompletePrefix.

End Markdown.
(** ** The CSV task source over a file (src/cli/src/tasks/csv.ts) *)

Module CsvFile.
Import Csv.

(** The row [writeFile] makes of a task. *)
Definition taskRow (task : CsvTask) : list string :=
  [id task; title task; if completed task then "1" else "0";
   stringOfZ (parallelGroup task); description task].

(** [tasks.find((t) => t.id === id || t.title === id)] and the assignment
    [task.completed = true], on the list read from the file. *)
Definition setCompleted (t : CsvTask) : CsvTask :=
  {| id := id t; title := title t; completed := true;
     parallelGroup := parallelGroup t; description := description t |}.

Fixpoint completeFirst (key : string) (tasks : list CsvTask) : option (list CsvTask) :=
  match tasks with
  | [] => None
  | t :: rest =>
      if String.eqb (id t) key || String.eqb (title t) key
      then Some (setCompleted t :: rest)
      else cons t <$> completeFirst key rest
  end.

(** [markComplete(id)], as the text of the file after the call. *)
Definition markComplete (key : string) (content : string) : string :=
  match completeFirst key (readFile content) with
  | Some tasks => writeFile tasks
  | None => content
  end.

Definition countRemaining (content : string) : nat :=
  length (List.filter (fun t => negb (completed t)) (readFile content)).

Definition countCompleted (content : string) : nat :=
  length (List.filter completed (readFile content)).

(** A text without line feed and without carriage return. *)
Definition oneLine (s : string) : bool :=
  Streaming.noNewline s && Markdown.noReturn s.

(** [Number.MAX_SAFE_INTEGER]: up to it [String] prints a number in plain
    digits. *)
Definition maxSafeInteger : Z := 9007199254740991.

(** A task whose cells the file format can hold: an id, a group that is a
    safe integer, no line break in the id, the title and the description,
    no white space at the end of the description, and ASCII text in the
    three of them. *)
Definition storable (task : CsvTask) : Prop :=
  id task <> EmptyString /\
  Z.abs (parallelGroup task) <= maxSafeInteger /\
  oneLine (id task) = true /\ oneLine (title task) = true /\
  oneLine (description task) = true /\
  trimEnd (description task) = description task /\
  asciiText (id task) = true /\ asciiText (title task) = true /\
  asciiText (description task) = true.

End CsvFile.

(** ** The CSV and Markdown formats of the state file
    (src/cli/src/execution/task-state.ts) *)

Module StateFormats.
Import TaskState.





(** *** CSV *)

Definition csvHeaders : list string :=
  ["key"; "id"; "title"; "state"; "attemptCount"; "lastAttemptTime"; "errorHistory"].

(** [task.lastAttemptTime ?? ""] as [join] prints it. *)
Definition timeCell (t : option JsNumber) : string :=
  match t with
  | None => EmptyString
  | Some NaN => "NaN"
  | Some (Num z) => Csv.stringOfZ z
  end.

Definition csvRow (kv : string * TaskStateEntry) : list string :=
  [fst kv; id (snd kv); title (snd kv); stateText (state (snd kv));
   Csv.stringOfZ (attemptCount (snd kv)); timeCell (lastAttemptTime (snd kv));
   join "|" (errorHistory (snd kv))].

(** [toCSV(data)]: no cell is quoted or escaped.  The rows come in the
    order of the map, which is not kept here. *)
Definition toCSV (data : StateFileFormat) : string :=
  join NL (join "," csvHeaders ::
           map (fun kv => join "," (csvRow kv)) (map_to_list (tasks data))).



(** *** Markdown *)

Section Dates.

(** [new Date(ms).toISOString()], for a time within the range of [Date],
    and [new Date(text).getTime()], which is [NaN] for a text that is no
    date. *)
Variable toISOString : Z -> string.
Variable getTime : string -> JsNumber.













(** *** The two switches over the format *)

(** [YAML.parse] and [JSON.parse] with the cast to the state file's type,
    and [YAML.stringify(data)] and [JSON.stringify(data, null, 2)]. *)
Variable yamlParse jsonParse : string -> option StateFileFormat.
Variable yamlStringify jsonStringify : StateFileFormat -> string.



End Dates.





End StateFormats.

(** ** The retry budget of one item among the others of the queue *)

Module QueueBudget.
Import MemoryQueue.

(** The call acts on the task [i] otherwise than by handing it out or by
    marking it failed. *)
Definition interferes (i : string) (op : Op) : bool :=
  match op with
  | Enqueue t _ _ => String.eqb (id t) i
  | Dequeue | MarkFailed _ => false
  | MarkComplete j | MarkSkipped j | ResetTask j | Remove j => String.eqb j i
  end.

(** Whether the call is a [dequeue] that hands out the task [i]. *)
Definition handsOut (i : string) (now : Z) (op : Op) (q : MemoryTaskQueue) : nat :=
  match op with
  | Dequeue =>
      match fst (dequeue now q) with
      | Some item => if String.eqb (id (task item)) i then 1 else 0
      | None => 0
      end
  | _ => 0
  end.

(** How many of the calls hand out the task [i]: its executions. *)
Fixpoint handedOut (i : string) (ops : list (Z * Op)) (q : MemoryTaskQueue) : nat :=
  match ops with
  | [] => O
  | (now, op) :: rest => (handsOut i now op q + handedOut i rest (apply now op q))%nat
  end.

(** Every partition files its items under their own ids. *)
Record Keyed (q : MemoryTaskQueue) : Prop := {
  keyed_pending : wellKeyed (pending q);
  keyed_running : wellKeyed (running q);
  keyed_completed : wellKeyed (completedItems q);
  keyed_failed : wellKeyed (failed q);
  keyed_skipped : wellKeyed (skipped q)
}.

(** Where the task [i] with the budget [m] is after [e] executions of
    which every one that ended was marked failed: waiting for the next
    execution, in its execution number [e], or failed for good. *)
Definition waiting (i : string) (m : Z) (e : nat) (q : MemoryTaskQueue) : Prop :=
  exists item,
    mget i (pending q) = Some item /\ mget i (running q) = None /\
    mget i (failed q) = None /\
    attempts item = 2 * Z.of_nat e /\ maxAttempts item = m /\
    (e = 0%nat \/ 2 * Z.of_nat e < m).

Definition executing (i : string) (m : Z) (e : nat) (q : MemoryTaskQueue) : Prop :=
  exists item,
    mget i (running q) = Some item /\ mget i (pending q) = None /\
    mget i (failed q) = None /\
    attempts item = 2 * Z.of_nat e - 1 /\ maxAttempts item = m /\
    (1 <= e)%nat /\ (e = 1%nat \/ 2 * Z.of_nat e - 2 < m).

Definition exhausted (i : string) (m : Z) (e : nat) (q : MemoryTaskQueue) : Prop :=
  exists item,
    mget i (failed q) = Some item /\ mget i (pending q) = None /\
    mget i (running q) = None /\
    attempts item = 2 * Z.of_nat e /\ maxAttempts item = m /\
    (1 <= e)%nat /\ m <= 2 * Z.of_nat e /\ (e = 1%nat \/ 2 * Z.of_nat e - 2 < m).

Definition tracked (i : string) (m : Z) (e : nat) (q : MemoryTaskQueue) : Prop :=
  waiting i m e q \/ executing i m e q \/ exhausted i m e q.

(** The three lookups that say where the task is. *)
Definition sameTask (i : string) (q q' : MemoryTaskQueue) : Prop :=
  mget i (pending q') = mget i (pending q) /\
  mget i (running q') = mget i (running q) /\
  mget i (failed q') = mget i (failed q).

End QueueBudget.
(** * Properties *)

(** ** CSV task source *)

Module CsvProps.
Import Csv.

Example parseCSV_quoted_cell :
  parseCSV ("a," +:+ DQ +:+ "b,c" +:+ DQ) = [["a"; "b,c"]].
Proof. reflexivity. Qed.

Example escapeCSV_plain : escapeCSV "Use OAuth" = "Use OAuth".
Proof. reflexivity. Qed.

Example escapeCSV_comma : escapeCSV "Fix, bug" = DQ +:+ "Fix, bug" +:+ DQ.
Proof. reflexivity. Qed.

Lemma s1_read : readFile s1_input = s1_tasks.
Proof. vm_compute. reflexivity. Qed.

Lemma s1_written : writeFile s1_tasks = s1_output.
Proof. vm_compute. reflexivity. Qed.

(** C9, as stated, fails: the two tasks parsed from the text of S1 are
    written back without the quotes around [Use OAuth], so the output is not
    the input, with or without a trailing newline. *)
Lemma s1_not_byte_identical :
  length (readFile s1_input) = 2%nat /\
  ~ eqModuloTrailingNewline (writeFile (readFile s1_input)) s1_input.
Proof.
  split; [reflexivity |].
  unfold eqModuloTrailingNewline. vm_compute. discriminate.
Qed.

(** C9 (amended): parsing the text of S1 yields exactly the two tasks of
    the scenario; writing them back yields the input with the unneeded quotes
    around [Use OAuth] removed (the cell [Fix, bug] stays quoted); and that
    output parses to the same two tasks again. *)
Theorem s1_round_trip_on_tasks :
  readFile s1_input = s1_tasks /\
  length (readFile s1_input) = 2%nat /\
  writeFile (readFile s1_input) = s1_output /\
  readFile (writeFile (readFile s1_input)) = readFile s1_input.
Proof.
  rewrite s1_read, s1_written.
  repeat split; vm_compute; reflexivity.
Qed.

End CsvProps.

(** ** Command runner *)

Module ValidationProps.
Import Validation.

Lemma existsb_false_Forall {A} (p : A -> bool) (l : list A) :
  existsb p l = false -> Forall (fun x => p x = false) l.
Proof.
  induction l as [|x l IH]; simpl; intros H; constructor.
  - now apply orb_false_iff in H.
  - apply IH. now apply orb_false_iff in H.
Qed.

Lemma validateCommand_Some isWindows cmd v :
  validateCommand isWindows cmd = Some v ->
  v = cmd /\ denyListed cmd = false /\ validCommandPattern isWindows cmd = true.
Proof.
  unfold validateCommand.
  destruct (existsb _ commandDangerousPatterns) eqn:Hd; [discriminate |].
  destruct (validCommandPattern isWindows cmd) eqn:Hv; simpl; [| discriminate].
  intros [= <-]. split; [reflexivity |]. split; [| reflexivity].
  unfold commandDangerousPatterns in Hd. simpl in Hd.
  repeat (apply orb_false_iff in Hd; destruct Hd as [? Hd]).
  unfold denyListed, hasCharIn in *. simpl in *.
  repeat match goal with
         | H : (_ || _)%bool = false |- _ =>
             apply orb_false_iff in H; destruct H
         end.
  repeat match goal with H : _ = false |- _ => rewrite H; clear H end.
  reflexivity.
Qed.

Lemma validateArgs_Some arguments v :
  validateArgs arguments = Some v ->
  v = arguments /\
  Forall (fun a => hasCharIn [";"; "&"; "|"; backtick]%char a = false /\
                   includes "${" a = false /\ includes "$(" a = false) arguments.
Proof.
  unfold validateArgs.
  destruct (existsb _ arguments) eqn:Hd; [discriminate |].
  intros [= <-]. split; [reflexivity |].
  apply existsb_false_Forall in Hd.
  eapply Forall_impl; [exact Hd |].
  intros a Ha. simpl in Ha.
  repeat (apply orb_false_iff in Ha; destruct Ha as [? Ha]).
  auto.
Qed.

(** C4, as stated, fails.  Under Bun the runner validates nothing and, on
    Windows, hands the command to [cmd.exe /c]: an argument with [;] is
    spawned.  Under Node the argument check lets a lone [$] and a
    redirection character through. *)
Lemma runner_spawns_unchecked :
  execCommand true true "git" ["a;b"] = BunSpawn ["cmd.exe"; "/c"; "git"; "a;b"] /\
  execCommandStreaming true true "git" ["a;b"]
    = BunSpawn ["cmd.exe"; "/c"; "git"; "a;b"] /\
  valid (validateCommandAndArgs true "git" ["a;b"]) = false /\
  denyListed "a;b" = true /\
  execCommand false false "echo" ["$HOME"; ">"] = NodeSpawn "echo" ["$HOME"; ">"] false /\
  denyListed "$HOME" = true /\ denyListed ">" = true.
Proof. repeat split; vm_compute; reflexivity. Qed.

(** C4 (amended): on the Node runtime, [execCommand] and
    [execCommandStreaming] spawn only after [validateCommandAndArgs] accepted
    the call: the command holds none of [; & | ` $ < >], no substitution
    sequence, and only characters of the platform's allowed class; every
    argument holds none of [; & | `] and neither [${] nor [$(]; the process
    is the command and arguments as given, with the shell option off.  A
    failed check returns an error without spawning. *)
Theorem node_runner_validates_before_spawn (isWindows : bool) (cmd : string)
    (arguments : list string) :
  execCommandStreaming false isWindows cmd arguments
    = execCommand false isWindows cmd arguments /\
  match execCommand false isWindows cmd arguments with
  | NodeSpawn c a sh =>
      c = cmd /\ a = arguments /\ sh = false /\
      valid (validateCommandAndArgs isWindows cmd arguments) = true /\
      denyListed cmd = false /\ validCommandPattern isWindows cmd = true /\
      Forall (fun x => hasCharIn [";"; "&"; "|"; backtick]%char x = false /\
                       includes "${" x = false /\ includes "$(" x = false) arguments
  | NoSpawn _ => valid (validateCommandAndArgs isWindows cmd arguments) = false
  | BunSpawn _ => False
  end.
Proof.
  split; [reflexivity |].
  unfold execCommand, validateCommandAndArgs.
  destruct (validateCommand isWindows cmd) as [v|] eqn:Hc; [| reflexivity].
  apply validateCommand_Some in Hc. destruct Hc as (-> & Hdeny & Hpat).
  destruct cmd as [|c0 cmd']; [reflexivity |].
  destruct (validateArgs arguments) as [va|] eqn:Ha; [| reflexivity].
  apply validateArgs_Some in Ha. destruct Ha as (-> & Hall).
  simpl. repeat split; assumption.
Qed.

End ValidationProps.

(** ** Circuit breaker *)

Module CircuitProps.
Import Circuit.

(** C5, as stated, fails at two places.  Exactly 30 s after the last
    failure the call is still refused (the comparison is strict); and once
    the cooldown is over, the call that opens HALF_OPEN is admitted without
    being counted, so three calls in a row are admitted, not two. *)
Lemma open_circuit_boundary_and_trials :
  let st := {| circuitState := OPEN; consecutiveFailures := 3;
               lastFailureTime := Some 1000; halfOpenAttempts := 0 |} in
  (allowed (fst (canAttempt 31000 st)) = false /\
   circuitState (snd (canAttempt 31000 st)) = OPEN) /\
  (let r1 := canAttempt 31001 st in
   let r2 := canAttempt 31002 (snd r1) in
   let r3 := canAttempt 31003 (snd r2) in
   let r4 := canAttempt 31004 (snd r3) in
   allowed (fst r1) = true /\ allowed (fst r2) = true /\
   allowed (fst r3) = true /\ allowed (fst r4) = false).
Proof. vm_compute. repeat split; reflexivity. Qed.

Lemma three_failures_open (st : ConnectionStateManager) (t1 t2 t3 : Z) :
  circuitState st = CLOSED -> consecutiveFailures st = 0 ->
  circuitState (recordFailure true t1 st) = CLOSED /\
  circuitState (recordFailure true t2 (recordFailure true t1 st)) = CLOSED /\
  circuitState (recordFailure true t3 (recordFailure true t2 (recordFailure true t1 st)))
    = OPEN /\
  lastFailureTime (recordFailure true t3 (recordFailure true t2 (recordFailure true t1 st)))
    = Some t3.
Proof.
  destruct st as [cs cf lf ha]; simpl. intros -> ->.
  vm_compute. repeat split; reflexivity.
Qed.

Lemma open_blocks_then_half_open (st : ConnectionStateManager) (t now : Z) :
  circuitState st = OPEN -> lastFailureTime st = Some t -> t <> 0 ->
  (now - t <= resetTimeoutMs ->
     allowed (fst (canAttempt now st)) = false /\ snd (canAttempt now st) = st) /\
  (resetTimeoutMs < now - t ->
     allowed (fst (canAttempt now st)) = true /\
     circuitState (snd (canAttempt now st)) = HALF_OPEN /\
     halfOpenAttempts (snd (canAttempt now st)) = 0).
Proof.
  destruct st as [cs cf lf ha]; simpl. intros -> -> Ht.
  unfold canAttempt; simpl.
  assert (Hz : (t =? 0) = false) by now apply Z.eqb_neq.
  rewrite Hz; simpl.
  split; intros H.
  - assert (Hg : (now - t >? resetTimeoutMs) = false).
    { rewrite Z.gtb_ltb. apply Z.ltb_ge. exact H. }
    rewrite Hg. split; reflexivity.
  - assert (Hg : (now - t >? resetTimeoutMs) = true).
    { rewrite Z.gtb_ltb. apply Z.ltb_lt. exact H. }
    rewrite Hg. repeat split; reflexivity.
Qed.

Lemma half_open_trials (st : ConnectionStateManager) (now : Z) :
  circuitState st = HALF_OPEN ->
  (halfOpenAttempts st < halfOpenMaxAttempts ->
     allowed (fst (canAttempt now st)) = true /\
     circuitState (snd (canAttempt now st)) = HALF_OPEN /\
     halfOpenAttempts (snd (canAttempt now st)) = halfOpenAttempts st + 1) /\
  (halfOpenMaxAttempts <= halfOpenAttempts st ->
     allowed (fst (canAttempt now st)) = false /\
     circuitState (snd (canAttempt now st)) = OPEN /\
     lastFailureTime (snd (canAttempt now st)) = Some now).
Proof.
  destruct st as [cs cf lf ha]; simpl. intros ->.
  unfold canAttempt; simpl.
  split; intros H.
  - assert (Hg : (ha >=? halfOpenMaxAttempts) = false).
    { rewrite Z.geb_leb. apply Z.leb_gt. exact H. }
    rewrite Hg. repeat split; reflexivity.
  - assert (Hg : (ha >=? halfOpenMaxAttempts) = true).
    { rewrite Z.geb_leb. apply Z.leb_le. exact H. }
    rewrite Hg. repeat split; reflexivity.
Qed.

Lemma half_open_outcomes (st : ConnectionStateManager) (now : Z) :
  circuitState st = HALF_OPEN ->
  (circuitState (recordSuccess st) = CLOSED /\
   consecutiveFailures (recordSuccess st) = 0) /\
  (circuitState (recordFailure true now st) = OPEN /\
   lastFailureTime (recordFailure true now st) = Some now).
Proof.
  destruct st as [cs cf lf ha]; simpl. intros ->. repeat split; reflexivity.
Qed.

(** C5 (amended): three consecutive failures classified as connection
    errors move a CLOSED circuit with no failures on record to OPEN, with
    [lastFailureTime] the time of the third.  While OPEN, [canAttempt] refuses
    until MORE than 30 s have passed since [lastFailureTime]; the first call
    after that is admitted and moves the circuit to HALF_OPEN with no trial
    counted.  In HALF_OPEN at most 2 further calls are admitted; the call that
    finds both used is refused and returns the circuit to OPEN with
    [lastFailureTime] set to its time.  A success in HALF_OPEN closes the
    circuit with [consecutiveFailures = 0]; a failure classified as a
    connection error in HALF_OPEN reopens it with [lastFailureTime] updated. *)
Theorem circuit_breaker_state_machine (st : ConnectionStateManager)
    (t now t1 t2 t3 : Z) :
  (circuitState st = CLOSED -> consecutiveFailures st = 0 ->
     circuitState (recordFailure true t2 (recordFailure true t1 st)) = CLOSED /\
     circuitState
       (recordFailure true t3 (recordFailure true t2 (recordFailure true t1 st))) = OPEN /\
     lastFailureTime
       (recordFailure true t3 (recordFailure true t2 (recordFailure true t1 st)))
       = Some t3) /\
  (circuitState st = OPEN -> lastFailureTime st = Some t -> t <> 0 ->
     (now - t <= 30000 ->
        allowed (fst (canAttempt now st)) = false /\ snd (canAttempt now st) = st) /\
     (30000 < now - t ->
        allowed (fst (canAttempt now st)) = true /\
        circuitState (snd (canAttempt now st)) = HALF_OPEN /\
        halfOpenAttempts (snd (canAttempt now st)) = 0)) /\
  (circuitState st = HALF_OPEN ->
     (halfOpenAttempts st < 2 ->
        allowed (fst (canAttempt now st)) = true /\
        circuitState (snd (canAttempt now st)) = HALF_OPEN /\
        halfOpenAttempts (snd (canAttempt now st)) = halfOpenAttempts st + 1) /\
     (2 <= halfOpenAttempts st ->
        allowed (fst (canAttempt now st)) = false /\
        circuitState (snd (canAttempt now st)) = OPEN /\
        lastFailureTime (snd (canAttempt now st)) = Some now) /\
     (circuitState (recordSuccess st) = CLOSED /\
      consecutiveFailures (recordSuccess st) = 0) /\
     (circuitState (recordFailure true now st) = OPEN /\
      lastFailureTime (recordFailure true now st) = Some now)).
Proof.
  split; [| split].
  - intros Hc Hf.
    destruct (three_failures_open st t1 t2 t3 Hc Hf) as (_ & H2 & H3 & H4).
    auto.
  - intros Ho Hl Ht. exact (open_blocks_then_half_open st t now Ho Hl Ht).
  - intros Hh.
    destruct (half_open_trials st now Hh) as [Ha Hb].
    destruct (half_open_outcomes st now Hh) as [Hs Hf].
    auto.
Qed.

(** The amended C5 at concrete states: a fresh CLOSED circuit, an OPEN one
    whose last failure was at 1000 ms, and a HALF_OPEN one with no trial used. *)
Lemma circuit_breaker_state_machine_witness :
  circuitState (recordFailure true 3 (recordFailure true 2 (recordFailure true 1 initial)))
    = OPEN /\
  allowed (fst (canAttempt 31001
     {| circuitState := OPEN; consecutiveFailures := 3;
        lastFailureTime := Some 1000; halfOpenAttempts := 0 |})) = true /\
  allowed (fst (canAttempt 31000
     {| circuitState := OPEN; consecutiveFailures := 3;
        lastFailureTime := Some 1000; halfOpenAttempts := 0 |})) = false /\
  circuitState (recordSuccess
     {| circuitState := HALF_OPEN; consecutiveFailures := 3;
        lastFailureTime := Some 1000; halfOpenAttempts := 0 |}) = CLOSED.
Proof.
  split; [| split; [| split]].
  - destruct (circuit_breaker_state_machine initial 0 0 1 2 3) as (Hc & _ & _).
    apply Hc; reflexivity.
  - destruct (circuit_breaker_state_machine
                {| circuitState := OPEN; consecutiveFailures := 3;
                   lastFailureTime := Some 1000; halfOpenAttempts := 0 |}
                1000 31001 0 0 0) as (_ & Ho & _).
    apply Ho; [reflexivity | reflexivity | discriminate | reflexivity].
  - destruct (circuit_breaker_state_machine
                {| circuitState := OPEN; consecutiveFailures := 3;
                   lastFailureTime := Some 1000; halfOpenAttempts := 0 |}
                1000 31000 0 0 0) as (_ & Ho & _).
    apply Ho; [reflexivity | reflexivity | discriminate | discriminate].
  - destruct (circuit_breaker_state_machine
                {| circuitState := HALF_OPEN; consecutiveFailures := 3;
                   lastFailureTime := Some 1000; halfOpenAttempts := 0 |}
                0 0 0 0 0) as (_ & _ & Hh).
    apply Hh; reflexivity.
Defined.

End CircuitProps.

(** ** In-memory task queue *)

Module MemoryQueueProps.
Import MemoryQueue.

Lemma mhas_mset (a b : string) (v : QueueItem) (m : ItemMap) :
  mhas a (mset b v m) = String.eqb b a || mhas a m.
Proof.
  induction m as [|[c v'] m IH]; simpl.
  - reflexivity.
  - destruct (String.eqb_spec c b) as [-> | Hne]; simpl.
    + unfold mhas. simpl. destruct (String.eqb b a); reflexivity.
    + unfold mhas in *. simpl. rewrite IH.
      destruct (String.eqb c a), (String.eqb b a); reflexivity.
Qed.

Lemma mhas_mdelete (a b : string) (m : ItemMap) :
  mhas a (mdelete b m) = negb (String.eqb b a) && mhas a m.
Proof.
  unfold mhas, mdelete.
  induction m as [|[c v'] m IH]; simpl.
  - now rewrite andb_false_r.
  - destruct (String.eqb_spec c b) as [-> | Hne]; simpl.
    + rewrite IH. destruct (String.eqb b a); reflexivity.
    + rewrite IH.
      destruct (String.eqb_spec c a) as [-> | Hca]; simpl; [| reflexivity].
      destruct (String.eqb_spec b a) as [-> | Hba]; [congruence | reflexivity].
Qed.

Lemma mget_Some_mhas (k : string) (m : ItemMap) (v : QueueItem) :
  mget k m = Some v -> mhas k m = true.
Proof.
  unfold mhas. induction m as [|[c v'] m IH]; simpl; [discriminate |].
  destruct (String.eqb c k); simpl; [reflexivity | exact IH].
Qed.

Lemma mget_None_mhas (k : string) (m : ItemMap) :
  mget k m = None -> mhas k m = false.
Proof.
  unfold mhas. induction m as [|[c v'] m IH]; simpl; [reflexivity |].
  destruct (String.eqb c k); simpl; [discriminate | exact IH].
Qed.

Lemma wellKeyed_mset (k : string) (v : QueueItem) (m : ItemMap) :
  id (task v) = k -> wellKeyed m -> wellKeyed (mset k v m).
Proof.
  intros Hk. unfold wellKeyed.
  induction m as [|[c v'] m IH]; simpl; intros Hm.
  - constructor; [exact Hk | constructor].
  - apply Forall_cons in Hm. destruct Hm as [Hhd Htl].
    destruct (String.eqb c k); constructor; auto.
Qed.

Lemma wellKeyed_mdelete (k : string) (m : ItemMap) :
  wellKeyed m -> wellKeyed (mdelete k m).
Proof.
  unfold wellKeyed, mdelete.
  induction m as [|[c v'] m IH]; simpl; intros Hm; [constructor |].
  inversion Hm; subst.
  destruct (negb (String.eqb c k)); [constructor |]; auto.
Qed.

Lemma wellKeyed_mget (k : string) (m : ItemMap) (v : QueueItem) :
  wellKeyed m -> mget k m = Some v -> id (task v) = k.
Proof.
  unfold wellKeyed.
  induction m as [|[c v'] m IH]; simpl; intros Hm; [discriminate |].
  inversion Hm; subst. simpl in *.
  destruct (String.eqb_spec c k) as [-> | Hne].
  - intros [= <-]. assumption.
  - auto.
Qed.

Lemma wellKeyed_In (m : ItemMap) (v : QueueItem) :
  wellKeyed m -> In v (mvalues m) -> mhas (id (task v)) m = true.
Proof.
  unfold wellKeyed, mvalues, mhas.
  induction m as [|[c v'] m IH]; simpl; intros Hm; [tauto |].
  inversion Hm; subst. simpl in *.
  intros [-> | Hin].
  - subst c. now rewrite String.eqb_refl.
  - rewrite (IH H2 Hin). now rewrite orb_true_r.
Qed.

Lemma select_In (l : list QueueItem) (acc : option QueueItem * option Z)
    (it : QueueItem) (v : option Z) :
  fold_left selectStep l acc = (Some it, v) -> In it l \/ fst acc = Some it.
Proof.
  revert acc. induction l as [|x l IH]; simpl; intros acc H.
  - right. now rewrite H.
  - destruct (IH _ H) as [Hin | Hacc]; [left; now right |].
    destruct acc as [best bv]. unfold selectStep in Hacc.
    destruct bv as [b|]; simpl in Hacc.
    + destruct (priorityOrder (priority x) <? b).
      * left; left. simpl in Hacc. congruence.
      * destruct (priorityOrder (priority x) =? b); [| right; exact Hacc].
        destruct best as [bst|].
        -- destruct (enqueuedAt x <? enqueuedAt bst); simpl in Hacc;
             [left; left; congruence | right; exact Hacc].
        -- left; left. simpl in Hacc. congruence.
    + left; left. simpl in Hacc. congruence.
Qed.

Lemma Inv_empty : Inv emptyQueue.
Proof.
  split; [intros i; unfold partitionCount; simpl; lia
         | unfold wellKeyed; simpl; constructor ..].
Qed.

(** Closes a goal on [partitionCount] once both queues are unfolded: case
    analysis on the key comparison and on the five membership bits. *)
Ltac count_cases i q Hi :=
  unfold partitionCount in *; simpl in *;
  repeat rewrite ?mhas_mset, ?mhas_mdelete;
  repeat match goal with
         | |- context [String.eqb ?a i] =>
             destruct (String.eqb_spec a i); subst; simpl
         end;
  repeat match goal with
         | H : ?x = true |- context [?x] => rewrite H
         | H : ?x = false |- context [?x] => rewrite H
         | H : ?x = true, H' : context [?x] |- _ => rewrite H in H'
         | H : ?x = false, H' : context [?x] |- _ => rewrite H in H'
         end;
  simpl in *; try lia;
  destruct (mhas i (pending q)), (mhas i (running q)),
    (mhas i (completedItems q)), (mhas i (failed q)), (mhas i (skipped q));
  simpl in *; try lia; try discriminate.

Lemma Inv_enqueue now t p m q q' :
  Inv q -> finishedHas (id t) q = false -> enqueue now t p m q = Some q' -> Inv q'.
Proof.
  intros [Hu Hp Hr Hc Hf Hs] Hfin. unfold enqueue.
  destruct (mhas (id t) (pending q) || mhas (id t) (running q)) eqn:Hg;
    [discriminate |].
  intros [= <-].
  apply orb_false_iff in Hg. destruct Hg as [Hg1 Hg2].
  unfold finishedHas in Hfin.
  apply orb_false_iff in Hfin. destruct Hfin as [Hfin Hf3].
  apply orb_false_iff in Hfin. destruct Hfin as [Hf1 Hf2].
  split; simpl; try assumption.
  - intros i. specialize (Hu i). count_cases i q Hu.
  - apply wellKeyed_mset; [reflexivity | assumption].
Qed.

Lemma Inv_dequeue now q : Inv q -> Inv (snd (dequeue now q)).
Proof.
  intros [Hu Hp Hr Hc Hf Hs]. unfold dequeue.
  destruct (fold_left selectStep (mvalues (pending q)) (None, None))
    as [[it|] v] eqn:Hsel; simpl; [| split; assumption].
  apply select_In in Hsel. destruct Hsel as [Hin | Hno]; [| discriminate].
  pose proof (wellKeyed_In _ _ Hp Hin) as Hhas.
  split; simpl; try assumption.
  - intros i. specialize (Hu i). count_cases i q Hu.
  - now apply wellKeyed_mdelete.
  - apply wellKeyed_mset; [reflexivity | assumption].
Qed.

Lemma Inv_markComplete now k q : Inv q -> Inv (markComplete now k q).
Proof.
  intros [Hu Hp Hr Hc Hf Hs]. unfold markComplete.
  destruct (mget k (running q)) as [it|] eqn:Hget; [| split; assumption].
  pose proof (mget_Some_mhas _ _ _ Hget) as Hhas.
  pose proof (wellKeyed_mget _ _ _ Hr Hget) as Hid.
  split; simpl; try assumption.
  - intros i. specialize (Hu i). count_cases i q Hu.
  - now apply wellKeyed_mdelete.
  - apply wellKeyed_mset; assumption.
Qed.

Lemma Inv_markFailed now k q : Inv q -> Inv (markFailed now k q).
Proof.
  intros [Hu Hp Hr Hc Hf Hs]. unfold markFailed.
  destruct (mget k (running q)) as [it|] eqn:Hget; [| split; assumption].
  pose proof (mget_Some_mhas _ _ _ Hget) as Hhas.
  pose proof (wellKeyed_mget _ _ _ Hr Hget) as Hid.
  destruct (attempts it + 1 <? maxAttempts it); split; simpl; try assumption;
    try (intros i; specialize (Hu i); count_cases i q Hu);
    try (now apply wellKeyed_mdelete);
    try (apply wellKeyed_mset; assumption).
Qed.

Lemma Inv_markSkipped now k q : Inv q -> Inv (markSkipped now k q).
Proof.
  intros [Hu Hp Hr Hc Hf Hs]. unfold markSkipped, orItem.
  destruct (mget k (pending q)) as [it|] eqn:Hgp.
  - pose proof (mget_Some_mhas _ _ _ Hgp) as Hhas.
    pose proof (wellKeyed_mget _ _ _ Hp Hgp) as Hid.
    split; simpl; try assumption;
      try (intros i; specialize (Hu i); count_cases i q Hu);
      try (now apply wellKeyed_mdelete);
      try (apply wellKeyed_mset; assumption).
  - destruct (mget k (running q)) as [it|] eqn:Hgr; [| split; assumption].
    pose proof (mget_Some_mhas _ _ _ Hgr) as Hhas.
    pose proof (wellKeyed_mget _ _ _ Hr Hgr) as Hid.
    split; simpl; try assumption;
      try (intros i; specialize (Hu i); count_cases i q Hu);
      try (now apply wellKeyed_mdelete);
      try (apply wellKeyed_mset; assumption).
Qed.

Lemma Inv_resetTask k q : Inv q -> Inv (resetTask k q).
Proof.
  intros [Hu Hp Hr Hc Hf Hs]. unfold resetTask, orItem.
  destruct (mget k (failed q)) as [it|] eqn:Hgf.
  - pose proof (mget_Some_mhas _ _ _ Hgf) as Hhas.
    pose proof (wellKeyed_mget _ _ _ Hf Hgf) as Hid.
    split; simpl; try assumption;
      try (intros i; specialize (Hu i); count_cases i q Hu);
      try (now apply wellKeyed_mdelete);
      try (apply wellKeyed_mset; assumption).
  - destruct (mget k (skipped q)) as [it|] eqn:Hgs; [| split; assumption].
    pose proof (mget_Some_mhas _ _ _ Hgs) as Hhas.
    pose proof (wellKeyed_mget _ _ _ Hs Hgs) as Hid.
    split; simpl; try assumption;
      try (intros i; specialize (Hu i); count_cases i q Hu);
      try (now apply wellKeyed_mdelete);
      try (apply wellKeyed_mset; assumption).
Qed.

Lemma Inv_remove k q : Inv q -> Inv (remove k q).
Proof.
  intros [Hu Hp Hr Hc Hf Hs]. unfold remove.
  split; simpl; try (now apply wellKeyed_mdelete).
  intros i. specialize (Hu i). count_cases i q Hu.
Qed.

Lemma Inv_run ops : forall q, Inv q -> noFinishedReenqueue ops q -> Inv (run ops q).
Proof.
  induction ops as [|[now op] ops IH]; simpl; intros q Hq Hadm; [exact Hq |].
  destruct Hadm as [Hop Hrest].
  apply IH; [| exact Hrest].
  destruct op; simpl.
  - destruct (enqueue now t p maxAtt q) as [q'|] eqn:He; simpl; [| exact Hq].
    eapply Inv_enqueue; eauto.
  - now apply Inv_dequeue.
  - now apply Inv_markComplete.
  - now apply Inv_markFailed.
  - now apply Inv_markSkipped.
  - now apply Inv_resetTask.
  - now apply Inv_remove.
Qed.

(** Scenario S4 on the model: priority first, then first in, first out. *)
Example dequeue_priority_then_fifo :
  let q0 := run [(100, Enqueue (mkTask "T1") normal 3);
                 (101, Enqueue (mkTask "T2") high 3);
                 (102, Enqueue (mkTask "T3") high 3);
                 (103, Enqueue (mkTask "T4") critical 3)] emptyQueue in
  let d1 := dequeue 200 q0 in
  let d2 := dequeue 201 (snd d1) in
  let d3 := dequeue 202 (snd d2) in
  let d4 := dequeue 203 (snd d3) in
  map (fun d => (fun it => id (task it)) <$> fst d) [d1; d2; d3; d4]
  = [Some "T4"; Some "T2"; Some "T3"; Some "T1"].
Proof. vm_compute. reflexivity. Qed.

(** C3, as stated, fails: [enqueue] looks for the id in pending and running
    only, so a task that completed can be enqueued again and its id is then in
    two partitions. *)
Lemma reenqueue_completed_duplicates :
  let t := mkTask "T1" in
  let q := run [(1, Enqueue t normal 3); (2, Dequeue); (3, MarkComplete "T1");
                (4, Enqueue t normal 3)] emptyQueue in
  mhas "T1" (pending q) = true /\ mhas "T1" (completedItems q) = true /\
  partitionCount "T1" q = 2%nat.
Proof. vm_compute. repeat split; reflexivity. Qed.

Lemma noFinishedReenqueue_take (n : nat) (ops : list (Z * Op)) :
  forall q, noFinishedReenqueue ops q -> noFinishedReenqueue (take n ops) q.
Proof.
  revert n. induction ops as [|[now op] ops IH]; intros [|n] q H; simpl; auto.
  destruct H as [Hop Hrest]. split; [exact Hop | now apply IH].
Qed.

(** C3 (amended): for every sequence of enqueue, dequeue, markComplete,
    markFailed, markSkipped, resetTask and remove on an empty queue in which no
    enqueue targets an id that is at that moment in completed, failed or
    skipped, every id is in at most one of the five partitions after every
    prefix of the sequence, that is at any moment; and an enqueue of an id that
    is in pending or running throws. *)
Theorem partition_unique (ops : list (Z * Op)) :
  noFinishedReenqueue ops emptyQueue ->
  (forall n i, (partitionCount i (run (take n ops) emptyQueue) <= 1)%nat) /\
  (forall i, (partitionCount i (run ops emptyQueue) <= 1)%nat) /\
  (forall now t p m,
     mhas (id t) (pending (run ops emptyQueue)) ||
     mhas (id t) (running (run ops emptyQueue)) = true ->
     enqueue now t p m (run ops emptyQueue) = None).
Proof.
  intros Hadm. split; [| split].
  - intros n.
    apply (inv_unique _ (Inv_run (take n ops) emptyQueue Inv_empty
                           (noFinishedReenqueue_take n ops _ Hadm))).
  - apply (inv_unique _ (Inv_run ops emptyQueue Inv_empty Hadm)).
  - intros now t p m Hhas. unfold enqueue. now rewrite Hhas.
Qed.

(** The amended C3 on a run that retries a task to exhaustion, resets it,
    and enqueues a second task. *)
Lemma partition_unique_witness :
  let q := run [(1, Enqueue (mkTask "T1") normal 3); (2, Dequeue); (3, MarkFailed "T1");
                (4, Dequeue); (5, MarkFailed "T1"); (6, ResetTask "T1");
                (7, Enqueue (mkTask "T2") high 1); (8, MarkSkipped "T2")]
               emptyQueue in
  (partitionCount "T1" q <= 1)%nat.
Proof.
  destruct (partition_unique
              [(1, Enqueue (mkTask "T1") normal 3); (2, Dequeue); (3, MarkFailed "T1");
               (4, Dequeue); (5, MarkFailed "T1"); (6, ResetTask "T1");
               (7, Enqueue (mkTask "T2") high 1); (8, MarkSkipped "T2")])
    as (_ & Hfinal & _).
  - vm_compute. repeat split; reflexivity.
  - apply Hfinal.
Defined.

(** *** Retry budget *)

Lemma mget_mset (k : string) (v : QueueItem) (m : ItemMap) :
  mget k (mset k v m) = Some v.
Proof.
  induction m as [|[c v'] m IH]; simpl.
  - now rewrite String.eqb_refl.
  - destruct (String.eqb_spec c k) as [-> | Hne]; simpl.
    + now rewrite String.eqb_refl.
    + destruct (String.eqb_spec c k); [congruence | exact IH].
Qed.

Lemma mhas_mdelete_same (k : string) (m : ItemMap) : mhas k (mdelete k m) = false.
Proof. rewrite mhas_mdelete. now rewrite String.eqb_refl. Qed.

Lemma markFailed_running now k q it :
  mget k (running q) = Some it ->
  mhas k (running (markFailed now k q)) = false /\
  (attempts it + 1 < maxAttempts it ->
     exists it', mget k (pending (markFailed now k q)) = Some it' /\
                 attempts it' = attempts it + 1 /\ startedAt it' = None) /\
  (maxAttempts it <= attempts it + 1 ->
     exists it', mget k (failed (markFailed now k q)) = Some it' /\
                 attempts it' = attempts it + 1 /\ completedAt it' = Some now).
Proof.
  intros Hget. unfold markFailed. rewrite Hget.
  destruct (attempts it + 1 <? maxAttempts it) eqn:Hlt; simpl.
  - apply Z.ltb_lt in Hlt.
    split; [apply mhas_mdelete_same |]. split; [| lia].
    intros _. eexists. split; [apply mget_mset |]. split; reflexivity.
  - apply Z.ltb_ge in Hlt.
    split; [apply mhas_mdelete_same |]. split; [lia |].
    intros _. eexists. split; [apply mget_mset |]. split; reflexivity.
Qed.

(** C6, as stated, fails: [dequeue] increments [attempts] too, so an item
    enqueued with [maxAttempts = 3] that fails every execution is in failed
    after two executions, and a third dequeue finds nothing. *)
Lemma budget_of_three_allows_two_executions :
  let q0 := default emptyQueue (enqueue 0 (mkTask "T1") normal 3 emptyQueue) in
  let q2 := failingExecutions "T1" [(1, 2); (3, 4)] q0 in
  mhas "T1" (failed q2) = true /\ mhas "T1" (pending q2) = false /\
  (attempts <$> mget "T1" (failed q2)) = Some 4 /\
  fst (dequeue 5 q2) = None.
Proof. vm_compute. repeat split; reflexivity. Qed.

End MemoryQueueProps.

(** ** Task state manager *)

Module TaskStateProps.
Import TaskState.

Section Recovery.

Variable parse : StateFormat -> string -> option StateFileFormat.
Variable print : StateFormat -> StateFileFormat -> string.
Variable stringify : StateFileFormat -> string.
Variable timestamp : string.


(** Merging the source's tasks keeps the state and the attempt count of
    every entry that is already there. *)
Lemma merge_keeps (m : TaskStateManager) (src : list Task) :
  forall (acc : gmap string TaskStateEntry) k e,
    acc !! k = Some e ->
    exists e', fold_left (mergeTask m) src acc !! k = Some e' /\
               state e' = state e /\ attemptCount e' = attemptCount e.
Proof.
  induction src as [|t src IH]; simpl; intros acc k e Hk.
  - exists e. auto.
  - destruct (decide (buildTaskKey m (taskId t) = k)) as [Heq | Hne].
    + unfold mergeTask at 2. rewrite Heq, Hk.
      edestruct (IH (<[k := {| id := id e; title := taskTitle t; state := state e;
                               attemptCount := attemptCount e;
                               lastAttemptTime := lastAttemptTime e;
                               errorHistory := errorHistory e;
                               executionContext := executionContext e |}]> acc) k)
        as (e' & Hl & Hs & Ha); [apply lookup_insert_eq |].
      exists e'. simpl in *. auto.
    + apply IH. unfold mergeTask.
      destruct (acc !! buildTaskKey m (taskId t)); now rewrite lookup_insert_ne.
Qed.


(** A key of the source is present after the merge. *)
Lemma merge_adds (m : TaskStateManager) (src : list Task) :
  forall (acc : gmap string TaskStateEntry) k,
    k ∈ validKeys m src -> is_Some (fold_left (mergeTask m) src acc !! k).
Proof.
  induction src as [|t src IH]; simpl; intros acc k Hk.
  - now apply not_elem_of_nil in Hk.
  - apply elem_of_cons in Hk. destruct Hk as [-> | Hk]; [| now apply IH].
    assert (Hin : is_Some (mergeTask m acc t !! buildTaskKey m (taskId t))).
    { unfold mergeTask. destruct (acc !! buildTaskKey m (taskId t));
        rewrite lookup_insert_eq; eauto. }
    destruct Hin as [e He].
    destruct (merge_keeps m src _ _ _ He) as (e' & He' & _). eauto.
Qed.

Lemma initialize_managed (src : list Task) (m : TaskStateManager) :
  managed (initialize parse print stringify timestamp src m)
  = filter (fun kv => bool_decide (fst kv ∈ validKeys m src))
      (fold_left (mergeTask m) src
         (resetInterrupted <$>
            match stateFile m with
            | Some content => loadState parse stringify (format m) content
            | None => managed m
            end)).
Proof. reflexivity. Qed.


End Recovery.




End TaskStateProps.

(** ** File lock manager *)

Module LocksProps.
Import Locks.

Section Manager.

Variable normalizePathForLocking : string -> string -> string.
Variable sha256hex : string -> string.
Variable lockOwner : string.
Variable clock : nat -> Z.

Lemma within_refl ks fs w : within ks fs w w.
Proof. split; auto. Qed.

Lemma within_trans ks1 fs1 ks2 fs2 w1 w2 w3 :
  within ks1 fs1 w1 w2 -> within ks2 fs2 w2 w3 ->
  within (ks1 ++ ks2) (fs1 ++ fs2) w1 w3.
Proof.
  intros [Hl1 Hd1] [Hl2 Hd2]. split.
  - intros k v H. destruct (Hl2 _ _ H) as [H' | Hin].
    + destruct (Hl1 _ _ H') as [H'' | Hin]; [now left | right].
      apply elem_of_app. now left.
    + right. apply elem_of_app. now right.
  - intros f c H. destruct (Hd2 _ _ H) as [H' | Hin].
    + destruct (Hd1 _ _ H') as [H'' | Hin]; [now left | right].
      apply elem_of_app. now left.
    + right. apply elem_of_app. now right.
Qed.

Lemma within_weaken ks fs ks' fs' w w' :
  within ks fs w w' -> ks ⊆ ks' -> fs ⊆ fs' -> within ks' fs' w w'.
Proof.
  intros [Hl Hd] Hk Hf. split.
  - intros k v H. destruct (Hl _ _ H); [now left | right; now apply Hk].
  - intros f c H. destruct (Hd _ _ H); [now left | right; now apply Hf].
Qed.

Lemma cleanupStaleLocks_within w :
  within [] [] w (cleanupStaleLocks lockOwner clock w).
Proof.
  unfold cleanupStaleLocks, dateNow; simpl.
  match goal with |- context [if ?b then _ else _] => destruct b end;
    split; simpl; auto; intros k v H; left.
  - apply map_lookup_filter_Some in H. destruct H as [H _].
    apply map_lookup_filter_Some in H. now destruct H.
  - apply map_lookup_filter_Some in H. now destruct H.
Qed.

Lemma cleanupStaleLockFiles_within workDir w :
  within [] [] w (cleanupStaleLockFiles clock workDir w).
Proof.
  unfold cleanupStaleLockFiles, dateNow; simpl.
  split; simpl; auto. intros f c H. left.
  apply map_lookup_filter_Some in H. now destruct H.
Qed.

Lemma refreshLock_within np workDir w :
  within [np] [getLockFilePath sha256hex np workDir] w
    (refreshLock sha256hex clock np workDir w).
Proof.
  unfold refreshLock. destruct (locks w !! np) as [info|]; [| apply within_refl].
  simpl. split; simpl.
  - intros k v. destruct (decide (np = k)) as [<- | Hne].
    + intros _. right. apply list_elem_of_singleton. reflexivity.
    + rewrite lookup_insert_ne by exact Hne. auto.
  - intros f c. destruct (decide (getLockFilePath sha256hex np workDir = f))
      as [<- | Hne].
    + intros _. right. apply list_elem_of_singleton. reflexivity.
    + rewrite lookup_insert_ne by exact Hne. auto.
Qed.

Lemma within_delete_file ks fs w f :
  within ks fs w (setDisk (delete f (disk w)) w).
Proof.
  split; simpl; auto. intros g c H. left.
  apply lookup_delete_Some in H. now destruct H.
Qed.

(** What an acquisition may leave behind: nothing when it fails, the lock
    of its own path when it succeeds. *)
Lemma acquireAttempts_within remaining np workDir reentrant :
  forall w b w',
    acquireAttempts sha256hex lockOwner clock remaining np workDir reentrant w
      = (b, w') ->
    within (if b then [np] else [])
           (if b then [getLockFilePath sha256hex np workDir] else []) w w'.
Proof.
  induction remaining as [|r IH]; simpl; intros w b w' H.
  - injection H as <- <-. apply within_refl.
  - set (now := clock (tick w)) in *.
    set (w1 := {| locks := locks w; lastLockCleanup := lastLockCleanup w;
                  disk := disk w; tick := S (tick w) |}) in *.
    set (w2 := if now - lastLockCleanup w >? LOCK_CLEANUP_INTERVAL_MS
               then setLastCleanup now
                      (cleanupStaleLockFiles clock workDir
                         (cleanupStaleLocks lockOwner clock w1))
               else w1) in *.
    assert (H12 : within [] [] w w2).
    { subst w2. destruct (now - lastLockCleanup w >? LOCK_CLEANUP_INTERVAL_MS).
      - pose proof (cleanupStaleLocks_within w1) as Ha.
        pose proof (cleanupStaleLockFiles_within workDir
                      (cleanupStaleLocks lockOwner clock w1)) as Hb.
        pose proof (within_trans _ _ _ _ _ _ _ Ha Hb) as Hc.
        destruct Hc as [Hl Hd]. split; simpl; [exact Hl | exact Hd].
      - split; simpl; auto. }
    assert (Hfin : forall ks fs w3, within ks fs w2 w3 -> within ks fs w w3).
    { intros ks fs w3 H23.
      exact (within_trans _ _ _ _ _ _ _ H12 H23). }
    apply Hfin. clear Hfin H12.
    destruct (match locks w2 !! np with
              | Some existing =>
                  if now - timestamp existing <? timeout existing
                  then Some existing else None
              | None => None
              end) as [existing|].
    + destruct (String.eqb (owner existing) lockOwner && reentrant).
      * injection H as <- <-. apply refreshLock_within.
      * injection H as <- <-. apply within_refl.
    + destruct (disk w2 !! getLockFilePath sha256hex np workDir) as [content|] eqn:Hd.
      * destruct (staleOnAcquire now content).
        -- apply IH in H.
           pose proof (within_delete_file [] []
                         w2 (getLockFilePath sha256hex np workDir)) as Hdel.
           exact (within_trans _ _ _ _ _ _ _ Hdel H).
        -- now apply IH in H.
      * injection H as <- <-. split; simpl.
        -- intros k v. destruct (decide (np = k)) as [<- | Hne].
           ++ intros _. right. apply list_elem_of_singleton. reflexivity.
           ++ rewrite lookup_insert_ne by exact Hne. auto.
        -- intros f c.
           destruct (decide (getLockFilePath sha256hex np workDir = f)) as [<- | Hne].
           ++ intros _. right. apply list_elem_of_singleton. reflexivity.
           ++ rewrite lookup_insert_ne by exact Hne. auto.
Qed.

Lemma acquireLoop_within workDir files :
  forall acc w ok acq w',
    acquireLoop normalizePathForLocking sha256hex lockOwner clock files workDir acc w
      = (ok, acq, w') ->
    exists new,
      acq = (acc ++ new)%list /\
      within (map (fun f => normalizePathForLocking f workDir) new)
             (map (fun f => getLockFilePath sha256hex
                              (normalizePathForLocking f workDir) workDir) new)
             w w'.
Proof.
  induction files as [|file rest IH]; simpl; intros acc w ok acq w' H.
  - injection H as <- <- <-. exists []. rewrite app_nil_r.
    split; [reflexivity | apply within_refl].
  - destruct (acquireFileLock normalizePathForLocking sha256hex lockOwner clock
                file workDir 5 false w) as [b w1] eqn:Hacq.
    unfold acquireFileLock in Hacq.
    apply acquireAttempts_within in Hacq.
    destruct b.
    + apply IH in H. destruct H as (new & -> & Hw).
      exists (file :: new). split; [now rewrite <- app_assoc |].
      exact (within_trans _ _ _ _ _ _ _ Hacq Hw).
    + injection H as <- <- <-. exists []. rewrite app_nil_r.
      split; [reflexivity | exact Hacq].
Qed.

Lemma release_locks workDir acq :
  forall w k v,
    locks (releaseLocksForFiles normalizePathForLocking sha256hex acq workDir w) !! k
      = Some v ->
    locks w !! k = Some v /\
    k ∉ map (fun f => normalizePathForLocking f workDir) acq.
Proof.
  unfold releaseLocksForFiles.
  induction acq as [|file rest IH]; simpl; intros w k v H.
  - split; [exact H | apply not_elem_of_nil].
  - apply IH in H. destruct H as [H Hnot]. simpl in H.
    apply lookup_delete_Some in H. destruct H as [Hne H].
    split; [exact H |].
    intros Hin. apply elem_of_cons in Hin. destruct Hin; [congruence | contradiction].
Qed.

Lemma release_disk workDir acq :
  forall w f c,
    disk (releaseLocksForFiles normalizePathForLocking sha256hex acq workDir w) !! f
      = Some c ->
    disk w !! f = Some c /\
    f ∉ map (fun x => getLockFilePath sha256hex
                        (normalizePathForLocking x workDir) workDir) acq.
Proof.
  unfold releaseLocksForFiles.
  induction acq as [|file rest IH]; simpl; intros w f c H.
  - split; [exact H | apply not_elem_of_nil].
  - apply IH in H. destruct H as [H Hnot]. simpl in H.
    apply lookup_delete_Some in H. destruct H as [Hne H].
    split; [exact H |].
    intros Hin. apply elem_of_cons in Hin. destruct Hin; [congruence | contradiction].
Qed.

(** C8 (amended): when [acquireLocksForFiles] returns false, every lock
    it acquired during the call has been released, in memory and on disk,
    and whatever lock entry or lock file exists afterwards existed unchanged
    before the call: the caller holds no lock it did not hold already.  A
    lock it did hold already is not acquired during the call, and the call
    does not release it. *)
Theorem acquireMany_all_or_nothing (files : list string) (workDir : string)
    (w w' : World) :
  acquireLocksForFiles normalizePathForLocking sha256hex lockOwner clock
    files workDir w = (false, w') ->
  (forall file,
     file ∈ acquiredDuring normalizePathForLocking sha256hex lockOwner clock
              files workDir w ->
     locks w' !! normalizePathForLocking file workDir = None /\
     disk w' !! getLockFilePath sha256hex
                  (normalizePathForLocking file workDir) workDir = None) /\
  (forall k v, locks w' !! k = Some v -> locks w !! k = Some v) /\
  (forall f c, disk w' !! f = Some c -> disk w !! f = Some c).
Proof.
  unfold acquireLocksForFiles, acquiredDuring.
  destruct (acquireLoop normalizePathForLocking sha256hex lockOwner clock
              (uniqueFiles normalizePathForLocking files workDir []) workDir [] w)
    as [[ok acq] w1] eqn:Hloop.
  destruct ok; [discriminate |]. intros [= <-]. simpl.
  apply acquireLoop_within in Hloop. destruct Hloop as (new & -> & [Hl Hd]).
  simpl in *.
  split; [| split].
  - intros file Hin. split.
    + destruct (locks _ !! normalizePathForLocking file workDir) as [v|] eqn:Hv;
        [| reflexivity].
      apply release_locks in Hv. destruct Hv as [_ Hnot].
      exfalso. apply Hnot.
      apply (list_elem_of_fmap_2 (fun f => normalizePathForLocking f workDir)).
      exact Hin.
    + destruct (disk _ !! _) as [c|] eqn:Hc; [| reflexivity].
      apply release_disk in Hc. destruct Hc as [_ Hnot].
      exfalso. apply Hnot.
      apply (list_elem_of_fmap_2
               (fun x => getLockFilePath sha256hex
                           (normalizePathForLocking x workDir) workDir)).
      exact Hin.
  - intros k v H. apply release_locks in H. destruct H as [H Hnot].
    destruct (Hl _ _ H); [assumption | contradiction].
  - intros f c H. apply release_disk in H. destruct H as [H Hnot].
    destruct (Hd _ _ H); [assumption | contradiction].
Qed.

(** C10: [releaseFileLock] removes the in-memory entry and the lock file
    of the path, whatever the registry and the lock directory hold and
    whoever is recorded as the owner there: this process, another one, or
    nobody.  The owner of the caller is no argument of the function.  Every
    other entry and every other file is left as it was. *)
Theorem release_ignores_ownership (filePath workDir : string) (w : World) :
  locks (releaseFileLock normalizePathForLocking sha256hex filePath workDir w)
    !! normalizePathForLocking filePath workDir = None /\
  disk (releaseFileLock normalizePathForLocking sha256hex filePath workDir w)
    !! getLockFilePath sha256hex
         (normalizePathForLocking filePath workDir) workDir = None /\
  (forall k, k <> normalizePathForLocking filePath workDir ->
     locks (releaseFileLock normalizePathForLocking sha256hex filePath workDir w) !! k
     = locks w !! k) /\
  (forall f,
     f <> getLockFilePath sha256hex (normalizePathForLocking filePath workDir) workDir ->
     disk (releaseFileLock normalizePathForLocking sha256hex filePath workDir w) !! f
     = disk w !! f).
Proof.
  unfold releaseFileLock; simpl.
  split; [apply lookup_delete_eq |]. split; [apply lookup_delete_eq |].
  split; intros x Hx; apply lookup_delete_ne; congruence.
Qed.

End Manager.

Example contended_acquireMany_fails :
  fst (acquireLocksForFiles normalizeExample digestExample "7-1" clockExample
         ["a"; "b"] "/w" contended) = false /\
  acquiredDuring normalizeExample digestExample "7-1" clockExample
    ["a"; "b"] "/w" contended = ["a"].
Proof. vm_compute. split; reflexivity. Qed.

(** C8, as stated, fails: a lock of the input set that the caller holds
    already stays held.  This process takes the lock of [a]; its call for
    [b] and [a] then takes [b], is refused [a] (the acquisition is not
    re-entrant), gives [b] back and answers false, and the lock of [a] is
    still this process's, in the registry and on disk. *)
Lemma held_lock_survives_failed_acquireMany :
  let first := acquireFileLock normalizeExample digestExample "7-1" clockExample
                 "a" "/w" 5 false
                 {| locks := ∅; lastLockCleanup := 1000; disk := ∅; tick := 0 |} in
  let second := acquireLocksForFiles normalizeExample digestExample "7-1" clockExample
                  ["b"; "a"] "/w" (snd first) in
  fst first = true /\
  fst second = false /\
  acquiredDuring normalizeExample digestExample "7-1" clockExample
    ["b"; "a"] "/w" (snd first) = ["b"] /\
  locks (snd second) !! normalizeExample "a" "/w" =
    Some {| timestamp := 1000; timeout := 30000; owner := "7-1"; refreshCount := 0 |} /\
  disk (snd second) !! getLockFilePath digestExample (normalizeExample "a" "/w") "/w" =
    Some (Written {| timestamp := 1000; timeout := 30000; owner := "7-1";
                     refreshCount := 0 |}) /\
  locks (snd second) !! normalizeExample "b" "/w" = None.
Proof. vm_compute. repeat split; reflexivity. Qed.

(** The amended C8 on scenario S3: [a] is acquired, [b] is held by another
    owner, and after the failed call [a] is not locked. *)
Lemma acquireMany_all_or_nothing_witness :
  locks (snd (acquireLocksForFiles normalizeExample digestExample "7-1" clockExample
                ["a"; "b"] "/w" contended))
    !! normalizeExample "a" "/w" = None.
Proof.
  destruct (acquireMany_all_or_nothing
              normalizeExample digestExample "7-1" clockExample
              ["a"; "b"] "/w" contended
              (snd (acquireLocksForFiles normalizeExample digestExample "7-1"
                      clockExample ["a"; "b"] "/w" contended)))
    as (Hacq & _ & _).
  - vm_compute. reflexivity.
  - apply (Hacq "a").
    replace (acquiredDuring normalizeExample digestExample "7-1" clockExample
               ["a"; "b"] "/w" contended) with ["a"] by (vm_compute; reflexivity).
    constructor.
Defined.

(** C10 on the lock file another process wrote for [b], live at the time
    1000: after the call of the process [7-1] the file is gone. *)
Lemma release_ignores_ownership_witness :
  disk contended !! getLockFilePath digestExample (normalizeExample "b" "/w") "/w"
    = Some (Written foreignLock) /\
  owner foreignLock <> "7-1" /\
  live 1000 foreignLock /\
  locks (releaseFileLock normalizeExample digestExample "b" "/w" contended)
    !! normalizeExample "b" "/w" = None /\
  disk (releaseFileLock normalizeExample digestExample "b" "/w" contended)
    !! getLockFilePath digestExample (normalizeExample "b" "/w") "/w" = None.
Proof.
  destruct (release_ignores_ownership normalizeExample digestExample
              "b" "/w" contended) as (Hentry & Hfile & _).
  split; [vm_compute; reflexivity |].
  split; [discriminate |].
  split; [unfold live; simpl; lia |].
  split; [exact Hentry | exact Hfile].
Defined.

End LocksProps.


(** ** Hash store and the guard on persisted JSON *)

Module HashStoreProps.
Import HashStore.

Lemma length_append (a b : string) :
  String.length (a +:+ b) = (String.length a + String.length b)%nat.
Proof. induction a as [|c a IH]; simpl; [reflexivity | now rewrite IH]. Qed.

Lemma length_pjoin (a b : string) :
  String.length (pjoin a b) = (String.length a + 1 + String.length b)%nat.
Proof. unfold pjoin. rewrite !length_append. simpl. lia. Qed.

Lemma length_dropChars (n : nat) (s : string) :
  String.length (dropChars n s) = (String.length s - n)%nat.
Proof.
  revert s. induction n as [|n IH]; intros [|c s]; simpl; auto.
Qed.

Lemma includes_suffix (p x : string) : includes p (x +:+ p) = true.
Proof.
  induction x as [|c x IH]; simpl.
  - destruct p as [|a p]; simpl; [reflexivity |].
    rewrite Ascii.eqb_refl. simpl.
    assert (H : forall q, startsWith q q = true).
    { induction q as [|d q IHq]; simpl; [reflexivity |].
      unfold ascii_eqb. now rewrite Ascii.eqb_refl. }
    now rewrite H.
  - rewrite IH. apply orb_true_r.
Qed.

Lemma includes_app_r (p a b : string) :
  includes p b = true -> includes p (a +:+ b) = true.
Proof.
  intros H. induction a as [|c a IH]; simpl; [exact H |].
  rewrite IH. apply orb_true_r.
Qed.

Lemma startsWith_length (p s : string) :
  startsWith p s = true -> (String.length p <= String.length s)%nat.
Proof.
  revert s. induction p as [|a p IH]; intros [|b s]; simpl; try lia; try discriminate.
  intros H. apply andb_true_iff in H. destruct H as [_ H]. apply IH in H. lia.
Qed.

Lemma length_replaceFirst_empty (p s : string) :
  includes p s = true ->
  (String.length (replaceFirst p "" s) + String.length p)%nat = String.length s.
Proof.
  induction s as [|c s IH]; intros H.
  - simpl in H. rewrite orb_false_r in H.
    simpl. rewrite H. rewrite length_append, length_dropChars.
    apply startsWith_length in H. simpl in *. lia.
  - simpl in H. simpl replaceFirst.
    destruct (startsWith p (String c s)) eqn:Hs.
    + rewrite length_append, length_dropChars.
      apply startsWith_length in Hs. simpl in *. lia.
    + simpl in H. simpl. rewrite IH by exact H. reflexivity.
Qed.

Section Store.

Variable resolve : string -> string -> string.
Variable sha256hex : string -> string.
Variable gzip : string -> string.
Variable gunzip : string -> option string.
Variable parseErrorMessage : string.
Variable gunzipErrorMessage : string.
Variable encodeMetadata : HashMetadata -> string.
Variable decodeMetadata : string -> option HashMetadata.
Variable encodeIndex : TaskHashIndex -> string.
Variable decodeIndex : string -> option TaskHashIndex.

Lemma initialize_fields now fs s :
  storeTaskId (initialize resolve decodeIndex now fs s) = storeTaskId s /\
  projectRoot (initialize resolve decodeIndex now fs s) = projectRoot s /\
  cleanedUp (initialize resolve decodeIndex now fs s) = cleanedUp s /\
  initialized (initialize resolve decodeIndex now fs s) = true.
Proof.
  unfold initialize. simpl.
  destruct (initialized s) eqn:Hi; [auto |].
  destruct (fs !! indexPath resolve s) as [f|]; [| auto].
  destruct (loadIndex decodeIndex (bytes f)); auto.
Qed.

Lemma initialize_idempotent now fs s :
  initialized s = true -> initialize resolve decodeIndex now fs s = s.
Proof. intros H. unfold initialize. simpl. now rewrite H. Qed.

Lemma taskDir_initialize now fs s :
  taskDir resolve (initialize resolve decodeIndex now fs s) = taskDir resolve s.
Proof.
  destruct (initialize_fields now fs s) as (Ht & Hr & _).
  unfold taskDir, baseDir. now rewrite Ht, Hr.
Qed.

(** C1 at its failing inputs: the first [addFile] of a file into a task
    directory without files succeeds, but the index entry it records names
    [<hash>] or [<hash>.gz] directly below the task directory, while the
    content went below [content/]; the entry's [hashPath] names no file, and
    the following [getFile] fails. *)
Theorem first_add_breaks_round_trip (now now' : Z) (filePath : string)
    (options : AddFileOptions) (s : FileHashStore) (fs : FileSystem) (src : File) :
  (forall b, String.length (sha256hex b) = 64%nat) ->
  cleanedUp s = false ->
  fs !! resolve (projectRoot s) filePath = Some src ->
  emptyBelow (taskDir resolve s) fs ->
  let r := addFile resolve sha256hex gzip encodeMetadata encodeIndex decodeIndex
             now filePath options s fs in
  addSuccess (fst (fst r)) = true /\
  addHash (fst (fst r)) = Some (sha256hex (bytes src)) /\
  (exists ref,
     files (index (snd (fst r))) !! filePath = Some ref /\
     snd r !! pjoin (taskDir resolve (snd (fst r))) (hashPath ref) = None) /\
  success (fst (getFile resolve gunzip parseErrorMessage gunzipErrorMessage
                  decodeMetadata decodeIndex now' filePath (snd (fst r)) (snd r)))
    = false.
Proof.
  intros Hlen Hclean Hsrc Hempty.
  destruct (initialize_fields now fs s) as (Ht & Hr & _ & Hi).
  pose proof (taskDir_initialize now fs s) as Hdir.
  unfold addFile. simpl. rewrite Hclean.
  set (s1 := initialize resolve decodeIndex now fs s) in *.
  rewrite Hr, Hsrc.
  set (h := sha256hex (bytes src)).
  set (T := taskDir resolve s1).
  assert (Hfresh : bool_decide (is_Some (fs !! pjoin T (pjoin "content" (h +:+ ".gz"))))
                   = false).
  { apply bool_decide_eq_false. subst T. rewrite Hdir, Hempty.
    intros [x Hx]. discriminate. }
  rewrite Hfresh. simpl.
  set (shouldCompress :=
         compress options &&
         (Z.of_nat (String.length (bytes src)) >=? compressionThreshold options)).
  set (ref := {| refHash := h;
                 hashPath := h +:+ (if shouldCompress then ".gz" else "");
                 metadataPath := pjoin "content" (h +:+ ".json") |}).
  assert (HT : taskDir resolve
                 (setIndex {| indexTaskId := indexTaskId (index s1);
                              files := <[filePath := ref]> (files (index s1));
                              createdAt := createdAt (index s1);
                              updatedAt := now |} s1) = T) by reflexivity.
  assert (Hh : String.length h = 64%nat) by apply Hlen.
  (* the path the entry names is none of the paths written *)
  assert (Hmiss :
    saveIndex resolve encodeIndex now
      (setIndex {| indexTaskId := indexTaskId (index s1);
                   files := <[filePath := ref]> (files (index s1));
                   createdAt := createdAt (index s1);
                   updatedAt := now |} s1)
      (writeFile (pjoin (pjoin T "content") (h +:+ ".json"))
         (encodeMetadata
            {| originalPath := filePath; hash := h;
               size := Z.of_nat (String.length (bytes src));
               mtime := modified src; compressed := shouldCompress;
               originalSize := Z.of_nat (String.length (bytes src));
               storedAt := now; taskId := storeTaskId s1 |}) now
         (if shouldCompress
          then writeFile (pjoin T (pjoin "content" (h +:+ ".gz")))
                 (gzip (bytes src)) now fs
          else writeFile (replaceFirst ".gz" "" (pjoin T (pjoin "content" (h +:+ ".gz"))))
                 (bytes src) now fs))
      !! pjoin T (hashPath ref) = None).
  { unfold saveIndex, writeFile, indexPath. rewrite HT.
    rewrite lookup_insert_ne.
    2:{ intros E. apply (f_equal String.length) in E.
        rewrite !length_pjoin in E. simpl in E.
        rewrite length_append, Hh in E. destruct shouldCompress; simpl in E; lia. }
    rewrite lookup_insert_ne.
    2:{ intros E. apply (f_equal String.length) in E.
        rewrite !length_pjoin in E. simpl in E.
        rewrite !length_append, Hh in E. destruct shouldCompress; simpl in E; lia. }
    destruct shouldCompress; simpl.
    - rewrite lookup_insert_ne.
      2:{ intros E. apply (f_equal String.length) in E.
          rewrite !length_pjoin in E. simpl in E.
          rewrite !length_append, Hh in E. simpl in E. lia. }
      subst T. rewrite Hdir. apply Hempty.
    - rewrite lookup_insert_ne.
      2:{ intros E. apply (f_equal String.length) in E.
          pose proof (length_replaceFirst_empty ".gz"
                        (pjoin T (pjoin "content" (h +:+ ".gz")))) as Hrep.
          assert (Hinc : includes ".gz" (pjoin T (pjoin "content" (h +:+ ".gz")))
                         = true).
          { unfold pjoin. repeat apply includes_app_r. reflexivity. }
          specialize (Hrep Hinc).
          rewrite !length_pjoin, !length_append, Hh in Hrep.
          rewrite length_pjoin, length_append, Hh in E.
          simpl in Hrep, E. lia. }
      subst T. rewrite Hdir. apply Hempty. }
  split; [reflexivity |]. split; [reflexivity |]. split.
  - exists ref. split; [apply lookup_insert_eq | exact Hmiss].
  - unfold getFile. simpl.
    rewrite initialize_idempotent by exact Hi. simpl.
    rewrite lookup_insert_eq. rewrite HT.
    destruct (_ !! pjoin T (metadataPath ref)) as [metaFile|]; [| reflexivity].
    destruct (decodeMetadata (bytes metaFile)) as [meta|]; [| reflexivity].
    rewrite Hmiss. reflexivity.
Qed.

End Store.

(** The store can serve a file: once the compressed content is on disk, a
    second [addFile] of it records [content/<hash>.gz], and [getFile] returns
    the bytes. *)
Example second_add_round_trips :
  let opts := {| compress := true; compressionThreshold := 1 |} in
  let meta := {| originalPath := "a.txt"; hash := digestExample "hi"; size := 2;
                 mtime := 5; compressed := true; originalSize := 2; storedAt := 1;
                 taskId := "t" |} in
  let add now s fs :=
    addFile resolveExample digestExample (fun b => b) (fun _ => "") (fun _ => "")
            (fun _ => None) now "a.txt" opts s fs in
  let r1 := add 1 (newStore 0 "t" "/p") projectFiles in
  let r2 := add 2 (snd (fst r1)) (snd r1) in
  let get s fs :=
    fst (getFile resolveExample (fun b => Some b) "" "" (fun _ => Some meta)
           (fun _ => None) 3 "a.txt" s fs) in
  success (get (snd (fst r1)) (snd r1)) = false /\
  alreadyExists (fst (fst r2)) = Some true /\
  success (get (snd (fst r2)) (snd r2)) = true /\
  content (get (snd (fst r2)) (snd r2)) = Some "hi".
Proof. vm_compute. repeat split; reflexivity. Qed.

(** C1's failure on a store for task [t] in project [/p], adding [a.txt]. *)
Lemma first_add_breaks_round_trip_witness :
  success
    (fst (getFile resolveExample (fun _ => None) "" "" (fun _ => None) (fun _ => None)
            2 "a.txt"
            (snd (fst (addFile resolveExample digestExample (fun b => b)
                         (fun _ => "") (fun _ => "") (fun _ => None)
                         1 "a.txt" defaultOptions (newStore 0 "t" "/p") projectFiles)))
            (snd (addFile resolveExample digestExample (fun b => b)
                    (fun _ => "") (fun _ => "") (fun _ => None)
                    1 "a.txt" defaultOptions (newStore 0 "t" "/p") projectFiles))))
  = false.
Proof.
  apply (first_add_breaks_round_trip
           resolveExample digestExample (fun b => b) (fun _ => None) "" ""
           (fun _ => "") (fun _ => None) (fun _ => "") (fun _ => None)
           1 2 "a.txt" defaultOptions (newStore 0 "t" "/p") projectFiles
           {| bytes := "hi"; modified := 5 |}).
  - intros b. reflexivity.
  - reflexivity.
  - vm_compute. reflexivity.
  - intros name. apply lookup_singleton_ne. vm_compute. discriminate.
Defined.

(** C2 at its failing inputs: the guard's pattern asks for the literal
    [__proto] with the closing quote BEFORE the last two underscores, so it
    matches none of the three keys it is there to reject.  An index text and a
    state text with the key [__proto__] pass the guard and go to the parser;
    the only texts the guard does reject are of the misplaced form. *)
Theorem pollution_guard_rejects_nothing :
  includes (DQ +:+ "__proto__" +:+ DQ) pollutedIndexText = true /\
  pollutionPattern pollutedIndexText = false /\
  (forall decodeIndex, loadIndex decodeIndex pollutedIndexText
                       = decodeIndex pollutedIndexText) /\
  includes (DQ +:+ "__proto__" +:+ DQ) pollutedStateText = true /\
  (forall parse,
     TaskState.loadData parse (fun _ => pollutedStateText) TaskState.json
       pollutedStateText
     = parse TaskState.json pollutedStateText) /\
  Forall (fun key => pollutionPattern (objectWithKey key) = false)
         ["__proto__"; "constructor"; "prototype"] /\
  pollutionPattern (DQ +:+ "__proto" +:+ DQ +:+ "__") = true.
Proof.
  split; [vm_compute; reflexivity |].
  split; [vm_compute; reflexivity |].
  split; [intros d; unfold loadIndex;
          replace (pollutionPattern pollutedIndexText) with false
            by (vm_compute; reflexivity); reflexivity |].
  split; [vm_compute; reflexivity |].
  split.
  - intros parse. unfold TaskState.loadData.
    destruct (parse TaskState.json pollutedStateText); [| reflexivity].
    replace (pollutionPattern pollutedStateText) with false
      by (vm_compute; reflexivity).
    reflexivity.
  - split; [| vm_compute; reflexivity].
    repeat constructor.
Qed.

End HashStoreProps.


(** ** More on the CSV task source *)

Module CsvRowProps.
Import Csv.

Lemma str_app_cons (x : ascii) (a b : string) :
  String x a +:+ b = String x (a +:+ b).
Proof. reflexivity. Qed.

Lemma str_app_nil_l (b : string) : "" +:+ b = b.
Proof. reflexivity. Qed.

Lemma str_app_assoc (a b c : string) : (a +:+ b) +:+ c = a +:+ (b +:+ c).
Proof.
  induction a as [|x a IH]; [reflexivity |].
  rewrite !str_app_cons. now rewrite IH.
Qed.

Lemma str_app_nil_r (a : string) : a +:+ "" = a.
Proof.
  induction a as [|x a IH]; [reflexivity |].
  rewrite str_app_cons. now rewrite IH.
Qed.

(** Appends pushed to the right, with the literal heads exposed. *)
Ltac norm_app :=
  repeat (rewrite str_app_assoc || rewrite str_app_cons || rewrite str_app_nil_l).

Lemma ascii_eqb_sym (a b : ascii) : ascii_eqb a b = ascii_eqb b a.
Proof.
  unfold ascii_eqb.
  destruct (Ascii.eqb_spec a b) as [-> | Hne].
  - now rewrite Ascii.eqb_refl.
  - destruct (Ascii.eqb_spec b a); [congruence | reflexivity].
Qed.

Lemma includesChar_cons (a c : ascii) (v : string) :
  includesChar a (String c v) = ascii_eqb a c || includesChar a v.
Proof. reflexivity. Qed.

Lemma parseLine_cons (char : ascii) (rest cur : string) (inq : bool)
    (vals : list string) :
  parseLine (String char rest) cur inq vals =
  if ascii_eqb char dquote then
    match inq, rest with
    | true, String next rest' =>
        if ascii_eqb next dquote
        then parseLine rest' (cur +:+ DQ) inq vals
        else parseLine rest cur (negb inq) vals
    | _, _ => parseLine rest cur (negb inq) vals
    end
  else if ascii_eqb char "," && negb inq
  then parseLine rest EmptyString inq (vals ++ [cur])
  else parseLine rest (cur +:+ String char EmptyString) inq vals.
Proof. reflexivity. Qed.

Lemma ascii_eqb_refl (a : ascii) : ascii_eqb a a = true.
Proof. apply Ascii.eqb_refl. Qed.

(** A cell without comma and quote is read character by character. *)
Lemma parseLine_plain (v rest cur : string) (vals : list string) :
  includesChar "," v = false -> includesChar dquote v = false ->
  parseLine (v +:+ rest) cur false vals = parseLine rest (cur +:+ v) false vals.
Proof.
  revert cur. induction v as [|c v IH]; intros cur Hc Hq.
  - now rewrite str_app_nil_l, str_app_nil_r.
  - rewrite includesChar_cons in Hc, Hq.
    apply orb_false_iff in Hc. destruct Hc as [Hc1 Hc2].
    apply orb_false_iff in Hq. destruct Hq as [Hq1 Hq2].
    rewrite ascii_eqb_sym in Hc1. rewrite ascii_eqb_sym in Hq1.
    rewrite str_app_cons, parseLine_cons, Hq1, Hc1. cbn [andb].
    rewrite IH by assumption. now norm_app.
Qed.

(** Inside quotes, the doubled form of a cell followed by the closing quote
    reads back as the cell, whatever the cell holds. *)
Lemma parseLine_quoted (v rest cur : string) (vals : list string) :
  startsWith DQ rest = false ->
  parseLine (doubleQuotes v +:+ DQ +:+ rest) cur true vals
  = parseLine rest (cur +:+ v) false vals.
Proof.
  intros Hrest. revert cur. induction v as [|c v IH]; intros cur.
  - rewrite str_app_nil_r.
    change (doubleQuotes "") with "". unfold DQ. norm_app.
    rewrite parseLine_cons, ascii_eqb_refl.
    destruct rest as [|next rest']; [reflexivity |].
    assert (Hn : ascii_eqb next dquote = false).
    { unfold DQ in Hrest. cbn [startsWith] in Hrest.
      rewrite andb_true_r in Hrest. now rewrite ascii_eqb_sym. }
    now rewrite Hn.
  - change (doubleQuotes (String c v))
      with (if ascii_eqb c dquote then DQ +:+ DQ +:+ doubleQuotes v
            else String c (doubleQuotes v)).
    destruct (ascii_eqb c dquote) eqn:Hc.
    + unfold ascii_eqb in Hc. apply Ascii.eqb_eq in Hc. subst c.
      unfold DQ at 1 2. norm_app.
      rewrite parseLine_cons, !ascii_eqb_refl.
      rewrite IH. unfold DQ. now norm_app.
    + rewrite str_app_cons, parseLine_cons, Hc. cbn [negb andb].
      rewrite andb_false_r.
      rewrite IH. now norm_app.
Qed.

Lemma parseLine_cell (v rest : string) (vals : list string) :
  startsWith DQ rest = false ->
  parseLine (escapeCSV v +:+ rest) "" false vals = parseLine rest v false vals.
Proof.
  intros Hrest. unfold escapeCSV.
  destruct (includesChar "," v || includesChar dquote v || includesChar newline v)
    eqn:Hsp.
  - unfold DQ at 1. norm_app.
    rewrite parseLine_cons, ascii_eqb_refl.
    assert (E : parseLine (doubleQuotes v +:+ DQ +:+ rest) "" true vals
                = parseLine rest v false vals)
      by now rewrite parseLine_quoted.
    destruct (doubleQuotes v +:+ DQ +:+ rest); exact E.
  - apply orb_false_iff in Hsp. destruct Hsp as [Hsp _].
    apply orb_false_iff in Hsp. destruct Hsp as [Hc Hq].
    now rewrite parseLine_plain.
Qed.

Lemma parseLine_row (row : list string) : forall vals,
  row <> [] ->
  parseLine (join "," (map escapeCSV row)) "" false vals = (vals ++ row)%list.
Proof.
  induction row as [|p row IH]; intros vals Hne; [congruence |].
  destruct row as [|q row].
  - change (join "," (map escapeCSV [p])) with (escapeCSV p).
    rewrite <- (str_app_nil_r (escapeCSV p)).
    rewrite parseLine_cell by reflexivity. reflexivity.
  - change (join "," (map escapeCSV (p :: q :: row)))
      with (escapeCSV p +:+ "," +:+ join "," (map escapeCSV (q :: row))).
    rewrite parseLine_cell by reflexivity.
    rewrite str_app_cons, str_app_nil_l, parseLine_cons.
    change (ascii_eqb "," dquote) with false.
    change (ascii_eqb "," ",") with true. cbn [andb negb].
    rewrite IH by discriminate.
    now rewrite <- app_assoc.
Qed.

(** X1: a row written by [toCSV] reads back as itself: for every
    non-empty row of cells, whatever characters they hold, the line loop of
    [parseCSV] on the comma-joined escaped cells returns exactly the cells. *)
Theorem csv_row_round_trip (row : list string) :
  row <> [] ->
  parseLine (join "," (map escapeCSV row)) "" false [] = row.
Proof. intros Hne. now rewrite parseLine_row. Qed.

(** X1 on a row with a comma, a quote and an empty cell. *)
Lemma csv_row_round_trip_witness :
  parseLine (join "," (map escapeCSV ["a,b"; DQ +:+ "q" +:+ DQ; ""; "plain"]))
            "" false []
  = ["a,b"; DQ +:+ "q" +:+ DQ; ""; "plain"].
Proof.
  apply (csv_row_round_trip ["a,b"; DQ +:+ "q" +:+ DQ; ""; "plain"]).
  discriminate.
Defined.

End CsvRowProps.

(** ** More on command validation *)

Module ValidationMoreProps.
Import Validation.

Lemma includesChar_none (p : ascii -> bool) (c : ascii) (s : string) :
  (forall ch, p ch = true -> ascii_eqb c ch = false) ->
  allChars p s = true -> includesChar c s = false.
Proof.
  intros Hp. induction s as [|a s IH]; intros Hall; [reflexivity |].
  change (allChars p (String a s)) with (p a && allChars p s) in Hall.
  apply andb_true_iff in Hall. destruct Hall as [Ha Hs].
  change (includesChar c (String a s)) with (ascii_eqb c a || includesChar c s).
  now rewrite (Hp a Ha), (IH Hs).
Qed.

Lemma includes_needs_head (x : ascii) (p s : string) :
  includesChar x s = false -> includes (String x p) s = false.
Proof.
  induction s as [|b s IH]; intros H; [reflexivity |].
  change (includesChar x (String b s)) with (ascii_eqb x b || includesChar x s) in H.
  apply orb_false_iff in H. destruct H as [Hb Hs].
  change (includes (String x p) (String b s))
    with ((ascii_eqb x b && startsWith p s) || includes (String x p) s).
  now rewrite Hb, (IH Hs).
Qed.

(** No character of the allowed class is a shell metacharacter. *)
Lemma validCommandChar_plain (isWindows : bool) (ch : ascii) :
  validCommandChar isWindows ch = true ->
  ascii_eqb ";" ch = false /\ ascii_eqb "&" ch = false /\
  ascii_eqb "|" ch = false /\ ascii_eqb backtick ch = false /\
  ascii_eqb "$" ch = false /\ ascii_eqb "<" ch = false /\
  ascii_eqb ">" ch = false.
Proof.
  intros H.
  destruct ch as [[] [] [] [] [] [] [] []]; destruct isWindows;
    first [ discriminate H | repeat split; reflexivity ].
Qed.

(** X2: the deny-list of [validateCommand] never decides: a command is
    accepted exactly when it is non-empty and all its characters are in the
    platform's allowed class, and it is returned unchanged. *)
Theorem validateCommand_is_the_allow_list (isWindows : bool) (cmd : string) :
  validateCommand isWindows cmd
  = if validCommandPattern isWindows cmd then Some cmd else None.
Proof.
  unfold validateCommand.
  destruct (validCommandPattern isWindows cmd) eqn:Hv.
  - assert (Hall : allChars (validCommandChar isWindows) cmd = true).
    { destruct cmd; [discriminate | exact Hv]. }
    assert (Hno : forall c,
              (forall ch, validCommandChar isWindows ch = true -> ascii_eqb c ch = false) ->
              includesChar c cmd = false).
    { intros c Hc. now apply (includesChar_none (validCommandChar isWindows)). }
    assert (H1 : includesChar ";" cmd = false)
      by (apply Hno; intros ch Hch; apply (validCommandChar_plain _ _ Hch)).
    assert (H2 : includesChar "&" cmd = false)
      by (apply Hno; intros ch Hch; apply (validCommandChar_plain _ _ Hch)).
    assert (H3 : includesChar "|" cmd = false)
      by (apply Hno; intros ch Hch; apply (validCommandChar_plain _ _ Hch)).
    assert (H4 : includesChar backtick cmd = false)
      by (apply Hno; intros ch Hch; apply (validCommandChar_plain _ _ Hch)).
    assert (H5 : includesChar "$" cmd = false)
      by (apply Hno; intros ch Hch; apply (validCommandChar_plain _ _ Hch)).
    assert (H6 : includesChar "<" cmd = false)
      by (apply Hno; intros ch Hch; apply (validCommandChar_plain _ _ Hch)).
    assert (H7 : includesChar ">" cmd = false)
      by (apply Hno; intros ch Hch; apply (validCommandChar_plain _ _ Hch)).
    unfold commandDangerousPatterns, hasCharIn.
    cbn [existsb].
    rewrite H1, H2, H3, H4, H5, H6, H7.
    rewrite !(includes_needs_head "$") by exact H5.
    rewrite !(includes_needs_head "|") by exact H3.
    rewrite !(includes_needs_head "&") by exact H2.
    rewrite (includes_needs_head backtick) by exact H4.
    reflexivity.
  - destruct (existsb _ commandDangerousPatterns); reflexivity.
Qed.

End ValidationMoreProps.

(** ** The streaming line reader *)

Module StreamingProps.
Import Streaming.

Lemma sapp_cons (x : ascii) (a b : string) : String x a +:+ b = String x (a +:+ b).
Proof. reflexivity. Qed.

Lemma sapp_nil_l (b : string) : "" +:+ b = b.
Proof. reflexivity. Qed.

Lemma sapp_nil_r (a : string) : a +:+ "" = a.
Proof. induction a as [|x a IH]; [reflexivity |]. now rewrite sapp_cons, IH. Qed.

Lemma sapp_assoc (a b c : string) : (a +:+ b) +:+ c = a +:+ (b +:+ c).
Proof. induction a as [|x a IH]; [reflexivity |]. now rewrite !sapp_cons, IH. Qed.

Lemma splitNLAux_cons (c : ascii) (rest cur : string) :
  splitNLAux (String c rest) cur =
  if ascii_eqb c newline then cur :: splitNLAux rest ""
  else splitNLAux rest (cur +:+ String c "").
Proof. reflexivity. Qed.



Lemma noNewline_app (a b : string) :
  noNewline (a +:+ b) = noNewline a && noNewline b.
Proof.
  induction a as [|c a IH]; [reflexivity |].
  rewrite sapp_cons. cbn [noNewline]. rewrite IH. now rewrite andb_assoc.
Qed.

Lemma splitNLAux_carry (acc y : string) : forall cur,
  noNewline acc = true ->
  splitNLAux (acc +:+ y) cur = splitNLAux y (cur +:+ acc).
Proof.
  induction acc as [|c acc IH]; intros cur H.
  - now rewrite sapp_nil_l, sapp_nil_r.
  - cbn [noNewline] in H. apply andb_true_iff in H. destruct H as [Hc Hacc].
    apply negb_true_iff in Hc.
    rewrite sapp_cons, splitNLAux_cons, Hc, IH by exact Hacc.
    now rewrite sapp_assoc, sapp_cons, sapp_nil_l.
Qed.



Lemma splitNL_single (b : string) : noNewline b = true -> splitNL b = [b].
Proof.
  intros H. unfold splitNL.
  transitivity (splitNLAux (b +:+ "") ""); [now rewrite sapp_nil_r |].
  rewrite splitNLAux_carry by exact H. reflexivity.
Qed.

Section DecodingProps.

Variable State : Type.
Variable decode : State -> string -> string * State.




End DecodingProps.


End StreamingProps.

(** ** The circuit breaker over sequences of calls, and the retry engine *)

Module RetryProps.
Import Circuit Retry.

Lemma Sane_initial : Sane initial.
Proof.
  split; simpl; try (unfold halfOpenMaxAttempts, failureThreshold; lia).
  intros H. congruence.
Qed.

Lemma Sane_call (c : Call) (st : ConnectionStateManager) : Sane st -> Sane (call c st).
Proof.
  intros [Ht Hf Hc Hl].
  destruct st as [cs cf lf ha]; simpl in *.
  assert (Hl' : cs <> CLOSED -> exists t, lf = Some t) by exact Hl.
  destruct c as [now | | error now |]; simpl.
  - unfold canAttempt; simpl. destruct cs; simpl.
    + split; simpl; auto.
    + destruct (_ && _); split; simpl; auto; unfold halfOpenMaxAttempts; try lia;
        congruence.
    + destruct (ha >=? halfOpenMaxAttempts) eqn:Hge; split; simpl; auto;
        try congruence; try (intros _; eexists; reflexivity).
      rewrite Z.geb_leb in Hge. apply Z.leb_gt in Hge. lia.
  - unfold recordSuccess; simpl.
    destruct cs; split; simpl; auto; unfold halfOpenMaxAttempts, failureThreshold;
      try lia; congruence.
  - unfold recordFailure; simpl.
    destruct (Errors.isConnectionError error); simpl; [| split; simpl; auto].
    destruct cs; simpl.
    + destruct (cf + 1 >=? failureThreshold) eqn:Hge; rewrite ?Z.geb_leb in Hge; split; simpl; auto; try lia;
        try congruence; try (intros _; eexists; reflexivity).
    + destruct (cf + 1 >=? failureThreshold); split; simpl; auto; try lia;
        try congruence; try (intros _; eexists; reflexivity).
    + split; simpl; auto; try lia; try congruence; try (intros _; eexists; reflexivity).
  - split; simpl; auto; unfold halfOpenMaxAttempts, failureThreshold; try lia.
    intros H. congruence.
Qed.

Lemma Sane_calls (cs : list Call) : forall st, Sane st -> Sane (calls cs st).
Proof.
  unfold calls. induction cs as [|c cs IH]; simpl; intros st H; [exact H |].
  apply IH. now apply Sane_call.
Qed.

(** X4: whatever calls were made on the breaker since the process
    started, at most 2 trials are counted, the failure counter is not
    negative and is below 3 while the circuit is CLOSED, and an OPEN or
    HALF_OPEN circuit has a recorded failure time. *)
Theorem breaker_invariants (cs : list Call) :
  0 <= halfOpenAttempts (calls cs initial) <= 2 /\
  0 <= consecutiveFailures (calls cs initial) /\
  (circuitState (calls cs initial) = CLOSED ->
   consecutiveFailures (calls cs initial) < 3) /\
  (circuitState (calls cs initial) <> CLOSED ->
   is_Some (lastFailureTime (calls cs initial))).
Proof.
  destruct (Sane_calls cs initial Sane_initial) as [Ht Hf Hc Hl].
  repeat split; try apply Ht; auto.
Qed.

(** X4 on a breaker that opened, half-opened and was reset. *)
Lemma breaker_invariants_witness :
  consecutiveFailures
    (calls [RecordSuccess;
            RecordFailure {| Errors.message := "ECONNRESET"; Errors.code := "X" |} 5]
           initial) < 3.
Proof.
  destruct (breaker_invariants
              [RecordSuccess;
               RecordFailure {| Errors.message := "ECONNRESET"; Errors.code := "X" |} 5])
    as (_ & _ & Hc & _).
  apply Hc. vm_compute. reflexivity.
Defined.

(** A recorded failure time is one of the times the calls read. *)
Lemma time_positive_call (c : Call) (st : ConnectionStateManager) :
  (forall t, timeOf c = Some t -> 0 < t) ->
  (forall t, lastFailureTime st = Some t -> 0 < t) ->
  forall t, lastFailureTime (call c st) = Some t -> 0 < t.
Proof.
  intros Hc Hst.
  destruct st as [cs cf lf ha]; simpl in *.
  destruct c as [now | | error now |]; simpl.
  - unfold canAttempt; simpl. destruct cs; simpl; auto.
    + destruct (_ && _); simpl; auto.
    + destruct (ha >=? halfOpenMaxAttempts); simpl; auto.
  - unfold recordSuccess; simpl. destruct cs; simpl; auto.
  - unfold recordFailure; simpl.
    destruct (Errors.isConnectionError error); simpl; auto.
    destruct cs; simpl; auto.
  - discriminate.
Qed.

Lemma time_positive_calls (cs : list Call) : forall st,
  positiveTimes cs ->
  (forall t, lastFailureTime st = Some t -> 0 < t) ->
  forall t, lastFailureTime (calls cs st) = Some t -> 0 < t.
Proof.
  unfold calls, positiveTimes.
  induction cs as [|c cs IH]; simpl; intros st Hp Hst; [exact Hst |].
  apply Forall_cons in Hp. destruct Hp as [Hc Hp].
  apply IH; [exact Hp |]. now apply time_positive_call.
Qed.

(** X5: the breaker cannot stay open for ever.  If the calls made so far
    read times after the epoch and left the circuit OPEN, then any call of
    [canAttempt] more than 30 s after the recorded failure time is admitted
    and half-opens the circuit. *)
Theorem open_breaker_recovers (cs : list Call) :
  positiveTimes cs ->
  circuitState (calls cs initial) = OPEN ->
  exists t,
    lastFailureTime (calls cs initial) = Some t /\
    forall now, t + 30000 < now ->
      allowed (fst (canAttempt now (calls cs initial))) = true /\
      circuitState (snd (canAttempt now (calls cs initial))) = HALF_OPEN.
Proof.
  intros Hp Hopen.
  destruct (Sane_calls cs initial Sane_initial) as [_ _ _ Hl].
  destruct Hl as [t Ht]; [congruence |].
  exists t. split; [exact Ht |].
  assert (Hpos : 0 < t).
  { apply (time_positive_calls cs initial Hp); [discriminate | exact Ht]. }
  intros now Hnow.
  destruct (CircuitProps.open_blocks_then_half_open (calls cs initial) t now Hopen Ht)
    as [_ Hadmit]; [lia |].
  destruct Hadmit as (Ha & Hs & _); [unfold resetTimeoutMs; lia |]. auto.
Qed.

(** X5 after three connection failures at 1, 2 and 3 s. *)
Lemma open_breaker_recovers_witness :
  exists t,
    lastFailureTime
      (calls [RecordFailure {| Errors.message := "ECONNRESET"; Errors.code := "X" |} 1000;
              RecordFailure {| Errors.message := "ECONNRESET"; Errors.code := "X" |} 2000;
              RecordFailure {| Errors.message := "ECONNRESET"; Errors.code := "X" |} 3000]
             initial) = Some t.
Proof.
  destruct (open_breaker_recovers
              [RecordFailure {| Errors.message := "ECONNRESET"; Errors.code := "X" |} 1000;
               RecordFailure {| Errors.message := "ECONNRESET"; Errors.code := "X" |} 2000;
               RecordFailure {| Errors.message := "ECONNRESET"; Errors.code := "X" |} 3000])
    as (t & Ht & _).
  - repeat constructor; simpl; intros t [= <-]; lia.
  - vm_compute. reflexivity.
  - exists t. exact Ht.
Defined.


Section WithRetryProps.

Variable T : Type.
Variable fn : nat -> Outcome T.
Variable clock : nat -> Z.

Lemma canAttempt_allowed_not_open (now : Z) (st : ConnectionStateManager) :
  allowed (fst (canAttempt now st)) = true ->
  circuitState (snd (canAttempt now st)) <> OPEN.
Proof.
  unfold canAttempt. destruct st as [cs cf lf ha]; simpl.
  destruct cs; simpl; try discriminate.
  - destruct (_ && _); simpl; discriminate.
  - destruct (ha >=? halfOpenMaxAttempts); simpl; discriminate.
Qed.

Lemma canAttemptNow_fst (r : Run) :
  fst (canAttemptNow clock r) = fst (canAttempt (clock (ticks r)) (breaker r)).
Proof. unfold canAttemptNow. now destruct (canAttempt _ _). Qed.

Lemma canAttemptNow_snd (r : Run) :
  snd (canAttemptNow clock r) =
  {| breaker := snd (canAttempt (clock (ticks r)) (breaker r));
     ticks := S (ticks r); invocations := invocations r |}.
Proof. unfold canAttemptNow. now destruct (canAttempt _ _). Qed.

Lemma canAttemptNow_closed (r : Run) :
  circuitState (breaker r) = CLOSED ->
  canAttemptNow clock r =
  ({| allowed := true; reason := None |},
   {| breaker := breaker r; ticks := S (ticks r); invocations := invocations r |}).
Proof.
  intros H. unfold canAttemptNow, canAttempt. now rewrite H.
Qed.

Lemma recordFailureNow_invocations (e : Errors.RalphyError) (r : Run) :
  invocations (recordFailureNow clock e r) = invocations r.
Proof. unfold recordFailureNow. now destruct (Errors.isConnectionError e). Qed.

Lemma recordFailureNow_connection (e : Errors.RalphyError) (r : Run) :
  Errors.isConnectionError e = true ->
  recordFailureNow clock e r =
  {| breaker := recordFailure true (clock (ticks r)) (breaker r);
     ticks := S (ticks r); invocations := invocations r |}.
Proof. intros H. unfold recordFailureNow. now rewrite H. Qed.

Lemma recordSuccess_closes (st : ConnectionStateManager) :
  circuitState st <> OPEN ->
  circuitState (recordSuccess st) = CLOSED /\ consecutiveFailures (recordSuccess st) = 0.
Proof.
  unfold recordSuccess. destruct (circuitState st) eqn:E; simpl; rewrite ?E; auto.
  congruence.
Qed.

(** The unfolding of one iteration of the loop. *)
Lemma retryLoop_S (n : nat) (lastError : option Errors.RalphyError) (r : Run) :
  retryLoop T fn clock (S n) lastError r =
  let r1 := {| breaker := breaker r; ticks := ticks r;
               invocations := S (invocations r) |} in
  match fn (invocations r) with
  | Returns _ value =>
      (Resolved T value,
       {| breaker := recordSuccess (breaker r); ticks := ticks r;
          invocations := S (invocations r) |})
  | Throws _ error =>
      let e := Errors.standardizeError error in
      let r2 := recordFailureNow clock e r1 in
      match n with
      | O => retryLoop T fn clock O (Some e) r2
      | S _ =>
          let r3 := snd (canAttemptNow clock r2) in
          let recheck := fst (canAttemptNow clock r3) in
          let r4 := snd (canAttemptNow clock r3) in
          if allowed recheck
          then retryLoop T fn clock n (Some e) r4
          else (CircuitRefused T (reason recheck), r4)
      end
  end.
Proof.
  simpl. destruct (fn (invocations r)) as [v | error]; [reflexivity |].
  destruct n; [reflexivity |].
  destruct (canAttemptNow clock (recordFailureNow clock _ _)) as [a r3]; simpl.
  destruct (canAttemptNow clock r3) as [recheck r4]; simpl. reflexivity.
Qed.

Lemma retryLoop_bounds (n : nat) : forall lastError r,
  (n = 0%nat \/ circuitState (breaker r) <> OPEN) ->
  (invocations r <= invocations (snd (retryLoop T fn clock n lastError r))
     <= invocations r + n)%nat /\
  forall v, fst (retryLoop T fn clock n lastError r) = Resolved T v ->
    (exists k, invocations (snd (retryLoop T fn clock n lastError r)) = S k /\
               fn k = Returns T v) /\
    circuitState (breaker (snd (retryLoop T fn clock n lastError r))) = CLOSED /\
    consecutiveFailures (breaker (snd (retryLoop T fn clock n lastError r))) = 0.
Proof.
  induction n as [|n IH]; intros lastError r Hr.
  - simpl. split; [lia |]. intros v. destruct lastError; discriminate.
  - destruct Hr as [Hr | Hr]; [discriminate |].
    rewrite retryLoop_S. cbv zeta.
    destruct (fn (invocations r)) as [value | error] eqn:Hfn.
    + simpl. split; [lia |]. intros v [= <-].
      split; [exists (invocations r); auto |]. now apply recordSuccess_closes.
    + set (e := Errors.standardizeError error).
      set (r2 := recordFailureNow clock e _).
      assert (H2 : invocations r2 = S (invocations r)).
      { unfold r2. now rewrite recordFailureNow_invocations. }
      destruct n as [|m].
      * simpl. split; [lia |]. discriminate.
      * set (r3 := snd (canAttemptNow clock r2)).
        assert (H3 : invocations r3 = S (invocations r)).
        { unfold r3. rewrite canAttemptNow_snd. simpl. exact H2. }
        destruct (allowed (fst (canAttemptNow clock r3))) eqn:Hrecheck.
        -- destruct (IH (Some e) (snd (canAttemptNow clock r3))) as [Hb Hv].
           { right. rewrite canAttemptNow_snd. simpl.
             apply canAttempt_allowed_not_open. now rewrite <- canAttemptNow_fst. }
           split; [| exact Hv].
           assert (H4 : invocations (snd (canAttemptNow clock r3)) = S (invocations r)).
           { rewrite canAttemptNow_snd. simpl. exact H3. }
           rewrite H4 in Hb. lia.
        -- simpl. split; [| discriminate].
           rewrite canAttemptNow_snd. simpl. lia.
Qed.

(** X6: [withRetry] invokes [fn] at most [maxRetries] times, and not at
    all when the breaker refuses the call on entry; when it resolves with a
    value, that value is what the last invocation returned, and the
    breaker is left CLOSED with no recorded failure. *)
Theorem withRetry_bounded (maxRetries : nat) (r : Run) :
  (invocations r <= invocations (snd (withRetry T fn clock maxRetries r))
     <= invocations r + maxRetries)%nat /\
  (allowed (fst (canAttempt (clock (ticks r)) (breaker r))) = false ->
   invocations (snd (withRetry T fn clock maxRetries r)) = invocations r /\
   fst (withRetry T fn clock maxRetries r) =
     CircuitRefused T (reason (fst (canAttempt (clock (ticks r)) (breaker r))))) /\
  (forall v, fst (withRetry T fn clock maxRetries r) = Resolved T v ->
   (exists k, invocations (snd (withRetry T fn clock maxRetries r)) = S k /\
              fn k = Returns T v) /\
   circuitState (breaker (snd (withRetry T fn clock maxRetries r))) = CLOSED /\
   consecutiveFailures (breaker (snd (withRetry T fn clock maxRetries r))) = 0).
Proof.
  assert (Hw : withRetry T fn clock maxRetries r =
               if allowed (fst (canAttemptNow clock r))
               then retryLoop T fn clock maxRetries None (snd (canAttemptNow clock r))
               else (CircuitRefused T (reason (fst (canAttemptNow clock r))),
                     snd (canAttemptNow clock r))).
  { unfold withRetry. now destruct (canAttemptNow clock r). }
  rewrite Hw. rewrite canAttemptNow_fst.
  destruct (allowed (fst (canAttempt (clock (ticks r)) (breaker r)))) eqn:Ha.
  - destruct (retryLoop_bounds maxRetries None (snd (canAttemptNow clock r)))
      as [Hb Hv].
    { right. rewrite canAttemptNow_snd. simpl.
      now apply canAttempt_allowed_not_open. }
    split; [| split; [discriminate | exact Hv]].
    assert (H1 : invocations (snd (canAttemptNow clock r)) = invocations r).
    { rewrite canAttemptNow_snd. reflexivity. }
    rewrite H1 in Hb. exact Hb.
  - rewrite canAttemptNow_snd. simpl.
    split; [lia |]. split; [auto | discriminate].
Qed.


(** One failed invocation classified as a connection failure, on a CLOSED
    circuit that stays CLOSED: the loop goes on with one more recorded
    failure. *)
Lemma retryLoop_connection_failure (n : nat) (lastError : option Errors.RalphyError)
    (r : Run) (error : Errors.Thrown) :
  fn (invocations r) = Throws T error ->
  Errors.isConnectionError (Errors.standardizeError error) = true ->
  circuitState (breaker r) = CLOSED ->
  consecutiveFailures (breaker r) + 1 < failureThreshold ->
  exists r',
    retryLoop T fn clock (S (S n)) lastError r =
      retryLoop T fn clock (S n) (Some (Errors.standardizeError error)) r' /\
    circuitState (breaker r') = CLOSED /\
    consecutiveFailures (breaker r') = consecutiveFailures (breaker r) + 1 /\
    invocations r' = S (invocations r).
Proof.
  intros Hfn Hconn Hclosed Hbelow.
  rewrite retryLoop_S. cbv zeta. rewrite Hfn.
  rewrite (recordFailureNow_connection _ _ Hconn). cbn [breaker ticks invocations].
  set (b := recordFailure true (clock (ticks r)) (breaker r)).
  assert (Hb : circuitState b = CLOSED /\
               consecutiveFailures b = consecutiveFailures (breaker r) + 1).
  { unfold b, recordFailure. rewrite Hclosed. cbn [negb].
    apply Z.ltb_lt in Hbelow. rewrite Z.geb_leb, Z.leb_antisym, Hbelow. auto. }
  destruct Hb as [Hbs Hbf].
  set (r2 := {| breaker := b; ticks := S (ticks r); invocations := S (invocations r) |}).
  rewrite (canAttemptNow_closed r2 Hbs). cbn [fst snd].
  set (r3 := {| breaker := breaker r2; ticks := S (ticks r2);
                invocations := invocations r2 |}).
  rewrite (canAttemptNow_closed r3 Hbs). cbn [fst snd allowed].
  eexists. split; [reflexivity |]. auto.
Qed.

(** X7: a service that stays down stops the retries.  On a CLOSED
    circuit with no recorded failure, when every invocation fails with a
    connection failure and the clock advances by at most 30 s during the
    call, [withRetry] with a budget of 4 or more invokes [fn] exactly 3
    times, then fails with the cooldown error of the breaker and leaves
    the circuit OPEN. *)
Theorem connection_failures_stop_at_three (maxRetries : nat) (r : Run) :
  (4 <= maxRetries)%nat ->
  circuitState (breaker r) = CLOSED ->
  consecutiveFailures (breaker r) = 0 ->
  (forall k, exists error,
     fn k = Throws T error /\
     Errors.isConnectionError (Errors.standardizeError error) = true) ->
  (forall i j, clock j - clock i <= resetTimeoutMs) ->
  invocations (snd (withRetry T fn clock maxRetries r)) = (invocations r + 3)%nat /\
  (exists seconds,
     fst (withRetry T fn clock maxRetries r) =
       CircuitRefused T (Some (Cooldown seconds))) /\
  circuitState (breaker (snd (withRetry T fn clock maxRetries r))) = OPEN.
Proof.
  intros Hbudget Hclosed Hzero Hfn Hclock.
  destruct maxRetries as [|[|[|[|n]]]]; try lia. clear Hbudget.
  unfold withRetry. rewrite (canAttemptNow_closed r Hclosed). cbn [allowed].
  set (r0 := {| breaker := breaker r; ticks := S (ticks r);
                invocations := invocations r |}).
  assert (H0 : circuitState (breaker r0) = CLOSED /\
               consecutiveFailures (breaker r0) = 0 /\
               invocations r0 = invocations r) by auto.
  clearbody r0. destruct H0 as (Hs0 & Hf0 & Hi0).
  destruct (Hfn (invocations r0)) as (e0 & Hfn0 & Hc0).
  destruct (retryLoop_connection_failure (S (S n)) None r0 e0 Hfn0 Hc0 Hs0)
    as (r1 & -> & Hs1 & Hf1 & Hi1); [rewrite Hf0; reflexivity |].
  destruct (Hfn (invocations r1)) as (e1 & Hfn1 & Hc1).
  destruct (retryLoop_connection_failure (S n) (Some (Errors.standardizeError e0))
              r1 e1 Hfn1 Hc1 Hs1)
    as (r2 & -> & Hs2 & Hf2 & Hi2); [rewrite Hf1, Hf0; reflexivity |].
  destruct (Hfn (invocations r2)) as (e2 & Hfn2 & Hc2).
  rewrite retryLoop_S. cbv zeta. rewrite Hfn2.
  rewrite (recordFailureNow_connection _ _ Hc2). cbn [breaker ticks invocations].
  set (b := recordFailure true (clock (ticks r2)) (breaker r2)).
  assert (Hb : circuitState b = OPEN /\ lastFailureTime b = Some (clock (ticks r2))).
  { unfold b, recordFailure. rewrite Hs2, Hf2, Hf1, Hf0. auto. }
  destruct Hb as [Hbs Hbt].
  assert (Hrefuse : forall now, now - clock (ticks r2) <= resetTimeoutMs ->
            canAttempt now b =
            ({| allowed := false;
                reason := Some (Cooldown (ceilSeconds
                            (resetTimeoutMs - (now - clock (ticks r2))))) |}, b)).
  { intros now Hnow. unfold canAttempt. rewrite Hbs, Hbt. cbn [default from_option id].
    replace (now - clock (ticks r2) >? resetTimeoutMs) with false.
    - now rewrite andb_false_r.
    - symmetry. rewrite Z.gtb_ltb. apply Z.ltb_ge. exact Hnow. }
  rewrite !canAttemptNow_fst, !canAttemptNow_snd. cbn [breaker ticks invocations].
  rewrite (Hrefuse _ (Hclock _ _)). cbn [fst snd].
  rewrite (Hrefuse _ (Hclock _ _)). cbn [fst snd allowed reason breaker invocations].
  split; [lia |]. split; [eexists; reflexivity | exact Hbs].
Qed.





End WithRetryProps.

(** X7 with a function that always fails with ECONNRESET, a budget of 5
    and a clock that does not advance. *)
Lemma connection_failures_stop_at_three_witness :
  invocations
    (snd (withRetry unit (fun _ => Throws unit (Errors.ThrownError "read ECONNRESET"))
            (fun _ => 1000) 5%nat
            {| breaker := initial; ticks := 0%nat; invocations := 0%nat |})) = 3%nat.
Proof.
  refine (proj1 (connection_failures_stop_at_three unit
                   (fun _ => Throws unit (Errors.ThrownError "read ECONNRESET"))
                   (fun _ => 1000) 5%nat
                   {| breaker := initial; ticks := 0%nat; invocations := 0%nat |}
                   _ _ _ _ _)).
  - lia.
  - reflexivity.
  - reflexivity.
  - intros k. eexists. split; [reflexivity | vm_compute; reflexivity].
  - intros i j. unfold resetTimeoutMs. lia.
Defined.


End RetryProps.

(** ** Selection order and statistics of the in-memory queue *)

Module QueueViewsProps.
Import MemoryQueue QueueViews.

(** Decides the comparisons of items that the context and the goal make,
    by the priorities and the times of the items. *)
Ltac by_keys :=
  unfold pick, comparePending in *;
  repeat match goal with
         | |- context [?x =? 0] => destruct (Z.eqb_spec x 0)
         | H : context [?x =? 0] |- _ => destruct (Z.eqb_spec x 0)
         end;
  cbn [negb] in *;
  repeat match goal with
         | |- context [?x <=? ?y] => destruct (Z.leb_spec x y)
         | |- context [?x <? ?y] => destruct (Z.ltb_spec x y)
         | H : context [?x <=? ?y] |- _ => destruct (Z.leb_spec x y)
         | H : context [?x <? ?y] |- _ => destruct (Z.ltb_spec x y)
         end;
  try reflexivity; try lia.

Lemma selectStep_pick (best x : QueueItem) :
  selectStep (Some best, Some (priorityOrder (priority best))) x =
  (Some (pick best x), Some (priorityOrder (priority (pick best x)))).
Proof.
  unfold selectStep, pick, comparePending.
  destruct (Z.ltb_spec (priorityOrder (priority x)) (priorityOrder (priority best)))
    as [Hlt | Hge].
  - destruct (Z.eqb_spec (priorityOrder (priority x) - priorityOrder (priority best)) 0);
      [lia |].
    cbn [negb].
    destruct (Z.ltb_spec (priorityOrder (priority x) - priorityOrder (priority best)) 0);
      [reflexivity | lia].
  - destruct (Z.eqb_spec (priorityOrder (priority x)) (priorityOrder (priority best)))
      as [Heq | Hne].
    + rewrite Heq, Z.sub_diag. cbn [Z.eqb negb].
      destruct (enqueuedAt x <? enqueuedAt best) eqn:Ht.
      * apply Z.ltb_lt in Ht.
        destruct (Z.ltb_spec (enqueuedAt x - enqueuedAt best) 0); [| lia].
        now rewrite Heq.
      * apply Z.ltb_ge in Ht.
        destruct (Z.ltb_spec (enqueuedAt x - enqueuedAt best) 0); [lia | reflexivity].
    + destruct (Z.eqb_spec (priorityOrder (priority x) - priorityOrder (priority best)) 0);
        [lia |].
      cbn [negb].
      destruct (Z.ltb_spec (priorityOrder (priority x) - priorityOrder (priority best)) 0);
        [lia | reflexivity].
Qed.

Lemma select_fold (l : list QueueItem) : forall best,
  fold_left selectStep l (Some best, Some (priorityOrder (priority best))) =
  (Some (fold_left pick l best),
   Some (priorityOrder (priority (fold_left pick l best)))).
Proof.
  induction l as [|x l IH]; intros best; [reflexivity |].
  cbn [fold_left]. rewrite selectStep_pick. apply IH.
Qed.

Lemma select_first (x : QueueItem) :
  selectStep (None, None) x = (Some x, Some (priorityOrder (priority x))).
Proof. reflexivity. Qed.

(** The outcome of the selection loop of [dequeue] and [peek]. *)
Lemma select_pending (l : list QueueItem) :
  fst (fold_left selectStep l (None, None)) =
  match l with
  | [] => None
  | x :: rest => Some (fold_left pick rest x)
  end.
Proof.
  destruct l as [|x l]; [reflexivity |].
  cbn [fold_left]. rewrite select_first, select_fold. reflexivity.
Qed.

Lemma fold_pick_least (l : list QueueItem) : forall best,
  In (fold_left pick l best) (best :: l) /\
  forall other, In other (best :: l) ->
    comparePending (fold_left pick l best) other <= 0.
Proof.
  induction l as [|x l IH]; intros best.
  - simpl. split; [now left |]. intros other [<- | []]. by_keys.
  - cbn [fold_left]. destruct (IH (pick best x)) as [Hin Hle]. split.
    + destruct Hin as [Hin | Hin]; [| right; now right].
      rewrite <- Hin. unfold pick.
      destruct (comparePending x best <? 0); [right; now left | now left].
    + intros other Hother.
      assert (Hp : comparePending (fold_left pick l (pick best x)) (pick best x) <= 0)
        by (apply Hle; now left).
      destruct Hother as [<- | [<- | Hother]].
      * set (m := fold_left pick l (pick best x)) in *. clearbody m. by_keys.
      * set (m := fold_left pick l (pick best x)) in *. clearbody m. by_keys.
      * apply Hle. now right.
Qed.

(** X9: [dequeue] answers null exactly when nothing is pending.
    Otherwise the item it returns is the one [peek] shows, started now and
    with one more attempt; it was pending, and no pending item has a
    higher priority, or the same priority and an earlier enqueue time. *)
Theorem dequeue_takes_the_least (now : Z) (q : MemoryTaskQueue) :
  match fst (dequeue now q) with
  | None => pending q = [] /\ peek q = None
  | Some item =>
      exists best,
        peek q = Some best /\ In best (mvalues (pending q)) /\
        task item = task best /\ priority item = priority best /\
        attempts item = attempts best + 1 /\ startedAt item = Some now /\
        forall other, In other (mvalues (pending q)) ->
          priorityOrder (priority best) < priorityOrder (priority other) \/
          (priorityOrder (priority best) = priorityOrder (priority other) /\
           enqueuedAt best <= enqueuedAt other)
  end.
Proof.
  unfold dequeue, peek.
  pose proof (select_pending (mvalues (pending q))) as Hsel.
  destruct (fold_left selectStep (mvalues (pending q)) (None, None)) as [sel v].
  simpl in Hsel. subst sel.
  destruct (pending q) as [|[k x] rest] eqn:Hp; simpl mvalues.
  - simpl. auto.
  - cbn [map snd fst].
    destruct (fold_pick_least (map snd rest) x) as [Hin Hle].
    exists (fold_left pick (map snd rest) x).
    repeat split; auto.
    intros other Hother. specialize (Hle other Hother).
    set (m := fold_left pick (map snd rest) x) in *. clearbody m.
    by_keys.
Qed.

Lemma hd_insertSorted (x : QueueItem) (s : list QueueItem) :
  hd_error (insertSorted x s) =
  Some (match hd_error s with
        | None => x
        | Some y => if comparePending x y <=? 0 then x else y
        end).
Proof.
  destruct s as [|y s]; [reflexivity |].
  simpl. destruct (comparePending x y <=? 0); reflexivity.
Qed.

Lemma hd_sortPending (l : list QueueItem) : hd_error (sortPending l) = firstMin l.
Proof.
  induction l as [|x l IH]; [reflexivity |].
  change (sortPending (x :: l)) with (insertSorted x (sortPending l)).
  rewrite hd_insertSorted, IH. reflexivity.
Qed.

Lemma firstMin_pick (best x : QueueItem) (l : list QueueItem) :
  firstMin (pick best x :: l) = firstMin (best :: x :: l).
Proof.
  simpl. f_equal. destruct (firstMin l) as [m|]; by_keys.
Qed.

Lemma fold_pick_firstMin (l : list QueueItem) : forall best,
  Some (fold_left pick l best) = firstMin (best :: l).
Proof.
  induction l as [|x l IH]; intros best; [reflexivity |].
  cbn [fold_left]. rewrite IH. apply firstMin_pick.
Qed.

(** X10: [peek] shows the first item of the list [getPending] returns,
    and null exactly when that list is empty. *)
Theorem peek_is_first_of_getPending (q : MemoryTaskQueue) :
  peek q = hd_error (getPending q).
Proof.
  unfold peek, getPending. rewrite select_pending, hd_sortPending.
  destruct (mvalues (pending q)) as [|x l]; [reflexivity |].
  apply fold_pick_firstMin.
Qed.


Lemma mhas_In (k : string) (m : ItemMap) : mhas k m = true <-> k ∈ map fst m.
Proof.
  rewrite list_elem_of_In.
  unfold mhas. induction m as [|[c v] m IH]; simpl; [split; [discriminate | tauto] |].
  destruct (String.eqb_spec c k) as [-> | Hne]; simpl.
  - split; auto.
  - rewrite IH. split; [auto | intros [H | H]; [congruence | exact H]].
Qed.

Lemma distinctKeys_mset (k : string) (v : QueueItem) (m : ItemMap) :
  distinctKeys m -> distinctKeys (mset k v m).
Proof.
  unfold distinctKeys. induction m as [|[c v'] m IH]; simpl; intros H.
  - apply NoDup_singleton.
  - apply NoDup_cons in H. destruct H as [Hc Hm].
    destruct (String.eqb_spec c k) as [-> | Hne]; simpl.
    + now apply NoDup_cons.
    + apply NoDup_cons. split; [| now apply IH].
      intros Hin. apply mhas_In in Hin.
      rewrite MemoryQueueProps.mhas_mset in Hin.
      apply orb_true_iff in Hin. destruct Hin as [Hin | Hin].
      * apply String.eqb_eq in Hin. congruence.
      * apply mhas_In in Hin. now apply Hc.
Qed.

Lemma distinctKeys_mdelete (k : string) (m : ItemMap) :
  distinctKeys m -> distinctKeys (mdelete k m).
Proof.
  unfold distinctKeys. induction m as [|[c v'] m IH]; simpl; intros H.
  - constructor.
  - apply NoDup_cons in H. destruct H as [Hc Hm].
    destruct (String.eqb c k); simpl; [now apply IH |].
    apply NoDup_cons. split; [| now apply IH].
    intros Hin. apply Hc. apply mhas_In. apply mhas_In in Hin.
    rewrite MemoryQueueProps.mhas_mdelete in Hin.
    now apply andb_true_iff in Hin.
Qed.

Lemma size_mset (k : string) (v : QueueItem) (m : ItemMap) :
  size (mset k v m) = size m + (if mhas k m then 0 else 1).
Proof.
  unfold size, mhas. induction m as [|[c v'] m IH]; simpl; [reflexivity |].
  destruct (String.eqb c k); simpl; [lia |].
  destruct (existsb _ m); simpl in *; lia.
Qed.

Lemma size_mdelete (k : string) (m : ItemMap) :
  distinctKeys m -> size (mdelete k m) = size m - (if mhas k m then 1 else 0).
Proof.
  unfold size, distinctKeys. induction m as [|[c v'] m IH]; intros H; [reflexivity |].
  simpl in H. apply NoDup_cons in H. destruct H as [Hc Hm].
  specialize (IH Hm).
  unfold mdelete in *. unfold mhas in *. simpl.
  destruct (String.eqb_spec c k) as [-> | Hne]; simpl.
  - assert (Hno : existsb (fun kv => String.eqb (fst kv) k) m = false).
    { destruct (existsb _ m) eqn:E; [| reflexivity].
      exfalso. apply Hc. now apply mhas_In. }
    rewrite Hno in IH. lia.
  - destruct (existsb _ m); simpl in *; lia.
Qed.

Lemma Distinct_apply (now : Z) (op : Op) (q : MemoryTaskQueue) :
  Distinct q -> Distinct (apply now op q).
Proof.
  intros [Hp Hr Hc Hf Hs].
  destruct op; simpl.
  - unfold enqueue. destruct (_ || _); simpl; [now split |].
    split; simpl; auto using distinctKeys_mset.
  - unfold dequeue.
    destruct (fold_left selectStep (mvalues (pending q)) (None, None)) as [[it|] v];
      simpl; [| now split].
    split; simpl; auto using distinctKeys_mset, distinctKeys_mdelete.
  - unfold markComplete. destruct (mget taskId (running q)); [| now split].
    split; simpl; auto using distinctKeys_mset, distinctKeys_mdelete.
  - unfold markFailed. destruct (mget taskId (running q)); [| now split].
    destruct (_ <? _); split; simpl;
      auto using distinctKeys_mset, distinctKeys_mdelete.
  - unfold markSkipped. destruct (orItem _ _); [| now split].
    split; simpl; auto using distinctKeys_mset, distinctKeys_mdelete.
  - unfold resetTask. destruct (orItem _ _); [| now split].
    split; simpl; auto using distinctKeys_mset, distinctKeys_mdelete.
  - unfold remove. split; simpl; auto using distinctKeys_mdelete.
Qed.

Lemma Distinct_run (ops : list (Z * Op)) : forall q, Distinct q -> Distinct (run ops q).
Proof.
  induction ops as [|[now op] ops IH]; simpl; intros q H; [exact H |].
  apply IH. now apply Distinct_apply.
Qed.

Lemma Distinct_empty : Distinct emptyQueue.
Proof. split; simpl; constructor. Qed.

(** Rewrites the sizes after a move of the key [k] and closes the goal by
    the membership bits of [k]. *)
Ltac sizes k q Hu :=
  unfold getStats; cbn [total pending running completedItems failed skipped];
  rewrite ?size_mset, ?size_mdelete by assumption;
  specialize (Hu k); unfold partitionCount in Hu;
  repeat match goal with
         | H : ?x = true |- _ => rewrite H in *; clear H
         | H : ?x = false |- _ => rewrite H in *; clear H
         end;
  destruct (mhas k (pending q)), (mhas k (running q)),
    (mhas k (completedItems q)), (mhas k (failed q)), (mhas k (skipped q));
  simpl in Hu; try lia; try discriminate.

Lemma transition_total (now : Z) (op : Op) (q : MemoryTaskQueue) :
  Inv q -> Distinct q -> isTransition op = true ->
  total (getStats (apply now op q)) = total (getStats q).
Proof.
  intros [Hu Hwp Hwr Hwc Hwf Hws] [Hp Hr Hc Hf Hs] Hop.
  destruct op; try discriminate; simpl apply.
  - unfold dequeue.
    pose proof (MemoryQueueProps.select_In (mvalues (pending q)) (None, None)) as Hsel.
    destruct (fold_left selectStep (mvalues (pending q)) (None, None)) as [[it|] v];
      simpl snd; [| reflexivity].
    destruct (Hsel it v eq_refl) as [Hin | Hno]; [| discriminate].
    pose proof (MemoryQueueProps.wellKeyed_In _ _ Hwp Hin) as Hhas.
    sizes (id (task it)) q Hu.
  - unfold markComplete.
    destruct (mget taskId (running q)) as [it|] eqn:Hget; [| reflexivity].
    pose proof (MemoryQueueProps.mget_Some_mhas _ _ _ Hget) as Hhas.
    clear Hget. sizes taskId q Hu.
  - unfold markFailed.
    destruct (mget taskId (running q)) as [it|] eqn:Hget; [| reflexivity].
    pose proof (MemoryQueueProps.mget_Some_mhas _ _ _ Hget) as Hhas.
    clear Hget. destruct (_ <? _); sizes taskId q Hu.
  - unfold markSkipped, orItem.
    destruct (mget taskId (pending q)) as [it|] eqn:Hgp.
    + pose proof (MemoryQueueProps.mget_Some_mhas _ _ _ Hgp) as Hhas.
      clear Hgp. sizes taskId q Hu.
    + destruct (mget taskId (running q)) as [it|] eqn:Hgr; [| reflexivity].
      pose proof (MemoryQueueProps.mget_Some_mhas _ _ _ Hgr) as Hhas.
      pose proof (MemoryQueueProps.mget_None_mhas _ _ Hgp) as Hno.
      clear Hgp Hgr. sizes taskId q Hu.
  - unfold resetTask, orItem.
    destruct (mget taskId (failed q)) as [it|] eqn:Hgf.
    + pose proof (MemoryQueueProps.mget_Some_mhas _ _ _ Hgf) as Hhas.
      clear Hgf. sizes taskId q Hu.
    + destruct (mget taskId (skipped q)) as [it|] eqn:Hgs; [| reflexivity].
      pose proof (MemoryQueueProps.mget_Some_mhas _ _ _ Hgs) as Hhas.
      pose proof (MemoryQueueProps.mget_None_mhas _ _ Hgf) as Hno.
      clear Hgf Hgs. sizes taskId q Hu.
Qed.

(** X11: no task is lost or counted twice by a transition.  On a queue
    built from the empty one by calls among which no [enqueue] targets an
    id that is completed, failed or skipped at that moment, [dequeue],
    [markComplete], [markFailed], [markSkipped] and [resetTask] leave the
    total of [getStats] as it was. *)
Theorem transitions_keep_total (ops : list (Z * Op)) (now : Z) (op : Op) :
  noFinishedReenqueue ops emptyQueue ->
  isTransition op = true ->
  total (getStats (apply now op (run ops emptyQueue))) =
  total (getStats (run ops emptyQueue)).
Proof.
  intros Hops Hop. apply transition_total; [| | exact Hop].
  - apply MemoryQueueProps.Inv_run; [apply MemoryQueueProps.Inv_empty | exact Hops].
  - apply Distinct_run, Distinct_empty.
Qed.

(** X11 for the completion of the running task [T2], which the dequeue
    handed out before [T1] for its higher priority: the total stays 2, with
    [T2] counted as completed and no longer as running. *)
Lemma transitions_keep_total_witness :
  total (getStats (apply 4 (MarkComplete "T2")
                     (run [(1, Enqueue (mkTask "T1") normal 3);
                           (2, Enqueue (mkTask "T2") high 3);
                           (3, Dequeue)] emptyQueue))) =
  total (getStats (run [(1, Enqueue (mkTask "T1") normal 3);
                        (2, Enqueue (mkTask "T2") high 3);
                        (3, Dequeue)] emptyQueue)) /\
  runningCount (getStats (run [(1, Enqueue (mkTask "T1") normal 3);
                               (2, Enqueue (mkTask "T2") high 3);
                               (3, Dequeue)] emptyQueue)) = 1 /\
  completedCount (getStats (apply 4 (MarkComplete "T2")
                              (run [(1, Enqueue (mkTask "T1") normal 3);
                                    (2, Enqueue (mkTask "T2") high 3);
                                    (3, Dequeue)] emptyQueue))) = 1.
Proof.
  split; [| split; vm_compute; reflexivity].
  apply (transitions_keep_total
           [(1, Enqueue (mkTask "T1") normal 3);
            (2, Enqueue (mkTask "T2") high 3);
            (3, Dequeue)] 4 (MarkComplete "T2")).
  - vm_compute. repeat split.
  - reflexivity.
Defined.

End QueueViewsProps.

(** ** Restoring the file-backed queue from a snapshot *)

Module FileQueueProps.
Import MemoryQueue QueueViews FileQueue.

Lemma mset_new (k : string) (v : QueueItem) (m : ItemMap) :
  mhas k m = false -> mset k v m = (m ++ [(k, v)])%list.
Proof.
  unfold mhas. induction m as [|[c v'] m IH]; simpl; [reflexivity |].
  destruct (String.eqb c k); simpl; [discriminate |].
  intros H. now rewrite IH.
Qed.

Lemma mdelete_absent (k : string) (m : ItemMap) :
  mhas k m = false -> mdelete k m = m.
Proof.
  unfold mhas, mdelete. induction m as [|[c v'] m IH]; simpl; [reflexivity |].
  destruct (String.eqb c k); simpl; [discriminate |].
  intros H. now rewrite IH.
Qed.

Lemma mdelete_mset_new (k : string) (v : QueueItem) (m : ItemMap) :
  mhas k m = false -> mdelete k (mset k v m) = m.
Proof.
  intros H. rewrite (mset_new _ _ _ H). unfold mdelete.
  rewrite List.filter_app. simpl. rewrite String.eqb_refl. simpl.
  rewrite app_nil_r. now apply mdelete_absent.
Qed.

Lemma mget_mset_other (a b : string) (v : QueueItem) (m : ItemMap) :
  a <> b -> mget a (mset b v m) = mget a m.
Proof.
  intros Hne. induction m as [|[c v'] m IH]; simpl.
  - destruct (String.eqb_spec b a); [congruence | reflexivity].
  - destruct (String.eqb_spec c b) as [-> | Hcb]; simpl.
    + destruct (String.eqb_spec b a); [congruence | reflexivity].
    + destruct (String.eqb c a); [reflexivity | exact IH].
Qed.

Lemma mget_absent (k : string) (m : ItemMap) : mhas k m = false -> mget k m = None.
Proof.
  unfold mhas. induction m as [|[c v'] m IH]; simpl; [reflexivity |].
  destruct (String.eqb c k); simpl; [discriminate | exact IH].
Qed.

Lemma mvalues_mset_new (k : string) (v : QueueItem) (m : ItemMap) :
  mhas k m = false -> mvalues (mset k v m) = (mvalues m ++ [v])%list.
Proof.
  intros H. rewrite (mset_new _ _ _ H). unfold mvalues. now rewrite map_app.
Qed.

Section LoadProps.

Variable clock : nat -> Z.

Lemma callQueue_enqueue (t : Task) (p : TaskPriority) (m : Z) (st : LoadState) :
  threw st = false ->
  mhas (id t) (pending (queue st)) = false ->
  mhas (id t) (running (queue st)) = false ->
  callQueue clock (Enqueue t p m) st =
  {| calls := S (calls st);
     queue := {| pending := mset (id t) (freshItem (clock (calls st)) t p m)
                              (pending (queue st));
                 running := running (queue st);
                 completedItems := completedItems (queue st);
                 failed := failed (queue st);
                 skipped := skipped (queue st) |};
     threw := false |}.
Proof.
  intros Ht Hp Hr. unfold callQueue, enqueue. now rewrite Ht, Hp, Hr.
Qed.

Lemma restore_unfinished (s : SerializedQueueItem) (st : LoadState) :
  unfinished s ->
  restore clock s st =
  callQueue clock (Enqueue (sTask s) (sPriority s) (sMaxAttempts s)) st.
Proof.
  unfold restore, restoreCalls. intros [H | H]; now rewrite H.
Qed.

Lemma restore_all_unfinished (l : list SerializedQueueItem) : forall st,
  threw st = false ->
  Forall unfinished l ->
  NoDup (taskIds l) ->
  Forall (fun s => mhas (id (sTask s)) (pending (queue st)) = false /\
                   mhas (id (sTask s)) (running (queue st)) = false) l ->
  let st' := fold_left (fun st0 s => restore clock s st0) l st in
  threw st' = false /\
  map summary (mvalues (pending (queue st'))) =
    (map summary (mvalues (pending (queue st))) ++ map (restoredAs 0) l)%list /\
  running (queue st') = running (queue st) /\
  completedItems (queue st') = completedItems (queue st) /\
  failed (queue st') = failed (queue st) /\
  skipped (queue st') = skipped (queue st).
Proof.
  induction l as [|s l IH]; intros st Ht Hall Hnd Hnew.
  - simpl. rewrite app_nil_r. repeat split; auto.
  - apply Forall_cons in Hall. destruct Hall as [Hs Hall].
    apply Forall_cons in Hnew. destruct Hnew as [[Hsp Hsr] Hnew].
    unfold taskIds in Hnd. simpl in Hnd. apply NoDup_cons in Hnd.
    destruct Hnd as [Hnotin Hnd].
    cbn [fold_left]. rewrite (restore_unfinished s st Hs).
    rewrite (callQueue_enqueue _ _ _ st Ht Hsp Hsr).
    set (st1 := {| calls := S (calls st); queue := _; threw := false |}).
    destruct (IH st1) as (H1 & H2 & H3 & H4 & H5 & H6); auto.
    { rewrite Forall_forall in Hnew |- *. intros s' Hin.
      destruct (Hnew s' Hin) as [Hp' Hr'].
      unfold st1. cbn [queue pending running]. split; [| exact Hr'].
      rewrite MemoryQueueProps.mhas_mset, Hp', orb_false_r.
      apply String.eqb_neq. intros Heq. apply Hnotin.
      rewrite Heq. apply list_elem_of_fmap. exists s'. split; [reflexivity |].
      exact Hin. }
    repeat split; auto.
    rewrite H2. unfold st1. cbn [queue pending].
    rewrite (mvalues_mset_new _ _ _ Hsp), map_app. cbn [map].
    rewrite <- app_assoc. reflexivity.
Qed.

(** X12: a restart forgets the attempts of unfinished tasks.  Loading a
    version-1 snapshot whose items are all stored as pending or running,
    under distinct task ids, does not throw and leaves exactly these items
    pending, in the order of the snapshot, each with its task, priority and
    budget and with 0 attempts; the other partitions are empty. *)
Theorem load_unfinished_items (snapshot : QueueSnapshot) (q : MemoryTaskQueue) :
  version snapshot = 1 ->
  Forall unfinished (items snapshot) ->
  NoDup (taskIds (items snapshot)) ->
  threw (load clock snapshot q) = false /\
  map summary (mvalues (pending (queue (load clock snapshot q)))) =
    map (restoredAs 0) (items snapshot) /\
  running (queue (load clock snapshot q)) = [] /\
  completedItems (queue (load clock snapshot q)) = [] /\
  failed (queue (load clock snapshot q)) = [] /\
  skipped (queue (load clock snapshot q)) = [].
Proof.
  intros Hv Hall Hnd. unfold load. rewrite Hv. cbn [Z.eqb Pos.eqb negb].
  destruct (restore_all_unfinished (items snapshot)
              {| calls := 0; queue := clear q; threw := false |})
    as (H1 & H2 & H3 & H4 & H5 & H6); auto.
  { rewrite Forall_forall. intros s _. split; reflexivity. }
  repeat split; assumption.
Qed.


(** [dequeue] on a queue whose only pending item is [it]. *)
Lemma dequeue_single (now : Z) (q : MemoryTaskQueue) (it : QueueItem) :
  pending q = [(id (task it), it)] ->
  snd (dequeue now q) =
  {| pending := [];
     running := mset (id (task it))
                  {| task := task it; priority := priority it;
                     enqueuedAt := enqueuedAt it; startedAt := Some now;
                     completedAt := completedAt it; attempts := attempts it + 1;
                     maxAttempts := maxAttempts it |} (running q);
     completedItems := completedItems q; failed := failed q; skipped := skipped q |}.
Proof.
  intros Hp. unfold dequeue. rewrite Hp. cbn [mvalues map snd fold_left].
  rewrite QueueViewsProps.select_first. cbn [snd].
  unfold mdelete. cbn [List.filter fst]. rewrite String.eqb_refl. reflexivity.
Qed.

Lemma callQueue_other (op : Op) (st : LoadState) :
  threw st = false ->
  (forall t p m, op <> Enqueue t p m) ->
  callQueue clock op st =
  {| calls := S (calls st); queue := apply (clock (calls st)) op (queue st);
     threw := false |}.
Proof.
  intros Ht Hop. unfold callQueue. rewrite Ht.
  destruct op; try reflexivity. now destruct (Hop t p maxAtt).
Qed.

(** The first two calls that restore a completed or failed item into a
    queue with nothing pending: the item is enqueued and dequeued. *)
Lemma enqueue_dequeue_alone (t : Task) (p : TaskPriority) (m : Z) (st : LoadState) :
  threw st = false ->
  pending (queue st) = [] ->
  mhas (id t) (running (queue st)) = false ->
  callQueue clock Dequeue (callQueue clock (Enqueue t p m) st) =
  {| calls := S (S (calls st));
     queue := {| pending := [];
                 running := mset (id t)
                              {| task := t; priority := p;
                                 enqueuedAt := clock (calls st);
                                 startedAt := Some (clock (S (calls st)));
                                 completedAt := None; attempts := 1;
                                 maxAttempts := m |} (running (queue st));
                 completedItems := completedItems (queue st);
                 failed := failed (queue st);
                 skipped := skipped (queue st) |};
     threw := false |}.
Proof.
  intros Ht Hp Hr.
  rewrite (callQueue_enqueue t p m st Ht); [| now rewrite Hp | exact Hr].
  rewrite callQueue_other; [| reflexivity | discriminate].
  cbn [calls queue apply]. rewrite Hp.
  rewrite (dequeue_single _ _ (freshItem (clock (calls st)) t p m)); reflexivity.
Qed.

(** X13: a failed task can come back as pending.  Restoring an item
    stored as failed into a queue with nothing pending puts it in failed
    when its budget is at most 2 attempts, and in pending when the budget
    is larger (the default is 3); it has 2 attempts in both cases, whatever
    the snapshot recorded. *)
Theorem restore_failed_item (s : SerializedQueueItem) (st : LoadState) :
  threw st = false ->
  sState s = StateFailed ->
  pending (queue st) = [] ->
  mhas (id (sTask s)) (running (queue st)) = false ->
  threw (restore clock s st) = false /\
  running (queue (restore clock s st)) = running (queue st) /\
  (2 < sMaxAttempts s ->
   map summary (mvalues (pending (queue (restore clock s st)))) = [restoredAs 2 s] /\
   failed (queue (restore clock s st)) = failed (queue st)) /\
  (sMaxAttempts s <= 2 ->
   pending (queue (restore clock s st)) = [] /\
   exists item,
     summary item = restoredAs 2 s /\
     failed (queue (restore clock s st)) =
       mset (id (sTask s)) item (failed (queue st))).
Proof.
  intros Ht Hs Hp Hr.
  unfold restore, restoreCalls. rewrite Hs. cbn [fold_left].
  rewrite (enqueue_dequeue_alone _ _ _ st Ht Hp Hr).
  rewrite callQueue_other; [| reflexivity | discriminate].
  cbn [calls queue apply threw]. unfold markFailed. cbn [running].
  rewrite MemoryQueueProps.mget_mset.
  cbn [attempts maxAttempts task priority enqueuedAt startedAt completedAt].
  change (1 + 1) with 2.
  destruct (Z.ltb_spec 2 (sMaxAttempts s)) as [Hlt | Hge];
    cbn [pending running failed]; rewrite (mdelete_mset_new _ _ _ Hr).
  - split; [reflexivity |]. split; [reflexivity |]. split; [auto | lia].
  - split; [reflexivity |]. split; [reflexivity |]. split; [lia |].
    intros _. split; [reflexivity |]. eexists. split; [| reflexivity].
    reflexivity.
Qed.

Lemma mget_mdelete_other (a b : string) (m : ItemMap) :
  a <> b -> mget a (mdelete b m) = mget a m.
Proof.
  intros Hne. unfold mdelete. induction m as [|[c v'] m IH]; simpl; [reflexivity |].
  destruct (String.eqb_spec c b) as [-> | Hcb]; simpl.
  - destruct (String.eqb_spec b a); [congruence | exact IH].
  - destruct (String.eqb c a); [reflexivity | exact IH].
Qed.

(** One more item at the end of the pending list does not change the
    selection when it does not come before the selected item. *)
Lemma select_behind (l : list QueueItem) (best x : QueueItem) :
  fst (fold_left selectStep l (None, None)) = Some best ->
  comparePending best x <= 0 ->
  fst (fold_left selectStep (l ++ [x]) (None, None)) = Some best.
Proof.
  rewrite !QueueViewsProps.select_pending.
  destruct l as [|y l]; [discriminate |].
  intros [= Hbest] Hle. cbn [app]. rewrite fold_left_app. cbn [fold_left].
  rewrite Hbest. f_equal. revert Hle. clear. intros Hle.
  QueueViewsProps.by_keys.
Qed.

Lemma dequeue_selected (now : Z) (q : MemoryTaskQueue) (best : QueueItem) :
  fst (fold_left selectStep (mvalues (pending q)) (None, None)) = Some best ->
  snd (dequeue now q) =
  {| pending := mdelete (id (task best)) (pending q);
     running := mset (id (task best))
                  {| task := task best; priority := priority best;
                     enqueuedAt := enqueuedAt best; startedAt := Some now;
                     completedAt := completedAt best; attempts := attempts best + 1;
                     maxAttempts := maxAttempts best |} (running q);
     completedItems := completedItems q; failed := failed q; skipped := skipped q |}.
Proof.
  intros Hsel. unfold dequeue.
  destruct (fold_left selectStep (mvalues (pending q)) (None, None)) as [sel v].
  cbn [fst] in Hsel. now subst sel.
Qed.

(** X14: a completed task restored behind a pending one is not restored
    as completed.  When the queue already shows a pending item of another
    task whose priority is higher, or equal with an enqueue time not after
    the present call, the calls that restore a completed item enqueue it,
    start that other item instead, and complete nothing: the restored task
    stays pending and the other one is left running. *)
Theorem restore_completed_behind_pending (s : SerializedQueueItem) (st : LoadState)
    (best : QueueItem) :
  threw st = false ->
  sState s = StateCompleted ->
  mhas (id (sTask s)) (pending (queue st)) = false ->
  mhas (id (sTask s)) (running (queue st)) = false ->
  peek (queue st) = Some best ->
  id (task best) <> id (sTask s) ->
  priorityOrder (priority best) < priorityOrder (sPriority s) \/
  (priorityOrder (priority best) = priorityOrder (sPriority s) /\
   enqueuedAt best <= clock (calls st)) ->
  threw (restore clock s st) = false /\
  completedItems (queue (restore clock s st)) = completedItems (queue st) /\
  mget (id (sTask s)) (pending (queue (restore clock s st))) =
    Some (freshItem (clock (calls st)) (sTask s) (sPriority s) (sMaxAttempts s)) /\
  exists started,
    mget (id (task best)) (running (queue (restore clock s st))) = Some started /\
    task started = task best /\ attempts started = attempts best + 1.
Proof.
  intros Ht Hs Hp Hr Hpeek Hother Hbefore.
  unfold restore, restoreCalls. rewrite Hs. cbn [fold_left].
  rewrite (callQueue_enqueue _ _ _ st Ht Hp Hr).
  rewrite callQueue_other; [| reflexivity | discriminate].
  rewrite callQueue_other; [| reflexivity | discriminate].
  cbn [calls queue threw apply].
  set (fresh := freshItem (clock (calls st)) (sTask s) (sPriority s) (sMaxAttempts s)).
  assert (Hsel : fst (fold_left selectStep
                        (mvalues (mset (id (sTask s)) fresh (pending (queue st))))
                        (None, None)) = Some best).
  { rewrite (mvalues_mset_new _ _ _ Hp). apply select_behind; [exact Hpeek |].
    unfold fresh, freshItem, comparePending. cbn [priority enqueuedAt].
    destruct (Z.eqb_spec (priorityOrder (priority best) - priorityOrder (sPriority s)) 0);
      cbn [negb]; lia. }
  rewrite (dequeue_selected _ _ best) by exact Hsel.
  unfold markComplete. cbn [running pending completedItems].
  rewrite mget_mset_other by congruence.
  rewrite (mget_absent _ _ Hr).
  cbn [pending running completedItems].
  split; [reflexivity |]. split; [reflexivity |]. split.
  - rewrite mget_mdelete_other by congruence. apply MemoryQueueProps.mget_mset.
  - eexists. split; [apply MemoryQueueProps.mget_mset |]. split; reflexivity.
Qed.

(** The calls that restore one item stored as completed, skipped or failed
    with a budget of at most 2, on a queue with nothing pending or running. *)
Lemma restore_finished (s : SerializedQueueItem) (st : LoadState) :
  threw st = false ->
  pending (queue st) = [] ->
  running (queue st) = [] ->
  finished s ->
  exists item,
    summary item = restoredAs (restoredAttempts s) s /\
    threw (restore clock s st) = false /\
    pending (queue (restore clock s st)) = [] /\
    running (queue (restore clock s st)) = [] /\
    completedItems (queue (restore clock s st)) =
      (if inState StateCompleted s
       then mset (id (sTask s)) item (completedItems (queue st))
       else completedItems (queue st)) /\
    failed (queue (restore clock s st)) =
      (if inState StateFailed s
       then mset (id (sTask s)) item (failed (queue st))
       else failed (queue st)) /\
    skipped (queue (restore clock s st)) =
      (if inState StateSkipped s
       then mset (id (sTask s)) item (skipped (queue st))
       else skipped (queue st)).
Proof.
  intros Ht Hp Hr Hfin.
  assert (Hr' : mhas (id (sTask s)) (running (queue st)) = false) by now rewrite Hr.
  destruct Hfin as [Hs | [Hs | [Hs Hm]]].
  - unfold restore, restoreCalls, restoredAttempts, inState. rewrite Hs. cbn [fold_left].
    rewrite (enqueue_dequeue_alone _ _ _ st Ht Hp Hr').
    rewrite callQueue_other; [| reflexivity | discriminate].
    cbn [calls queue apply threw]. unfold markComplete. cbn [running].
    rewrite MemoryQueueProps.mget_mset.
    cbn [pending running completedItems failed skipped].
    rewrite (mdelete_mset_new _ _ _ Hr'), Hr.
    eexists. split; [| repeat split; reflexivity]. reflexivity.
  - unfold restore, restoreCalls, restoredAttempts, inState. rewrite Hs. cbn [fold_left].
    rewrite (callQueue_enqueue _ _ _ st Ht); [| now rewrite Hp | exact Hr'].
    rewrite callQueue_other; [| reflexivity | discriminate].
    cbn [calls queue apply threw]. unfold markSkipped. cbn [pending running].
    rewrite MemoryQueueProps.mget_mset. cbn [orItem].
    cbn [pending running completedItems failed skipped].
    rewrite mdelete_mset_new by now rewrite Hp.
    rewrite (mdelete_absent _ _ Hr'), Hp, Hr.
    eexists. split; [| repeat split; reflexivity]. reflexivity.
  - destruct (restore_failed_item s st Ht Hs Hp Hr') as (H1 & H2 & _ & H4).
    destruct (H4 Hm) as (H5 & item & H6 & H7).
    exists item. unfold restoredAttempts, inState. rewrite Hs.
    split; [exact H6 |]. split; [exact H1 |]. split; [exact H5 |].
    split; [now rewrite H2 |].
    unfold restore, restoreCalls in *. rewrite Hs in *. cbn [fold_left] in *.
    rewrite (enqueue_dequeue_alone _ _ _ st Ht Hp Hr') in *.
    rewrite callQueue_other in *; try reflexivity; try discriminate.
    cbn [calls queue apply threw] in *. unfold markFailed in *. cbn [running] in *.
    rewrite MemoryQueueProps.mget_mset in *.
    destruct (_ <? _); cbn [completedItems skipped] in *; auto.
Qed.

Lemma restore_all_finished (l : list SerializedQueueItem) : forall st,
  threw st = false ->
  pending (queue st) = [] ->
  running (queue st) = [] ->
  Forall finished l ->
  NoDup (taskIds l) ->
  Forall (fun s => mhas (id (sTask s)) (completedItems (queue st)) = false /\
                   mhas (id (sTask s)) (failed (queue st)) = false /\
                   mhas (id (sTask s)) (skipped (queue st)) = false) l ->
  let st' := fold_left (fun st0 s => restore clock s st0) l st in
  threw st' = false /\
  pending (queue st') = [] /\
  running (queue st') = [] /\
  map summary (mvalues (completedItems (queue st'))) =
    (map summary (mvalues (completedItems (queue st))) ++
     map (restoredAs 1) (List.filter (inState StateCompleted) l))%list /\
  map summary (mvalues (failed (queue st'))) =
    (map summary (mvalues (failed (queue st))) ++
     map (restoredAs 2) (List.filter (inState StateFailed) l))%list /\
  map summary (mvalues (skipped (queue st'))) =
    (map summary (mvalues (skipped (queue st))) ++
     map (restoredAs 0) (List.filter (inState StateSkipped) l))%list.
Proof.
  induction l as [|s l IH]; intros st Ht Hp Hr Hall Hnd Hnew.
  - simpl. rewrite !app_nil_r. repeat split; auto.
  - apply Forall_cons in Hall. destruct Hall as [Hs Hall].
    apply Forall_cons in Hnew. destruct Hnew as [(Hsc & Hsf & Hss) Hnew].
    unfold taskIds in Hnd. simpl in Hnd. apply NoDup_cons in Hnd.
    destruct Hnd as [Hnotin Hnd].
    cbn [fold_left].
    destruct (restore_finished s st Ht Hp Hr Hs)
      as (item & Hsum & Ht1 & Hp1 & Hr1 & Hc1 & Hf1 & Hk1).
    set (st1 := restore clock s st) in *.
    assert (Hfresh : forall s', In s' l -> id (sTask s) <> id (sTask s')).
    { intros s' Hin Heq. apply Hnotin. rewrite Heq.
      apply list_elem_of_fmap. exists s'. split; [reflexivity |].
      now apply list_elem_of_In. }
    destruct (IH st1) as (H1 & H2 & H3 & H4 & H5 & H6); auto.
    { rewrite Forall_forall in Hnew |- *. intros s' Hin.
      destruct (Hnew s' Hin) as (Hc' & Hf' & Hk').
      assert (Hne : String.eqb (id (sTask s)) (id (sTask s')) = false).
      { apply String.eqb_neq. apply Hfresh. now apply list_elem_of_In. }
      rewrite Hc1, Hf1, Hk1.
      destruct (inState StateCompleted s), (inState StateFailed s),
        (inState StateSkipped s);
        rewrite ?MemoryQueueProps.mhas_mset, ?Hne; auto. }
    split; [exact H1 |]. split; [exact H2 |]. split; [exact H3 |].
    rewrite H4, H5, H6, Hc1, Hf1, Hk1. clear H4 H5 H6.
    assert (Hattempts : restoredAs (restoredAttempts s) s = summary item) by auto.
    unfold restoredAttempts in Hattempts. cbn [List.filter].
    assert (Hstate : sState s = StateCompleted \/ sState s = StateSkipped \/
                     sState s = StateFailed) by (unfold finished in Hs; tauto).
    destruct Hstate as [E | [E | E]]; rewrite E in Hattempts;
      assert (Ec : inState StateCompleted s = _) by (unfold inState; rewrite E; reflexivity);
      assert (Ef : inState StateFailed s = _) by (unfold inState; rewrite E; reflexivity);
      assert (Ek : inState StateSkipped s = _) by (unfold inState; rewrite E; reflexivity);
      rewrite Ec, Ef, Ek;
      rewrite ?mvalues_mset_new by assumption;
      rewrite ?map_app; cbn [map]; rewrite <- ?app_assoc; cbn [app];
      rewrite <- ?Hattempts; repeat split; reflexivity.
Qed.

(** X15: loading a version-1 snapshot that holds no pending or running
    item, whose failed items have a budget of at most 2 attempts and whose
    task ids are distinct, does not throw and files every item in the
    partition it was stored in, in the order of the snapshot; completed
    items have 1 attempt afterwards, failed ones 2 and skipped ones 0. *)
Theorem load_finished_items (snapshot : QueueSnapshot) (q : MemoryTaskQueue) :
  version snapshot = 1 ->
  Forall finished (items snapshot) ->
  NoDup (taskIds (items snapshot)) ->
  threw (load clock snapshot q) = false /\
  pending (queue (load clock snapshot q)) = [] /\
  running (queue (load clock snapshot q)) = [] /\
  map summary (mvalues (completedItems (queue (load clock snapshot q)))) =
    map (restoredAs 1) (List.filter (inState StateCompleted) (items snapshot)) /\
  map summary (mvalues (failed (queue (load clock snapshot q)))) =
    map (restoredAs 2) (List.filter (inState StateFailed) (items snapshot)) /\
  map summary (mvalues (skipped (queue (load clock snapshot q)))) =
    map (restoredAs 0) (List.filter (inState StateSkipped) (items snapshot)).
Proof.
  intros Hv Hall Hnd. unfold load. rewrite Hv. cbn [Z.eqb Pos.eqb negb].
  destruct (restore_all_finished (items snapshot)
              {| calls := 0; queue := clear q; threw := false |})
    as (H1 & H2 & H3 & H4 & H5 & H6); auto.
  { rewrite Forall_forall. intros s _. repeat split; reflexivity. }
  repeat split; assumption.
Qed.

End LoadProps.

(** X14 for a completed task restored after a pending one of the same
    priority. *)
Lemma restore_completed_behind_pending_witness :
  completedItems (queue
    (restore (fun n => 1000 + Z.of_nat n)
       {| sTask := mkTask "T2"; sPriority := normal; sEnqueuedAt := 11;
          sStartedAt := Some 20; sCompletedAt := Some 30; sAttempts := 1;
          sMaxAttempts := 3; sState := StateCompleted |}
       {| calls := 1; queue := pendingOnly (freshItem 1000 (mkTask "T1") normal 3);
          threw := false |})) = [].
Proof.
  refine (proj1 (proj2 (restore_completed_behind_pending (fun n => 1000 + Z.of_nat n)
            {| sTask := mkTask "T2"; sPriority := normal; sEnqueuedAt := 11;
               sStartedAt := Some 20; sCompletedAt := Some 30; sAttempts := 1;
               sMaxAttempts := 3; sState := StateCompleted |}
            {| calls := 1; queue := pendingOnly (freshItem 1000 (mkTask "T1") normal 3);
               threw := false |}
            (freshItem 1000 (mkTask "T1") normal 3) _ _ _ _ _ _ _))).
  - reflexivity.
  - reflexivity.
  - reflexivity.
  - reflexivity.
  - reflexivity.
  - discriminate.
  - right. split; [reflexivity |]. vm_compute. discriminate.
Defined.

(** X15 for a completed and a skipped item. *)
Lemma load_finished_items_witness :
  pending (queue
    (load (fun n => 1000 + Z.of_nat n)
       {| snapshotName := "q"; version := 1; createdAt := 0; updatedAt := 0;
          items := [ {| sTask := mkTask "T1"; sPriority := normal;
                        sEnqueuedAt := 10; sStartedAt := Some 20;
                        sCompletedAt := Some 30; sAttempts := 1;
                        sMaxAttempts := 3; sState := StateCompleted |};
                     {| sTask := mkTask "T2"; sPriority := high;
                        sEnqueuedAt := 11; sStartedAt := None;
                        sCompletedAt := Some 31; sAttempts := 0;
                        sMaxAttempts := 3; sState := StateSkipped |} ] |}
       emptyQueue)) = [].
Proof.
  refine (proj1 (proj2 (load_finished_items (fun n => 1000 + Z.of_nat n)
            {| snapshotName := "q"; version := 1; createdAt := 0; updatedAt := 0;
               items := [ {| sTask := mkTask "T1"; sPriority := normal;
                             sEnqueuedAt := 10; sStartedAt := Some 20;
                             sCompletedAt := Some 30; sAttempts := 1;
                             sMaxAttempts := 3; sState := StateCompleted |};
                          {| sTask := mkTask "T2"; sPriority := high;
                             sEnqueuedAt := 11; sStartedAt := None;
                             sCompletedAt := Some 31; sAttempts := 0;
                             sMaxAttempts := 3; sState := StateSkipped |} ] |}
            emptyQueue _ _ _))).
  - reflexivity.
  - constructor; [left; reflexivity |].
    constructor; [right; left; reflexivity |]. constructor.
  - unfold taskIds. cbn [map sTask id mkTask items].
    apply NoDup_cons. split; [| apply NoDup_singleton].
    intros H. apply list_elem_of_singleton in H. discriminate.
Defined.

(** X13 for a failed task with the default budget of 3 attempts. *)
Lemma restore_failed_item_witness :
  map summary
    (mvalues (pending (queue
       (restore (fun n => 1000 + Z.of_nat n)
          {| sTask := mkTask "T1"; sPriority := normal; sEnqueuedAt := 10;
             sStartedAt := Some 20; sCompletedAt := Some 30; sAttempts := 3;
             sMaxAttempts := 3; sState := StateFailed |}
          {| calls := 0; queue := emptyQueue; threw := false |})))) =
  [(mkTask "T1", normal, 2, 3)].
Proof.
  refine (proj1 (proj1 (proj2 (proj2 (restore_failed_item (fun n => 1000 + Z.of_nat n)
            {| sTask := mkTask "T1"; sPriority := normal; sEnqueuedAt := 10;
               sStartedAt := Some 20; sCompletedAt := Some 30; sAttempts := 3;
               sMaxAttempts := 3; sState := StateFailed |}
            {| calls := 0; queue := emptyQueue; threw := false |} _ _ _ _))) _));
    try reflexivity.
Defined.

(** X12 for a pending and a running item. *)
Lemma load_unfinished_items_witness :
  map summary
    (mvalues (pending (queue
       (load (fun n => 1000 + Z.of_nat n)
          {| snapshotName := "q"; version := 1; createdAt := 0; updatedAt := 0;
             items := [ {| sTask := mkTask "T1"; sPriority := normal;
                           sEnqueuedAt := 10; sStartedAt := None;
                           sCompletedAt := None; sAttempts := 0;
                           sMaxAttempts := 3; sState := StatePending |};
                        {| sTask := mkTask "T2"; sPriority := high;
                           sEnqueuedAt := 11; sStartedAt := Some 20;
                           sCompletedAt := None; sAttempts := 1;
                           sMaxAttempts := 3; sState := StateRunning |} ] |}
          emptyQueue)))) =
  [(mkTask "T1", normal, 0, 3); (mkTask "T2", high, 0, 3)].
Proof.
  refine (proj1 (proj2 (load_unfinished_items (fun n => 1000 + Z.of_nat n)
            {| snapshotName := "q"; version := 1; createdAt := 0; updatedAt := 0;
               items := [ {| sTask := mkTask "T1"; sPriority := normal;
                             sEnqueuedAt := 10; sStartedAt := None;
                             sCompletedAt := None; sAttempts := 0;
                             sMaxAttempts := 3; sState := StatePending |};
                          {| sTask := mkTask "T2"; sPriority := high;
                             sEnqueuedAt := 11; sStartedAt := Some 20;
                             sCompletedAt := None; sAttempts := 1;
                             sMaxAttempts := 3; sState := StateRunning |} ] |}
            emptyQueue _ _ _))).
  - reflexivity.
  - constructor; [left; reflexivity |]. constructor; [right; reflexivity |].
    constructor.
  - unfold taskIds. cbn [map sTask id mkTask items].
    apply NoDup_cons. split; [| apply NoDup_singleton].
    intros H. apply list_elem_of_singleton in H. discriminate.
Defined.

End FileQueueProps.

(** ** Claims, statistics and resets of the task state manager *)

Module TaskStateOpsProps.
Import TaskState TaskStateOps.

Lemma append_inj_r (p a b : string) : p +:+ a = p +:+ b -> a = b.
Proof.
  induction p as [|c p IH]; intros H; [exact H |].
  change (String c (p +:+ a) = String c (p +:+ b)) in H.
  injection H as H. now apply IH.
Qed.

Lemma buildTaskKey_inj (m : TaskStateManager) (i j : string) :
  buildTaskKey m i = buildTaskKey m j -> i = j.
Proof.
  unfold buildTaskKey. intros H.
  now repeat apply append_inj_r in H.
Qed.

Lemma count_empty (s : TaskState) : count s ∅ = 0%nat.
Proof. unfold count. now rewrite map_filter_empty, map_size_empty. Qed.

Lemma count_insert (s : TaskState) (entries : gmap string TaskStateEntry)
    (k : string) (e : TaskStateEntry) :
  entries !! k = None ->
  count s (<[k := e]> entries) =
  (count s entries + if decide (state e = s) then 1 else 0)%nat.
Proof.
  intros Hk. unfold count. rewrite map_filter_insert. cbn [snd].
  destruct (decide (state e = s)) as [Hs | Hs].
  - rewrite map_size_insert_None; [lia |].
    apply map_lookup_filter_None. left. exact Hk.
  - rewrite (delete_id _ _ Hk). lia.
Qed.

Lemma countOther_insert (entries : gmap string TaskStateEntry)
    (k : string) (e : TaskStateEntry) :
  entries !! k = None ->
  countOther (<[k := e]> entries) =
  (countOther entries + if isOtherState (state e) then 1 else 0)%nat.
Proof.
  intros Hk. unfold countOther. rewrite map_filter_insert. cbn [snd].
  destruct (isOtherState (state e)) eqn:Hs.
  - rewrite decide_True by reflexivity.
    rewrite map_size_insert_None; [lia |].
    apply map_lookup_filter_None. left. exact Hk.
  - rewrite decide_False by discriminate.
    rewrite (delete_id _ _ Hk). lia.
Qed.

Lemma countOther_valid (entries : gmap string TaskStateEntry) :
  (forall k e, entries !! k = Some e -> isOtherState (state e) = false) ->
  countOther entries = 0%nat.
Proof.
  induction entries as [|k e entries Hk IH] using map_ind; intros Hvalid.
  - unfold countOther. now rewrite map_filter_empty, map_size_empty.
  - rewrite countOther_insert by exact Hk.
    rewrite (Hvalid k e) by apply lookup_insert_eq.
    rewrite IH; [reflexivity |].
    intros k' e' He'. apply (Hvalid k').
    rewrite lookup_insert_ne; [exact He' |]. intros ->. congruence.
Qed.

Section OperationsProps.

Variable print : StateFormat -> StateFileFormat -> string.

(** X18: the counts of [getStats] account for every entry.  The six
    counts and the number of entries whose state is none of the six values of
    the enum add up to the total; for a manager whose entries all carry one
    of the six states the six counts add up to the total. *)
Theorem stats_add_up (m : TaskStateManager) :
  total (getStats m) =
  (pending (getStats m) + running (getStats m) + completed (getStats m) +
   failed (getStats m) + deferred (getStats m) + skipped (getStats m) +
   countOther (managed m))%nat /\
  ((forall k e, managed m !! k = Some e -> isOtherState (state e) = false) ->
   total (getStats m) =
   (pending (getStats m) + running (getStats m) + completed (getStats m) +
    failed (getStats m) + deferred (getStats m) + skipped (getStats m))%nat).
Proof.
  assert (Hall : total (getStats m) =
    (pending (getStats m) + running (getStats m) + completed (getStats m) +
     failed (getStats m) + deferred (getStats m) + skipped (getStats m) +
     countOther (managed m))%nat).
  { unfold getStats, getTasksByState. cbn [total pending running completed failed
                                           deferred skipped].
    fold (count PENDING (managed m)). fold (count RUNNING (managed m)).
    fold (count COMPLETED (managed m)). fold (count FAILED (managed m)).
    fold (count DEFERRED (managed m)). fold (count SKIPPED (managed m)).
    induction (managed m) as [|k e entries Hk IH] using map_ind.
    - unfold countOther.
      now rewrite map_filter_empty, map_size_empty, !count_empty.
    - rewrite map_size_insert_None by exact Hk.
      rewrite !count_insert, countOther_insert by exact Hk. rewrite IH.
      destruct (state e); simpl; lia. }
  split; [exact Hall |].
  intros Hvalid. rewrite Hall.
  rewrite (countOther_valid _ Hvalid). lia.
Qed.

Lemma count_reset (s : TaskState) (entries : gmap string TaskStateEntry) :
  count s ((fun e => if isFailedOrSkipped e then resetEntry e else e) <$> entries) =
  match s with
  | PENDING => (count PENDING entries + count FAILED entries + count SKIPPED entries)%nat
  | FAILED | SKIPPED => 0%nat
  | _ => count s entries
  end.
Proof.
  induction entries as [|k e entries Hk IH] using map_ind.
  - rewrite fmap_empty, !count_empty. now destruct s.
  - rewrite fmap_insert.
    rewrite count_insert by (rewrite lookup_fmap, Hk; reflexivity).
    rewrite IH, !count_insert by exact Hk.
    unfold isFailedOrSkipped, resetEntry.
    destruct s, (state e) eqn:He; cbn [state]; rewrite ?He;
      repeat match goal with
             | |- context [decide (?a = ?b)] => destruct (decide (a = b)); try congruence
             end; lia.
Qed.

Lemma managed_resetAllFailed (stamp : string) (m : TaskStateManager) :
  managed (snd (resetAllFailed print stamp m)) =
  (fun e => if isFailedOrSkipped e then resetEntry e else e) <$> managed m.
Proof.
  unfold resetAllFailed. cbn [snd]. now destruct (0 <? _)%nat.
Qed.

Lemma count_failed_or_skipped (entries : gmap string TaskStateEntry) :
  size (filter (fun kv : string * TaskStateEntry => isFailedOrSkipped (snd kv) = true)
          entries) =
  (count FAILED entries + count SKIPPED entries)%nat.
Proof.
  induction entries as [|k e entries Hk IH] using map_ind.
  - now rewrite map_filter_empty, map_size_empty, !count_empty.
  - rewrite !count_insert by exact Hk. rewrite map_filter_insert. cbn [snd].
    unfold isFailedOrSkipped in *.
    destruct (state e) eqn:He;
      repeat match goal with
             | |- context [decide (?a = ?b)] => destruct (decide (a = b)); try congruence
             end;
      rewrite ?(delete_id _ _ Hk);
      try (rewrite map_size_insert_None
             by (apply map_lookup_filter_None; left; exact Hk));
      lia.
Qed.

(** X19: [resetAllFailed] returns the number of failed and skipped
    entries; afterwards none is failed or skipped, the pending ones are
    that many more, and the other counts and the total are as before. *)
Theorem resetAllFailed_requeues (stamp : string) (m : TaskStateManager) :
  fst (resetAllFailed print stamp m) =
    (failed (getStats m) + skipped (getStats m))%nat /\
  failed (getStats (snd (resetAllFailed print stamp m))) = 0%nat /\
  skipped (getStats (snd (resetAllFailed print stamp m))) = 0%nat /\
  pending (getStats (snd (resetAllFailed print stamp m))) =
    (pending (getStats m) + fst (resetAllFailed print stamp m))%nat /\
  running (getStats (snd (resetAllFailed print stamp m))) = running (getStats m) /\
  completed (getStats (snd (resetAllFailed print stamp m))) = completed (getStats m) /\
  deferred (getStats (snd (resetAllFailed print stamp m))) = deferred (getStats m) /\
  total (getStats (snd (resetAllFailed print stamp m))) = total (getStats m).
Proof.
  unfold getStats, getTasksByState.
  cbn [total pending running completed failed deferred skipped].
  rewrite managed_resetAllFailed.
  change (resetAllFailed print stamp m).1 with
    (size (filter (fun kv : string * TaskStateEntry =>
                     isFailedOrSkipped (snd kv) = true) (managed m))).
  rewrite count_failed_or_skipped.
  repeat match goal with
         | |- context [size (filter (fun kv => state (snd kv) = ?s) ?e)] =>
             change (size (filter (fun kv => state (snd kv) = s) e)) with (count s e)
         end.
  rewrite !count_reset, map_size_fmap. repeat split; lia.
Qed.

Lemma key_persistState (stamp : string) (m : TaskStateManager) (i : string) :
  buildTaskKey (persistState print stamp m) i = buildTaskKey m i.
Proof. reflexivity. Qed.

Lemma key_call (c : string * Call) (m : TaskStateManager) (i : string) :
  buildTaskKey (call print c m) i = buildTaskKey m i.
Proof.
  destruct c as [stamp op]. destruct op; simpl.
  - unfold claimTaskForExecution.
    destruct (managed m !! buildTaskKey m i0) as [e|]; [| reflexivity].
    destruct (state e); reflexivity.
  - unfold transitionState.
    destruct (managed m !! buildTaskKey m i0); reflexivity.
  - unfold resetTask. destruct (managed m !! buildTaskKey m i0); reflexivity.
  - unfold resetAllFailed. cbn [snd]. destruct (0 <? _)%nat; reflexivity.
  - reflexivity.
Qed.

Lemma blocked_call (i : string) (c : string * Call) (m : TaskStateManager) :
  blocked i m -> requeues i (snd c) = false -> blocked i (call print c m).
Proof.
  intros Hb Hc e. rewrite key_call.
  destruct c as [stamp op]. cbn [snd] in Hc. destruct op; simpl.
  - unfold claimTaskForExecution.
    destruct (managed m !! buildTaskKey m i0) as [e0|] eqn:H0; [| apply Hb].
    destruct (state e0) eqn:Hs0; try apply Hb.
    cbn [snd persistState managed setManaged].
    destruct (decide (buildTaskKey m i0 = buildTaskKey m i)) as [Heq | Hne].
    + rewrite Heq, lookup_insert_eq. intros [= <-]. discriminate.
    + rewrite lookup_insert_ne by exact Hne. apply Hb.
  - unfold transitionState.
    destruct (managed m !! buildTaskKey m i0) as [e0|] eqn:H0; [| apply Hb].
    cbn [persistState managed setManaged].
    destruct (decide (buildTaskKey m i0 = buildTaskKey m i)) as [Heq | Hne].
    + rewrite Heq, lookup_insert_eq. intros [= <-]. cbn [state].
      apply buildTaskKey_inj in Heq. subst i0.
      cbn [requeues] in Hc. rewrite String.eqb_refl in Hc. cbn [andb] in Hc.
      intros ->. now rewrite bool_decide_eq_true_2 in Hc.
    + rewrite lookup_insert_ne by exact Hne. apply Hb.
  - unfold resetTask.
    destruct (managed m !! buildTaskKey m i0) as [e0|] eqn:H0; [| apply Hb].
    cbn [persistState managed setManaged].
    destruct (decide (buildTaskKey m i0 = buildTaskKey m i)) as [Heq | Hne].
    + apply buildTaskKey_inj in Heq. subst i0.
      cbn [requeues] in Hc. now rewrite String.eqb_refl in Hc.
    + rewrite lookup_insert_ne by exact Hne. apply Hb.
  - discriminate.
  - unfold resetAllAttemptCounts. cbn [persistState managed setManaged].
    rewrite lookup_fmap.
    destruct (managed m !! buildTaskKey m i) as [e0|] eqn:H0; [| discriminate].
    intros [= <-]. cbn [state]. now apply Hb.
Qed.

Lemma blocked_refuses (i : string) (now : Z) (stamp : string) (m : TaskStateManager) :
  blocked i m -> fst (claimTaskForExecution print now stamp i m) = false.
Proof.
  intros Hb. unfold claimTaskForExecution.
  destruct (managed m !! buildTaskKey m i) as [e|] eqn:He; [| reflexivity].
  specialize (Hb e He). destruct (state e); try reflexivity. congruence.
Qed.

Lemma granted_blocks (i : string) (now : Z) (stamp : string) (m : TaskStateManager) :
  fst (claimTaskForExecution print now stamp i m) = true ->
  blocked i (snd (claimTaskForExecution print now stamp i m)).
Proof.
  unfold claimTaskForExecution, blocked.
  destruct (managed m !! buildTaskKey m i) as [e|] eqn:He; [| discriminate].
  destruct (state e) eqn:Hs; try discriminate.
  intros _ e'. cbn [snd]. rewrite key_persistState.
  cbn [persistState managed setManaged buildTaskKey sourceType sourcePath].
  fold (buildTaskKey m i). rewrite lookup_insert_eq. intros [= <-]. discriminate.
Qed.

Lemma blocked_grants_nothing (i : string) (cs : list (string * Call)) :
  forall m, blocked i m ->
    Forall (fun c => requeues i (snd c) = false) cs ->
    granted print i cs m = 0%nat.
Proof.
  induction cs as [|c cs IH]; intros m Hb Hcs; [reflexivity |].
  apply Forall_cons in Hcs. destruct Hcs as [Hc Hcs].
  cbn [granted]. rewrite (IH _ (blocked_call i c m Hb Hc) Hcs).
  destruct c as [stamp op]. destruct op; try reflexivity. cbn [snd fst].
  destruct (String.eqb_spec i0 i) as [-> | Hne]; [| reflexivity].
  now rewrite (blocked_refuses i now stamp m Hb).
Qed.

(** X17: a task is handed out at most once.  Among any calls of the
    manager of which none puts the task back to pending (a transition of
    the task to pending, [resetTask] of the task, [resetAllFailed]), at
    most one [claimTaskForExecution] of the task answers true. *)
Theorem claim_granted_once (i : string) (cs : list (string * Call))
    (m : TaskStateManager) :
  Forall (fun c => requeues i (snd c) = false) cs ->
  (granted print i cs m <= 1)%nat.
Proof.
  revert m. induction cs as [|c cs IH]; intros m Hcs; [simpl; lia |].
  apply Forall_cons in Hcs. destruct Hcs as [Hc Hcs].
  cbn [granted].
  destruct c as [stamp op].
  destruct op; cbn [snd fst];
    try (apply (IH (call print _ m) Hcs)).
  destruct (String.eqb_spec i0 i) as [-> | Hne]; cbn [andb];
    [| specialize (IH (call print (stamp, Claim now i0) m) Hcs); lia].
  destruct (fst (claimTaskForExecution print now stamp i m)) eqn:Hg;
    [| specialize (IH (call print (stamp, Claim now i) m) Hcs); lia].
  rewrite (blocked_grants_nothing i cs); [lia | | exact Hcs].
  cbn [call]. now apply granted_blocks.
Qed.

End OperationsProps.

(** X18 for a manager with a pending and a running entry. *)
Lemma stats_add_up_witness :
  total (getStats
           {| sourceType := "yaml"; sourcePath := "tasks.yaml"; format := yaml;
              managed := {[ "yaml:tasks.yaml:1" := recoveredEntry;
                            "yaml:tasks.yaml:2" := interruptedEntry ]};
              stateFile := None |}) = 2%nat.
Proof.
  rewrite (proj2 (stats_add_up
                    {| sourceType := "yaml"; sourcePath := "tasks.yaml"; format := yaml;
                       managed := {[ "yaml:tasks.yaml:1" := recoveredEntry;
                                     "yaml:tasks.yaml:2" := interruptedEntry ]};
                       stateFile := None |})).
  - vm_compute. reflexivity.
  - intros k e He. cbn [managed] in He.
    apply lookup_insert_Some in He.
    destruct He as [[_ <-] | [_ He]]; [reflexivity |].
    apply lookup_singleton_Some in He. destruct He as [_ <-]. reflexivity.
Defined.

(** X17 for two claims of the same pending task with a failure between
    them. *)
Lemma claim_granted_once_witness :
  (granted (fun _ _ => EmptyString) "1"
     [(EmptyString, Claim 10 "1");
      (EmptyString, Transition "1" FAILED (Some "boom") None);
      (EmptyString, Claim 20 "1")]
     {| sourceType := "yaml"; sourcePath := "tasks.yaml"; format := yaml;
        managed := {[ "yaml:tasks.yaml:1" := recoveredEntry ]};
        stateFile := None |} <= 1)%nat.
Proof.
  apply (claim_granted_once (fun _ _ => EmptyString) "1"
           [(EmptyString, Claim 10 "1");
            (EmptyString, Transition "1" FAILED (Some "boom") None);
            (EmptyString, Claim 20 "1")]).
  repeat constructor.
Defined.

Section InitializeProps.

Variable parse : StateFormat -> string -> option StateFileFormat.
Variable print : StateFormat -> StateFileFormat -> string.
Variable stringify : StateFileFormat -> string.
Variable timestamp : string.

Lemma mergeTask_other (m : TaskStateManager) (acc : gmap string TaskStateEntry)
    (t : Task) (k : string) :
  buildTaskKey m (taskId t) <> k -> mergeTask m acc t !! k = acc !! k.
Proof.
  intros Hne. unfold mergeTask.
  destruct (acc !! buildTaskKey m (taskId t)); now rewrite lookup_insert_ne.
Qed.

Lemma merge_untouched (m : TaskStateManager) (src : list Task) (k : string) :
  forall acc, k ∉ validKeys m src -> fold_left (mergeTask m) src acc !! k = acc !! k.
Proof.
  induction src as [|t src IH]; intros acc Hk; [reflexivity |].
  cbn [validKeys map] in Hk. apply not_elem_of_cons in Hk. destruct Hk as [Hne Hk].
  cbn [fold_left]. rewrite (IH _ Hk). apply mergeTask_other. congruence.
Qed.

Lemma merge_new (m : TaskStateManager) (src : list Task) (k : string) :
  forall acc,
    (forall e, acc !! k = Some e -> isNew m k e) ->
    forall e, fold_left (mergeTask m) src acc !! k = Some e -> isNew m k e.
Proof.
  induction src as [|t src IH]; intros acc Hacc; [exact Hacc |].
  cbn [fold_left]. apply IH. intros e.
  destruct (decide (buildTaskKey m (taskId t) = k)) as [Heq | Hne].
  - unfold mergeTask. rewrite Heq.
    destruct (acc !! k) as [ex|] eqn:Hex; rewrite lookup_insert_eq; intros [= <-].
    + destruct (Hacc ex eq_refl) as (H1 & H2 & H3 & H4 & H5 & H6).
      repeat split; assumption.
    + repeat split; try reflexivity. exact Heq.
  - rewrite mergeTask_other by exact Hne. apply Hacc.
Qed.

Lemma merge_title (m : TaskStateManager) (src : list Task) (k : string) :
  forall acc,
    k ∈ validKeys m src ->
    exists e t, fold_left (mergeTask m) src acc !! k = Some e /\
                t ∈ src /\ buildTaskKey m (taskId t) = k /\ title e = taskTitle t.
Proof.
  induction src as [|t src IH]; intros acc Hk.
  - now apply not_elem_of_nil in Hk.
  - cbn [fold_left].
    destruct (decide (k ∈ validKeys m src)) as [Hin | Hout].
    + destruct (IH (mergeTask m acc t) Hin) as (e & t' & He & Ht' & Hkey & Htitle).
      exists e, t'. repeat split; auto. now apply elem_of_cons; right.
    + cbn [validKeys map] in Hk. apply elem_of_cons in Hk.
      destruct Hk as [Hk | Hk]; [| contradiction].
      rewrite (merge_untouched m src k _ Hout).
      unfold mergeTask. rewrite <- Hk.
      destruct (acc !! k) as [ex|]; rewrite lookup_insert_eq;
        eexists; exists t; (split; [reflexivity |]);
        (split; [apply elem_of_cons; now left |]); split; auto.
Qed.

(** X16: after [initialize] the manager tracks the source.  It has an
    entry under a key exactly when a task of the source has that key; the
    title of the entry is the title of such a task; and when the loaded
    state had no entry under the key, the entry is pending with no attempt,
    no error and no execution context, and carries the id of the key. *)
Theorem initialize_tracks_source (src : list Task) (m : TaskStateManager)
    (k : string) :
  (is_Some (managed (initialize parse print stringify timestamp src m) !! k) <->
   k ∈ validKeys m src) /\
  (forall e,
     managed (initialize parse print stringify timestamp src m) !! k = Some e ->
     exists t, t ∈ src /\ buildTaskKey m (taskId t) = k /\ title e = taskTitle t) /\
  (match stateFile m with
   | Some content => loadState parse stringify (format m) content
   | None => managed m
   end !! k = None ->
   forall e,
     managed (initialize parse print stringify timestamp src m) !! k = Some e ->
     isNew m k e).
Proof.
  rewrite (TaskStateProps.initialize_managed parse print stringify timestamp).
  set (loaded := match stateFile m with
                 | Some content => loadState parse stringify (format m) content
                 | None => managed m
                 end).
  split; [| split].
  - split.
    + intros [e He]. apply map_lookup_filter_Some in He. destruct He as [_ He].
      cbn [fst] in He. now apply bool_decide_unpack in He.
    + intros Hk.
      destruct (merge_title m src k (resetInterrupted <$> loaded) Hk)
        as (e & _ & He & _).
      exists e. apply map_lookup_filter_Some. split; [exact He |].
      cbn [fst]. now apply bool_decide_pack.
  - intros e He. apply map_lookup_filter_Some in He. destruct He as [He Hk].
    cbn [fst] in Hk. apply bool_decide_unpack in Hk.
    destruct (merge_title m src k (resetInterrupted <$> loaded) Hk)
      as (e' & t & He' & Ht & Hkey & Htitle).
    rewrite He in He'. injection He' as <-. eauto.
  - intros Hnone e He. apply map_lookup_filter_Some in He. destruct He as [He _].
    revert e He. apply merge_new.
    intros e. rewrite lookup_fmap, Hnone. discriminate.
Qed.

End InitializeProps.

End TaskStateOpsProps.

(** ** Granting, refusing and taking over file locks *)

Module LocksMoreProps.
Import Locks.

Section Manager.

Variable normalizePathForLocking : string -> string -> string.
Variable sha256hex : string -> string.
Variable lockOwner : string.
Variable clock : nat -> Z.

Local Abbreviation afterCleanup := (LockSteps.afterCleanup lockOwner clock).

Lemma acquireAttempts_S (r : nat) (np workDir : string) (reentrant : bool) (w : World) :
  acquireAttempts sha256hex lockOwner clock (S r) np workDir reentrant w =
  let now := clock (tick w) in
  let w2 := afterCleanup workDir w in
  let lockFile := getLockFilePath sha256hex np workDir in
  match match locks w2 !! np with
        | Some existing =>
            if now - timestamp existing <? timeout existing then Some existing else None
        | None => None
        end with
  | Some existing =>
      if String.eqb (owner existing) lockOwner && reentrant
      then (true, refreshLock sha256hex clock np workDir w2)
      else (false, w2)
  | None =>
      match disk w2 !! lockFile with
      | None =>
          let lockInfo := {| timestamp := now; timeout := LOCK_TIMEOUT_MS;
                             owner := lockOwner; refreshCount := 0 |} in
          (true,
           setLocks (<[np := lockInfo]> (locks w2))
                    (setDisk (<[lockFile := Written lockInfo]> (disk w2)) w2))
      | Some content =>
          if staleOnAcquire now content
          then acquireAttempts sha256hex lockOwner clock r np workDir reentrant
                 (setDisk (delete lockFile (disk w2)) w2)
          else acquireAttempts sha256hex lockOwner clock r np workDir reentrant w2
      end
  end.
Proof. reflexivity. Qed.

Lemma tick_afterCleanup (workDir : string) (w : World) :
  (tick w < tick (afterCleanup workDir w))%nat.
Proof.
  unfold LockSteps.afterCleanup, cleanupStaleLockFiles, cleanupStaleLocks, dateNow. simpl.
  destruct (_ >? _); simpl; [| lia].
  destruct (_ <? _)%nat; simpl; lia.
Qed.

(** The cleanup adds no entry to the registry. *)
Lemma locks_afterCleanup (workDir : string) (w : World) (k : string) (v : LockInfo) :
  locks (afterCleanup workDir w) !! k = Some v -> locks w !! k = Some v.
Proof.
  unfold LockSteps.afterCleanup, cleanupStaleLockFiles, cleanupStaleLocks, dateNow. simpl.
  destruct (_ >? _); simpl; [| auto].
  destruct (_ <? _)%nat; simpl; intros H.
  - apply map_lookup_filter_Some in H. destruct H as [H _].
    apply map_lookup_filter_Some in H. now destruct H.
  - apply map_lookup_filter_Some in H. now destruct H.
Qed.

(** The cleanup adds and changes no lock file. *)
Lemma disk_afterCleanup (workDir : string) (w : World) (f : string * string)
    (c : LockFile) :
  disk (afterCleanup workDir w) !! f = Some c -> disk w !! f = Some c.
Proof.
  unfold LockSteps.afterCleanup, cleanupStaleLockFiles, cleanupStaleLocks, dateNow. simpl.
  destruct (_ >? _); simpl; [| auto].
  destruct (_ <? _)%nat; simpl; intros H;
    apply map_lookup_filter_Some in H; now destruct H.
Qed.

(** The cleanup keeps a lock file that is live at every reading of the
    time from now on. *)
Lemma disk_afterCleanup_live (workDir : string) (w : World) (f : string * string)
    (info : LockInfo) :
  disk w !! f = Some (Written info) ->
  (forall n, (tick w <= n)%nat -> clock n - timestamp info < timeout info) ->
  disk (afterCleanup workDir w) !! f = Some (Written info).
Proof.
  intros Hf Hlive.
  unfold LockSteps.afterCleanup, cleanupStaleLockFiles, cleanupStaleLocks, dateNow. simpl.
  destruct (_ >? _); simpl; [| exact Hf].
  assert (Hkeep : forall n, (tick w <= n)%nat ->
            negb (String.eqb (fst f) (lockDirOf workDir) &&
                  endsWith ".lock" (snd f) &&
                  staleOnCleanup (clock n) (Written info)) = true).
  { intros n Hn. cbn [staleOnCleanup].
    replace (clock n - timestamp info >=? timeout info) with false.
    - now rewrite andb_false_r.
    - symmetry. rewrite Z.geb_leb. apply Z.leb_gt. now apply Hlive. }
  destruct (_ <? _)%nat; simpl;
    apply map_lookup_filter_Some; (split; [exact Hf |]); cbn [fst snd];
    apply Is_true_true; apply Hkeep; lia.
Qed.

(** X20: a granted lock is recorded under this process's name.  When
    [acquireFileLock] answers true, the registry holds an entry for the
    normalized path whose owner is this process, and the lock file of the
    path holds the same entry. *)
Theorem acquire_records_owner (filePath workDir : string) (maxRetries : nat)
    (allowReentrant : bool) (w : World) :
  fst (acquireFileLock normalizePathForLocking sha256hex lockOwner clock
         filePath workDir maxRetries allowReentrant w) = true ->
  exists info,
    owner info = lockOwner /\
    locks (snd (acquireFileLock normalizePathForLocking sha256hex lockOwner clock
                  filePath workDir maxRetries allowReentrant w))
      !! normalizePathForLocking filePath workDir = Some info /\
    disk (snd (acquireFileLock normalizePathForLocking sha256hex lockOwner clock
                 filePath workDir maxRetries allowReentrant w))
      !! getLockFilePath sha256hex (normalizePathForLocking filePath workDir) workDir
      = Some (Written info).
Proof.
  unfold acquireFileLock.
  set (np := normalizePathForLocking filePath workDir).
  revert w. induction maxRetries as [|r IH]; intros w; [discriminate |].
  rewrite acquireAttempts_S. cbv zeta.
  set (w2 := afterCleanup workDir w).
  destruct (locks w2 !! np) as [existing|] eqn:Hmem.
  - destruct (clock (tick w) - timestamp existing <? timeout existing).
    + destruct (String.eqb_spec (owner existing) lockOwner) as [Hown | Hown];
        cbn [andb]; [| discriminate].
      destruct allowReentrant; [| discriminate].
      intros _. cbn [snd]. unfold refreshLock. rewrite Hmem. simpl.
      eexists. split; [| split; apply lookup_insert_eq]. exact Hown.
    + destruct (disk w2 !! getLockFilePath sha256hex np workDir) as [content|].
      * destruct (staleOnAcquire (clock (tick w)) content); apply IH.
      * intros _. simpl. eexists. split; [| split; apply lookup_insert_eq].
        reflexivity.
  - destruct (disk w2 !! getLockFilePath sha256hex np workDir) as [content|].
    + destruct (staleOnAcquire (clock (tick w)) content); apply IH.
    + intros _. simpl. eexists. split; [| split; apply lookup_insert_eq].
      reflexivity.
Qed.

(** X21: a live lock of another process is respected.  When the lock
    file of the path holds an entry that is live at every reading of the
    time from now on, and the registry of this process has no entry for the
    path, [acquireFileLock] answers false whatever the number of attempts,
    and leaves the lock file as it is. *)
Theorem live_lock_file_blocks (filePath workDir : string) (maxRetries : nat)
    (allowReentrant : bool) (w : World) (info : LockInfo) :
  locks w !! normalizePathForLocking filePath workDir = None ->
  disk w !! getLockFilePath sha256hex (normalizePathForLocking filePath workDir) workDir
    = Some (Written info) ->
  (forall n, (tick w <= n)%nat -> clock n - timestamp info < timeout info) ->
  fst (acquireFileLock normalizePathForLocking sha256hex lockOwner clock
         filePath workDir maxRetries allowReentrant w) = false /\
  locks (snd (acquireFileLock normalizePathForLocking sha256hex lockOwner clock
                filePath workDir maxRetries allowReentrant w))
    !! normalizePathForLocking filePath workDir = None /\
  disk (snd (acquireFileLock normalizePathForLocking sha256hex lockOwner clock
               filePath workDir maxRetries allowReentrant w))
    !! getLockFilePath sha256hex (normalizePathForLocking filePath workDir) workDir
    = Some (Written info).
Proof.
  unfold acquireFileLock.
  set (np := normalizePathForLocking filePath workDir).
  revert w. induction maxRetries as [|r IH]; intros w Hmem Hfile Hlive.
  - simpl. auto.
  - rewrite acquireAttempts_S. cbv zeta.
    pose proof (tick_afterCleanup workDir w) as Htick.
    pose proof (disk_afterCleanup_live workDir w _ info Hfile Hlive) as Hfile2.
    assert (Hmem2 : locks (afterCleanup workDir w) !! np = None).
    { destruct (locks (afterCleanup workDir w) !! np) as [v|] eqn:Hv; [| reflexivity].
      apply locks_afterCleanup in Hv. congruence. }
    rewrite Hmem2, Hfile2. cbn [staleOnAcquire].
    replace (clock (tick w) - timestamp info >=? timeout info) with false.
    + apply IH; [exact Hmem2 | exact Hfile2 |].
      intros n Hn. apply Hlive. lia.
    + symmetry. rewrite Z.geb_leb. apply Z.leb_gt. apply Hlive. lia.
Qed.

(** A path that is free, in the registry and on disk, is granted at the
    first attempt. *)
Lemma free_path_granted (r : nat) (np workDir : string) (reentrant : bool) (w : World) :
  locks w !! np = None ->
  disk w !! getLockFilePath sha256hex np workDir = None ->
  fst (acquireAttempts sha256hex lockOwner clock (S r) np workDir reentrant w) = true.
Proof.
  intros Hmem Hfile. rewrite acquireAttempts_S. cbv zeta.
  assert (Hmem2 : locks (afterCleanup workDir w) !! np = None).
  { destruct (locks (afterCleanup workDir w) !! np) as [v|] eqn:Hv; [| reflexivity].
    apply locks_afterCleanup in Hv. congruence. }
  assert (Hfile2 : disk (afterCleanup workDir w)
                     !! getLockFilePath sha256hex np workDir = None).
  { destruct (disk (afterCleanup workDir w) !! _) as [c|] eqn:Hc; [| reflexivity].
    apply disk_afterCleanup in Hc. congruence. }
  now rewrite Hmem2, Hfile2.
Qed.

(** X22: a stale lock file does not block.  When the registry has no
    entry for the path and its lock file is blank, unparseable or expired
    at the first reading of the time, [acquireFileLock] with two or more
    attempts answers true: the file is removed, by the cleanup when one is
    due or else by the first attempt, and the lock is taken.  With a single
    attempt and no cleanup due, the call removes the file and answers false:
    the attempt that removes the file does not take the lock. *)
Theorem stale_lock_file_taken_over (filePath workDir : string) (retries : nat)
    (allowReentrant : bool) (w : World) (content : LockFile) :
  locks w !! normalizePathForLocking filePath workDir = None ->
  disk w !! getLockFilePath sha256hex (normalizePathForLocking filePath workDir) workDir
    = Some content ->
  staleOnAcquire (clock (tick w)) content = true ->
  fst (acquireFileLock normalizePathForLocking sha256hex lockOwner clock
         filePath workDir (S (S retries)) allowReentrant w) = true /\
  (clock (tick w) - lastLockCleanup w <= LOCK_CLEANUP_INTERVAL_MS ->
   fst (acquireFileLock normalizePathForLocking sha256hex lockOwner clock
          filePath workDir 1 allowReentrant w) = false /\
   locks (snd (acquireFileLock normalizePathForLocking sha256hex lockOwner clock
                 filePath workDir 1 allowReentrant w))
     !! normalizePathForLocking filePath workDir = None /\
   disk (snd (acquireFileLock normalizePathForLocking sha256hex lockOwner clock
                filePath workDir 1 allowReentrant w))
     !! getLockFilePath sha256hex (normalizePathForLocking filePath workDir) workDir
     = None).
Proof.
  unfold acquireFileLock.
  set (np := normalizePathForLocking filePath workDir).
  intros Hmem Hfile Hstale.
  assert (Hmem2 : locks (afterCleanup workDir w) !! np = None).
  { destruct (locks (afterCleanup workDir w) !! np) as [v|] eqn:Hv; [| reflexivity].
    apply locks_afterCleanup in Hv. congruence. }
  split.
  - rewrite acquireAttempts_S. cbv zeta. rewrite Hmem2.
    destruct (disk (afterCleanup workDir w) !! getLockFilePath sha256hex np workDir)
      as [c|] eqn:Hc; [| reflexivity].
    apply disk_afterCleanup in Hc. rewrite Hfile in Hc. injection Hc as <-.
    rewrite Hstale.
    apply free_path_granted; [exact Hmem2 | apply lookup_delete_eq].
  - intros Hdue. rewrite acquireAttempts_S. cbv zeta. rewrite Hmem2.
    assert (Hsame : disk (afterCleanup workDir w)
                      !! getLockFilePath sha256hex np workDir = Some content).
    { unfold LockSteps.afterCleanup, dateNow. cbn [snd lastLockCleanup].
      replace (clock (tick w) - lastLockCleanup w >? LOCK_CLEANUP_INTERVAL_MS)
        with false by (symmetry; rewrite Z.gtb_ltb; apply Z.ltb_ge; exact Hdue).
      exact Hfile. }
    rewrite Hsame, Hstale. cbn [acquireAttempts fst snd setDisk locks disk].
    split; [reflexivity |]. split; [exact Hmem2 | apply lookup_delete_eq].
Qed.

Local Abbreviation holds := (LockSteps.holds sha256hex lockOwner clock).
Local Abbreviation shortCall := (LockSteps.shortCall clock).

Lemma takenSince_live (since : nat) (info : LockInfo) (n : nat) :
  shortCall since -> LockSteps.takenSince lockOwner clock since info ->
  (since <= n)%nat -> clock n - timestamp info < timeout info.
Proof.
  intros Hshort (_ & Hto & n0 & Hn0 & Hts) Hn. rewrite Hto, Hts. now apply Hshort.
Qed.

Lemma holds_afterCleanup (since : nat) (np workDir : string) (w : World) :
  shortCall since -> (since <= tick w)%nat ->
  holds since np workDir w -> holds since np workDir (afterCleanup workDir w).
Proof.
  intros Hshort Hsince (info & Htaken & Hmem & Hfile).
  exists info. split; [exact Htaken |]. split.
  - unfold LockSteps.afterCleanup, cleanupStaleLockFiles, cleanupStaleLocks, dateNow.
    simpl. destruct (_ >? _); simpl; [| exact Hmem].
    assert (Hkeep : negb (clock (S (tick w)) - timestamp info >? timeout info) = true).
    { apply negb_true_iff. rewrite Z.gtb_ltb. apply Z.ltb_ge.
      pose proof (takenSince_live since info (S (tick w)) Hshort Htaken). lia. }
    assert (Hlive : filter (fun kv : string * LockInfo =>
                              negb (clock (S (tick w)) - timestamp (snd kv)
                                    >? timeout (snd kv)))
                      (locks w) !! np = Some info).
    { apply map_lookup_filter_Some. split; [exact Hmem |].
      cbn [snd]. now apply Is_true_true. }
    destruct (_ <? _)%nat; simpl; [| exact Hlive].
    apply map_lookup_filter_Some. split; [exact Hlive |].
    cbn [snd]. apply Is_true_true. apply String.eqb_eq. apply Htaken.
  - apply disk_afterCleanup_live; [exact Hfile |].
    intros n Hn. apply (takenSince_live since); auto. lia.
Qed.

Lemma acquireAttempts_keeps (since : nat) (p q workDir : string) (r : nat) :
  shortCall since ->
  forall w, (since <= tick w)%nat ->
    holds since p workDir w ->
    holds since p workDir
      (snd (acquireAttempts sha256hex lockOwner clock r q workDir false w)) /\
    (since <= tick (snd (acquireAttempts sha256hex lockOwner clock r q workDir false w)))%nat.
Proof.
  intros Hshort. induction r as [|r IH]; intros w Hsince Hheld; [simpl; auto |].
  rewrite acquireAttempts_S. cbv zeta.
  pose proof (tick_afterCleanup workDir w) as Htick.
  pose proof (holds_afterCleanup since p workDir w Hshort Hsince Hheld) as Hheld2.
  set (w2 := afterCleanup workDir w) in *.
  assert (Hsince2 : (since <= tick w2)%nat) by lia.
  destruct Hheld2 as (info & Htaken & Hmem & Hfile).
  pose proof (takenSince_live since info (tick w) Hshort Htaken Hsince) as Hlive.
  destruct (match locks w2 !! q with
            | Some existing =>
                if clock (tick w) - timestamp existing <? timeout existing
                then Some existing else None
            | None => None
            end) as [existing|] eqn:Hq.
  - rewrite andb_false_r. cbn [snd]. split; [| exact Hsince2].
    exists info. auto.
  - assert (Hpq : q <> p).
    { intros ->. rewrite Hmem in Hq.
      apply Z.ltb_lt in Hlive. rewrite Hlive in Hq. discriminate. }
    destruct (disk w2 !! getLockFilePath sha256hex q workDir) as [content|] eqn:Hd.
    + destruct (staleOnAcquire (clock (tick w)) content) eqn:Hstale.
      * apply IH; [exact Hsince2 |].
        exists info. split; [exact Htaken |]. split; [exact Hmem |].
        cbn [setDisk disk locks]. rewrite lookup_delete_ne; [exact Hfile |].
        intros Heq. rewrite Heq, Hfile in Hd. injection Hd as <-.
        cbn [staleOnAcquire] in Hstale.
        rewrite Z.geb_leb in Hstale. apply Z.leb_le in Hstale. lia.
      * apply IH; [exact Hsince2 |]. exists info. auto.
    + cbn [snd setLocks setDisk tick]. split; [| exact Hsince2].
      exists info. split; [exact Htaken |]. cbn [locks disk setLocks setDisk]. split.
      * rewrite lookup_insert_ne by exact Hpq. exact Hmem.
      * rewrite lookup_insert_ne; [exact Hfile |].
        intros Heq. rewrite Heq, Hfile in Hd. discriminate.
Qed.

Lemma acquireAttempts_takes (since : nat) (q workDir : string) (r : nat) :
  forall w, (since <= tick w)%nat ->
    fst (acquireAttempts sha256hex lockOwner clock r q workDir false w) = true ->
    holds since q workDir
      (snd (acquireAttempts sha256hex lockOwner clock r q workDir false w)).
Proof.
  induction r as [|r IH]; intros w Hsince; [discriminate |].
  rewrite acquireAttempts_S. cbv zeta.
  pose proof (tick_afterCleanup workDir w) as Htick.
  set (w2 := afterCleanup workDir w) in *.
  destruct (match locks w2 !! q with
            | Some existing =>
                if clock (tick w) - timestamp existing <? timeout existing
                then Some existing else None
            | None => None
            end) as [existing|].
  - rewrite andb_false_r. discriminate.
  - destruct (disk w2 !! getLockFilePath sha256hex q workDir) as [content|].
    + destruct (staleOnAcquire (clock (tick w)) content); apply IH;
        cbn [setDisk tick]; lia.
    + intros _. cbn [snd setLocks setDisk locks disk].
      eexists. split; [| split; apply lookup_insert_eq].
      split; [reflexivity |]. split; [reflexivity |].
      exists (tick w). split; [exact Hsince | reflexivity].
Qed.

Lemma acquireAttempts_tick (q workDir : string) (reentrant : bool) (r : nat) :
  forall w,
    (tick w <= tick (snd (acquireAttempts sha256hex lockOwner clock r q workDir
                            reentrant w)))%nat.
Proof.
  induction r as [|r IH]; intros w; [simpl; lia |].
  rewrite acquireAttempts_S. cbv zeta.
  pose proof (tick_afterCleanup workDir w) as Htick.
  set (w2 := afterCleanup workDir w) in *.
  destruct (match locks w2 !! q with
            | Some existing =>
                if clock (tick w) - timestamp existing <? timeout existing
                then Some existing else None
            | None => None
            end) as [existing|] eqn:Hq.
  - destruct (String.eqb (owner existing) lockOwner && reentrant); cbn [snd]; [| lia].
    unfold refreshLock. destruct (locks w2 !! q); simpl; lia.
  - destruct (disk w2 !! getLockFilePath sha256hex q workDir) as [content|].
    + destruct (staleOnAcquire (clock (tick w)) content).
      * specialize (IH (setDisk (delete (getLockFilePath sha256hex q workDir) (disk w2)) w2)).
        cbn [setDisk tick] in IH. lia.
      * specialize (IH w2). lia.
    + cbn [snd setLocks setDisk tick]. lia.
Qed.

Lemma acquireLoop_holds (since : nat) (workDir : string) (files : list string) :
  shortCall since ->
  forall acc w,
    (since <= tick w)%nat ->
    (forall f, f ∈ acc -> holds since (normalizePathForLocking f workDir) workDir w) ->
    fst (fst (acquireLoop normalizePathForLocking sha256hex lockOwner clock
                files workDir acc w)) = true ->
    forall f, f ∈ (acc ++ files)%list ->
      holds since (normalizePathForLocking f workDir) workDir
        (snd (acquireLoop normalizePathForLocking sha256hex lockOwner clock
                files workDir acc w)).
Proof.
  intros Hshort. induction files as [|file rest IH]; intros acc w Hsince Hacc Hok f Hf.
  - rewrite app_nil_r in Hf. simpl. now apply Hacc.
  - cbn [acquireLoop] in *. unfold acquireFileLock in *.
    set (np := normalizePathForLocking file workDir) in *.
    pose proof (acquireAttempts_takes since np workDir 5 w Hsince) as Htakes.
    pose proof (acquireAttempts_tick np workDir false 5 w) as Hlater.
    assert (Hkeeps : forall p, holds since p workDir w ->
              holds since p workDir
                (snd (acquireAttempts sha256hex lockOwner clock 5 np workDir false w)) /\
              (since <= tick (snd (acquireAttempts sha256hex lockOwner clock 5 np
                                     workDir false w)))%nat)
      by (intros p; now apply acquireAttempts_keeps).
    destruct (acquireAttempts sha256hex lockOwner clock 5 np workDir false w)
      as [b w1].
    destruct b; [| discriminate]. cbn [fst snd] in *.
    assert (Hsince1 : (since <= tick w1)%nat) by lia.
    apply (IH (acc ++ [file])%list w1 Hsince1); [| exact Hok |].
    + intros g Hg. apply elem_of_app in Hg. destruct Hg as [Hg | Hg].
      * apply Hkeeps. now apply Hacc.
      * apply list_elem_of_singleton in Hg. subst g. now apply Htakes.
    + rewrite <- app_assoc. exact Hf.
Qed.

Lemma uniqueFiles_covers (workDir : string) (files : list string) :
  forall seen file,
    file ∈ files ->
    normalizePathForLocking file workDir ∈ seen \/
    exists u, u ∈ uniqueFiles normalizePathForLocking files workDir seen /\
              normalizePathForLocking u workDir = normalizePathForLocking file workDir.
Proof.
  induction files as [|x rest IH]; intros seen file Hin.
  - now apply not_elem_of_nil in Hin.
  - cbn [uniqueFiles].
    apply elem_of_cons in Hin. destruct Hin as [-> | Hin].
    + destruct (bool_decide_reflect (normalizePathForLocking x workDir ∈ seen))
        as [Hseen | Hnew]; [now left |].
      right. exists x. split; [apply elem_of_cons; now left | reflexivity].
    + destruct (bool_decide_reflect (normalizePathForLocking x workDir ∈ seen))
        as [Hseen | Hnew].
      * now apply IH.
      * destruct (IH (normalizePathForLocking x workDir :: seen) file Hin)
          as [Hs | (u & Hu & Heq)].
        -- apply elem_of_cons in Hs. destruct Hs as [Heq | Hs]; [| now left].
           right. exists x. split; [apply elem_of_cons; now left | now symmetry].
        -- right. exists u. split; [apply elem_of_cons; now right | exact Heq].
Qed.

(** X23: when [acquireLocksForFiles] answers true, every file of the
    call is locked.  If the readings of the time during the call stay
    within one lock timeout (30 s) of each other, then for every file
    given the registry holds an entry owned by this process under the
    normalized path, and the lock file of the path holds the same entry:
    no lock taken early in the call was lost to a cleanup later in it. *)
Theorem acquireMany_locks_all (files : list string) (workDir : string) (w : World) :
  shortCall (tick w) ->
  fst (acquireLocksForFiles normalizePathForLocking sha256hex lockOwner clock
         files workDir w) = true ->
  forall file, file ∈ files ->
    exists info,
      owner info = lockOwner /\
      locks (snd (acquireLocksForFiles normalizePathForLocking sha256hex lockOwner
                    clock files workDir w))
        !! normalizePathForLocking file workDir = Some info /\
      disk (snd (acquireLocksForFiles normalizePathForLocking sha256hex lockOwner
                   clock files workDir w))
        !! getLockFilePath sha256hex (normalizePathForLocking file workDir) workDir
        = Some (Written info).
Proof.
  intros Hshort Hok file Hin.
  unfold acquireLocksForFiles in *.
  pose proof (acquireLoop_holds (tick w) workDir
                (uniqueFiles normalizePathForLocking files workDir [])
                Hshort [] w (le_n _)) as Hloop.
  destruct (acquireLoop normalizePathForLocking sha256hex lockOwner clock
              (uniqueFiles normalizePathForLocking files workDir []) workDir [] w)
    as [[ok acq] w1].
  destruct ok; [| discriminate]. cbn [fst snd] in *.
  destruct (uniqueFiles_covers workDir files [] file Hin) as [Hseen | (u & Hu & Heq)].
  - now apply not_elem_of_nil in Hseen.
  - destruct (Hloop (fun f Hf => False_ind _ (not_elem_of_nil f Hf)) eq_refl u)
      as (info & (Hown & _) & Hmem & Hfile); [exact Hu |].
    rewrite Heq in Hmem, Hfile. exists info. auto.
Qed.

End Manager.

(** X20 for the first lock taken in an empty lock directory. *)
Lemma acquire_records_owner_witness :
  exists info,
    owner info = "77-1" /\
    locks (snd (acquireFileLock normalizeExample digestExample "77-1" clockExample
                  "a" "/w" 5 false
                  {| locks := ∅; lastLockCleanup := 1000; disk := ∅; tick := 0 |}))
      !! normalizeExample "a" "/w" = Some info /\
    disk (snd (acquireFileLock normalizeExample digestExample "77-1" clockExample
                 "a" "/w" 5 false
                 {| locks := ∅; lastLockCleanup := 1000; disk := ∅; tick := 0 |}))
      !! getLockFilePath digestExample (normalizeExample "a" "/w") "/w"
      = Some (Written info).
Proof.
  apply (acquire_records_owner normalizeExample digestExample "77-1" clockExample
           "a" "/w" 5 false
           {| locks := ∅; lastLockCleanup := 1000; disk := ∅; tick := 0 |}).
  vm_compute. reflexivity.
Defined.

(** X21 for the lock another process holds on [b]; the process waits at
    most 20 s in all. *)
Lemma live_lock_file_blocks_witness :
  fst (acquireFileLock normalizeExample digestExample "77-1"
         (fun n => 1000 + Z.of_nat (Nat.min n 20) * 1000)
         "b" "/w" 5 false contended) = false.
Proof.
  refine (proj1 (live_lock_file_blocks normalizeExample digestExample "77-1"
                   (fun n => 1000 + Z.of_nat (Nat.min n 20) * 1000)
                   "b" "/w" 5 false contended foreignLock _ _ _)).
  - reflexivity.
  - reflexivity.
  - intros n _. cbn [timestamp timeout foreignLock]. lia.
Defined.

(** X22 for a lock file left empty by a crashed writer. *)
Lemma stale_lock_file_taken_over_witness :
  fst (acquireFileLock normalizeExample digestExample "77-1" clockExample
         "b" "/w" 2 false
         {| locks := ∅; lastLockCleanup := 1000;
            disk := {[ getLockFilePath digestExample (normalizeExample "b" "/w") "/w"
                         := Blank ]};
            tick := 0 |}) = true.
Proof.
  refine (proj1 (stale_lock_file_taken_over normalizeExample digestExample "77-1"
                   clockExample "b" "/w" 0 false
           {| locks := ∅; lastLockCleanup := 1000;
              disk := {[ getLockFilePath digestExample (normalizeExample "b" "/w") "/w"
                           := Blank ]};
              tick := 0 |} Blank _ _ _)).
  - reflexivity.
  - reflexivity.
  - reflexivity.
Defined.

(** X23 for two files in an empty lock directory, with a clock that
    advances by at most 20 s. *)
Lemma acquireMany_locks_all_witness :
  exists info,
    owner info = "77-1" /\
    locks (snd (acquireLocksForFiles normalizeExample digestExample "77-1"
                  (fun n => 1000 + Z.of_nat (Nat.min n 20) * 1000)
                  ["a"; "b"] "/w"
                  {| locks := ∅; lastLockCleanup := 1000; disk := ∅; tick := 0 |}))
      !! normalizeExample "a" "/w" = Some info /\
    disk (snd (acquireLocksForFiles normalizeExample digestExample "77-1"
                 (fun n => 1000 + Z.of_nat (Nat.min n 20) * 1000)
                 ["a"; "b"] "/w"
                 {| locks := ∅; lastLockCleanup := 1000; disk := ∅; tick := 0 |}))
      !! getLockFilePath digestExample (normalizeExample "a" "/w") "/w"
      = Some (Written info).
Proof.
  apply (acquireMany_locks_all normalizeExample digestExample "77-1"
           (fun n => 1000 + Z.of_nat (Nat.min n 20) * 1000)
           ["a"; "b"] "/w"
           {| locks := ∅; lastLockCleanup := 1000; disk := ∅; tick := 0 |}).
  - intros n n' _ _. unfold LOCK_TIMEOUT_MS. lia.
  - vm_compute. reflexivity.
  - apply elem_of_cons. now left.
Defined.

End LocksMoreProps.

(** ** Change detection and retrieval in the hash store *)

Module HashStoreViewsProps.
Import HashStore HashStoreViews.

Section Store.

Variable resolve : string -> string -> string.
Variable sha256hex : string -> string.
Variable gzip : string -> string.
Variable gunzip : string -> option string.
Variable parseErrorMessage : string.
Variable gunzipErrorMessage : string.
Variable encodeMetadata : HashMetadata -> string.
Variable decodeMetadata : string -> option HashMetadata.
Variable encodeIndex : TaskHashIndex -> string.
Variable decodeIndex : string -> option TaskHashIndex.

(** What a successful [addFile] leaves in the store. *)
Lemma addFile_index (now : Z) (filePath : string) (options : AddFileOptions)
    (s : FileHashStore) (fs : FileSystem) (src : File) :
  cleanedUp s = false ->
  fs !! resolve (projectRoot s) filePath = Some src ->
  let r := addFile resolve sha256hex gzip encodeMetadata encodeIndex decodeIndex
             now filePath options s fs in
  addSuccess (fst (fst r)) = true /\
  cleanedUp (snd (fst r)) = false /\
  initialized (snd (fst r)) = true /\
  projectRoot (snd (fst r)) = projectRoot s /\
  refHash <$> files (index (snd (fst r))) !! filePath = Some (sha256hex (bytes src)).
Proof.
  intros Hclean Hsrc.
  destruct (HashStoreProps.initialize_fields resolve decodeIndex now fs s)
    as (Ht & Hr & Hc & Hi).
  unfold addFile. simpl. rewrite Hclean.
  set (s1 := initialize resolve decodeIndex now fs s) in *.
  rewrite Hr, Hsrc. simpl.
  rewrite Hc, Hi, Hr, lookup_insert_eq. auto.
Qed.

Lemma pjoin_assoc (a b c : string) : pjoin (pjoin a b) c = pjoin a (pjoin b c).
Proof. unfold pjoin. now rewrite !CsvRowProps.str_app_assoc. Qed.

(** Removing the first [.gz] of a path that has none before its ending
    removes the ending. *)
Lemma replaceFirst_gz_suffix (x : string) :
  includes ".gz" x = false -> replaceFirst ".gz" "" (x +:+ ".gz") = x.
Proof.
  induction x as [|c x IH]; intros H; [reflexivity |].
  cbn [includes] in H. apply orb_false_iff in H. destruct H as [Hs Hi].
  rewrite StreamingProps.sapp_cons.
  assert (Hn : startsWith ".gz" (String c (x +:+ ".gz")) = false).
  { cbn [startsWith] in *. destruct (ascii_eqb "." c); [| reflexivity]. cbn [andb] in *.
    destruct x as [|d x]; [reflexivity |].
    rewrite StreamingProps.sapp_cons. cbn [startsWith] in *.
    destruct (ascii_eqb "g" d); [| reflexivity]. cbn [andb] in *.
    destruct x as [|e x]; [reflexivity |].
    rewrite StreamingProps.sapp_cons. cbn [startsWith] in *.
    destruct (ascii_eqb "z" e); [| reflexivity]. discriminate. }
  cbn [replaceFirst]. rewrite Hn. f_equal. now apply IH.
Qed.

Lemma pjoin_suffix (a b c : string) : pjoin a (pjoin "content" (b +:+ c)) =
  pjoin a (pjoin "content" b) +:+ c.
Proof. unfold pjoin. now rewrite !CsvRowProps.str_app_assoc. Qed.

(** Where [addFile] leaves the bytes: in a task directory whose path holds
    no [.gz], the content directory has the compressed copy [<hash>.gz], or
    the plain copy [<hash>] with the bytes of the file. *)
Lemma addFile_stored (now : Z) (filePath : string) (options : AddFileOptions)
    (s : FileHashStore) (fs : FileSystem) (src : File) :
  (forall b, String.length (sha256hex b) = 64%nat) ->
  cleanedUp s = false ->
  fs !! resolve (projectRoot s) filePath = Some src ->
  includes ".gz" (pjoin (taskDir resolve s) (pjoin "content" (sha256hex (bytes src))))
    = false ->
  is_Some (snd (addFile resolve sha256hex gzip encodeMetadata encodeIndex decodeIndex
                  now filePath options s fs)
             !! pjoin (taskDir resolve s)
                  (pjoin "content" (sha256hex (bytes src) +:+ ".gz"))) \/
  bytes <$> snd (addFile resolve sha256hex gzip encodeMetadata encodeIndex decodeIndex
                   now filePath options s fs)
              !! pjoin (taskDir resolve s) (pjoin "content" (sha256hex (bytes src)))
    = Some (bytes src).
Proof.
  intros Hlen Hclean Hsrc Hgz.
  destruct (HashStoreProps.initialize_fields resolve decodeIndex now fs s)
    as (Ht & Hr & _ & Hi).
  pose proof (HashStoreProps.taskDir_initialize resolve decodeIndex now fs s) as Hdir.
  unfold addFile. simpl. rewrite Hclean.
  set (s1 := initialize resolve decodeIndex now fs s) in *.
  rewrite Hr, Hsrc.
  set (h := sha256hex (bytes src)) in *.
  assert (Hh : String.length h = 64%nat) by apply Hlen.
  unfold saveIndex, indexPath, writeFile. cbn [snd].
  change (taskDir resolve (setIndex _ s1)) with (taskDir resolve s1).
  rewrite Hdir.
  set (T := taskDir resolve s) in *.
  assert (Hgzlen : String.length (pjoin "content" (h +:+ ".gz")) = 75%nat).
  { rewrite HashStoreProps.length_pjoin, HashStoreProps.length_append, Hh. reflexivity. }
  assert (Hplainlen : String.length (pjoin "content" h) = 72%nat).
  { rewrite HashStoreProps.length_pjoin, Hh. reflexivity. }
  assert (Hjsonlen : String.length (pjoin "content" (h +:+ ".json")) = 77%nat).
  { rewrite HashStoreProps.length_pjoin, HashStoreProps.length_append, Hh. reflexivity. }
  assert (Hne : forall a b, String.length a <> String.length b -> pjoin T a <> pjoin T b).
  { intros a b Hab E. apply Hab. apply (f_equal String.length) in E.
    rewrite !HashStoreProps.length_pjoin in E. lia. }
  assert (Hindex : forall name, String.length name <> 23%nat ->
            pjoin T ".ralphy-hashes-ref.json" <> pjoin T name).
  { intros name Hn. apply Hne. simpl. congruence. }
  rewrite pjoin_assoc.
  destruct (bool_decide (is_Some (fs !! pjoin T (pjoin "content" (h +:+ ".gz")))))
    eqn:Hex.
  - left. apply bool_decide_eq_true in Hex.
    rewrite lookup_insert_ne by (apply Hindex; rewrite Hgzlen; lia). exact Hex.
  - destruct (compress options &&
              (Z.of_nat (String.length (bytes src)) >=? compressionThreshold options)).
    + left.
      rewrite lookup_insert_ne by (apply Hindex; rewrite Hgzlen; lia).
      rewrite lookup_insert_ne by (apply Hne; rewrite Hgzlen, Hjsonlen; lia).
      rewrite lookup_insert_eq. eauto.
    + right.
      rewrite lookup_insert_ne by (apply Hindex; rewrite Hplainlen; lia).
      rewrite lookup_insert_ne by (apply Hne; rewrite Hplainlen, Hjsonlen; lia).
      rewrite pjoin_suffix, (replaceFirst_gz_suffix _ Hgz).
      rewrite lookup_insert_eq. reflexivity.
Qed.

(** X24: change detection after [addFile].  [addFile] of a readable file
    into a task directory whose path holds no [.gz] succeeds and leaves the
    bytes in the content directory, compressed as [<hash>.gz] or plain as
    [<hash>]; from then on [hasFile] answers true and [getHash] gives the
    digest of the bytes that were added, whatever the file system holds by
    then; and [hasChanged] answers false exactly when the file can still be
    read and its bytes have that digest. *)
Theorem added_file_change_detection (now later : Z) (filePath : string)
    (options : AddFileOptions) (s : FileHashStore) (fs current : FileSystem)
    (src : File) :
  (forall b, String.length (sha256hex b) = 64%nat) ->
  cleanedUp s = false ->
  fs !! resolve (projectRoot s) filePath = Some src ->
  includes ".gz" (pjoin (taskDir resolve s) (pjoin "content" (sha256hex (bytes src))))
    = false ->
  let r := addFile resolve sha256hex gzip encodeMetadata encodeIndex decodeIndex
             now filePath options s fs in
  let s' := snd (fst r) in
  addSuccess (fst (fst r)) = true /\
  (is_Some (snd r !! pjoin (taskDir resolve s)
                       (pjoin "content" (sha256hex (bytes src) +:+ ".gz"))) \/
   bytes <$> snd r !! pjoin (taskDir resolve s)
                        (pjoin "content" (sha256hex (bytes src)))
     = Some (bytes src)) /\
  fst (hasFile resolve decodeIndex later filePath s' current) = true /\
  fst (getHash resolve decodeIndex later filePath s' current) =
    Some (sha256hex (bytes src)) /\
  fst (hasChanged resolve sha256hex decodeIndex later filePath s' current) =
    match current !! resolve (projectRoot s) filePath with
    | Some file => negb (String.eqb (sha256hex (bytes file)) (sha256hex (bytes src)))
    | None => true
    end.
Proof.
  intros Hlen Hclean Hsrc Hgz.
  destruct (addFile_index now filePath options s fs src Hclean Hsrc)
    as (Hok & Hc & Hi & Hr & Hh).
  pose proof (addFile_stored now filePath options s fs src Hlen Hclean Hsrc Hgz)
    as Hstored.
  cbv zeta.
  set (s' := snd (fst (addFile resolve sha256hex gzip encodeMetadata encodeIndex
                         decodeIndex now filePath options s fs))) in *.
  assert (Hget : getHash resolve decodeIndex later filePath s' current =
                 (Some (sha256hex (bytes src)), s')).
  { unfold getHash. rewrite Hc. cbn [negb ENABLE_HASH_STORE orb].
    rewrite (HashStoreProps.initialize_idempotent resolve decodeIndex later current s' Hi).
    now rewrite Hh. }
  split; [exact Hok |]. split; [exact Hstored |].
  split; [| split].
  - unfold hasFile. rewrite Hc. cbn [negb ENABLE_HASH_STORE orb fst].
    rewrite (HashStoreProps.initialize_idempotent resolve decodeIndex later current s' Hi).
    destruct (files (index s') !! filePath) as [ref|]; [| discriminate].
    rewrite bool_decide_eq_true_2 by eauto. reflexivity.
  - now rewrite Hget.
  - unfold hasChanged. rewrite Hc. cbn [negb ENABLE_HASH_STORE orb].
    rewrite Hget.
    specialize (Hlen (bytes src)).
    destruct (sha256hex (bytes src)) as [|c h] eqn:Eh; [discriminate |].
    unfold generateHash. rewrite Hr.
    destruct (current !! resolve (projectRoot s) filePath); reflexivity.
Qed.


(** [addFile] of a file whose compressed content is already stored. *)
Lemma addFile_existing (now : Z) (filePath : string) (options : AddFileOptions)
    (s : FileHashStore) (fs : FileSystem) (src : File) :
  cleanedUp s = false ->
  initialized s = true ->
  fs !! resolve (projectRoot s) filePath = Some src ->
  is_Some (fs !! pjoin (taskDir resolve s)
                   (pjoin "content" (sha256hex (bytes src) +:+ ".gz"))) ->
  let s2 := setIndex
              {| indexTaskId := indexTaskId (index s);
                 files := <[filePath :=
                              {| refHash := sha256hex (bytes src);
                                 hashPath := pjoin "content"
                                               (sha256hex (bytes src) +:+ ".gz");
                                 metadataPath := pjoin "content"
                                                   (sha256hex (bytes src) +:+ ".json") |}]>
                            (files (index s));
                 createdAt := createdAt (index s); updatedAt := now |} s in
  addFile resolve sha256hex gzip encodeMetadata encodeIndex decodeIndex
    now filePath options s fs =
  ({| addSuccess := true; addHash := Some (sha256hex (bytes src)); addError := None;
      alreadyExists := Some true |}, s2, saveIndex resolve encodeIndex now s2 fs).
Proof.
  intros Hclean Hinit Hsrc Hthere. cbv zeta.
  unfold addFile. cbn [negb ENABLE_HASH_STORE]. rewrite Hclean.
  rewrite (HashStoreProps.initialize_idempotent resolve decodeIndex now fs s Hinit).
  rewrite Hsrc. cbv zeta.
  rewrite (bool_decide_eq_true_2 _ Hthere). reflexivity.
Qed.

(** A store whose index entry names files that are there serves the
    content. *)
Lemma getFile_served (now : Z) (filePath : string) (s : FileHashStore)
    (fs : FileSystem) (ref : HashReference) (metaFile stored : File)
    (meta : HashMetadata) (data : string) :
  initialized s = true ->
  files (index s) !! filePath = Some ref ->
  fs !! pjoin (taskDir resolve s) (metadataPath ref) = Some metaFile ->
  decodeMetadata (bytes metaFile) = Some meta ->
  compressed meta = true ->
  fs !! pjoin (taskDir resolve s) (hashPath ref) = Some stored ->
  gunzip (bytes stored) = Some data ->
  fst (getFile resolve gunzip parseErrorMessage gunzipErrorMessage decodeMetadata
         decodeIndex now filePath s fs) =
  {| success := true; content := Some data; metadata := Some meta; error := None |}.
Proof.
  intros Hinit Href Hmeta Hdec Hcomp Hstored Hgunzip.
  unfold getFile. cbn [negb ENABLE_HASH_STORE].
  rewrite (HashStoreProps.initialize_idempotent resolve decodeIndex now fs s Hinit).
  now rewrite Href, Hmeta, Hdec, Hstored, Hcomp, Hgunzip.
Qed.

(** X25: the store serves a compressed file from its second [addFile]
    on.  For a file outside the task directory that is compressed when
    stored, added into a task directory without files and then added once
    more unchanged, the second [addFile] reports the content as already
    there, and [getFile] then succeeds with the bytes of the file, given that
    gunzip undoes gzip on these bytes and that the metadata written survives
    its JSON round trip. *)
Theorem second_add_serves_content (now1 now2 now3 : Z) (filePath : string)
    (options1 options2 : AddFileOptions) (s : FileHashStore) (fs : FileSystem)
    (src : File) :
  (forall b, String.length (sha256hex b) = 64%nat) ->
  gunzip (gzip (bytes src)) = Some (bytes src) ->
  (let meta := {| originalPath := filePath; hash := sha256hex (bytes src);
                  size := Z.of_nat (String.length (bytes src));
                  mtime := modified src; compressed := true;
                  originalSize := Z.of_nat (String.length (bytes src));
                  storedAt := now1; taskId := storeTaskId s |} in
   decodeMetadata (encodeMetadata meta) = Some meta) ->
  cleanedUp s = false ->
  fs !! resolve (projectRoot s) filePath = Some src ->
  emptyBelow (taskDir resolve s) fs ->
  (forall name, resolve (projectRoot s) filePath <> pjoin (taskDir resolve s) name) ->
  compress options1 = true ->
  compressionThreshold options1 <= Z.of_nat (String.length (bytes src)) ->
  let r1 := addFile resolve sha256hex gzip encodeMetadata encodeIndex decodeIndex
              now1 filePath options1 s fs in
  let r2 := addFile resolve sha256hex gzip encodeMetadata encodeIndex decodeIndex
              now2 filePath options2 (snd (fst r1)) (snd r1) in
  alreadyExists (fst (fst r2)) = Some true /\
  fst (getFile resolve gunzip parseErrorMessage gunzipErrorMessage decodeMetadata
         decodeIndex now3 filePath (snd (fst r2)) (snd r2)) =
  {| success := true; content := Some (bytes src);
     metadata := Some {| originalPath := filePath; hash := sha256hex (bytes src);
                         size := Z.of_nat (String.length (bytes src));
                         mtime := modified src; compressed := true;
                         originalSize := Z.of_nat (String.length (bytes src));
                         storedAt := now1; taskId := storeTaskId s |};
     error := None |}.
Proof.
  intros Hlen Hzip Hjson Hclean Hsrc Hempty Houtside Hcompress Hsize.
  destruct (HashStoreProps.initialize_fields resolve decodeIndex now1 fs s)
    as (Ht & Hr & Hc & Hi).
  pose proof (HashStoreProps.taskDir_initialize resolve decodeIndex now1 fs s) as Hdir.
  set (h := sha256hex (bytes src)).
  assert (Hh : String.length h = 64%nat) by apply Hlen.
  set (T := taskDir resolve s) in *.
  set (A := pjoin T (pjoin "content" (h +:+ ".gz"))).
  set (M := pjoin T (pjoin "content" (h +:+ ".json"))).
  set (I := pjoin T ".ralphy-hashes-ref.json").
  set (P := resolve (projectRoot s) filePath) in *.
  assert (HAM : A <> M).
  { intros E. apply (f_equal String.length) in E. unfold A, M in E.
    rewrite !HashStoreProps.length_pjoin, !HashStoreProps.length_append, Hh in E.
    simpl in E. lia. }
  assert (HAI : A <> I).
  { intros E. apply (f_equal String.length) in E. unfold A, I in E.
    rewrite !HashStoreProps.length_pjoin, !HashStoreProps.length_append, Hh in E.
    simpl in E. lia. }
  assert (HMI : M <> I).
  { intros E. apply (f_equal String.length) in E. unfold M, I in E.
    rewrite !HashStoreProps.length_pjoin, !HashStoreProps.length_append, Hh in E.
    simpl in E. lia. }
  (* the first add *)
  set (s1 := initialize resolve decodeIndex now1 fs s) in *.
  set (meta := {| originalPath := filePath; hash := h;
                  size := Z.of_nat (String.length (bytes src));
                  mtime := modified src; compressed := true;
                  originalSize := Z.of_nat (String.length (bytes src));
                  storedAt := now1; taskId := storeTaskId s |}).
  set (s1' := setIndex {| indexTaskId := indexTaskId (index s1);
                          files := <[filePath := {| refHash := h;
                                                    hashPath := h +:+ ".gz";
                                                    metadataPath :=
                                                      pjoin "content" (h +:+ ".json") |}]>
                                     (files (index s1));
                          createdAt := createdAt (index s1); updatedAt := now1 |} s1).
  set (fs1 := <[I := {| bytes := encodeIndex (index s1'); modified := now1 |}]>
                (<[M := {| bytes := encodeMetadata meta; modified := now1 |}]>
                   (<[A := {| bytes := gzip (bytes src); modified := now1 |}]> fs))).
  assert (H1 : addFile resolve sha256hex gzip encodeMetadata encodeIndex decodeIndex
                 now1 filePath options1 s fs =
               ({| addSuccess := true; addHash := Some h; addError := None;
                   alreadyExists := Some false |}, s1', fs1)).
  { unfold addFile. cbn [negb ENABLE_HASH_STORE]. rewrite Hclean.
    fold s1. rewrite Hr. fold P. rewrite Hsrc. cbv zeta. fold h.
    rewrite Hdir. fold T. fold A.
    assert (Hfresh : bool_decide (is_Some (fs !! A)) = false).
    { apply bool_decide_eq_false. unfold A. rewrite Hempty. intros [x Hx]. discriminate. }
    rewrite Hfresh, Hcompress. cbn [andb].
    assert (Hge : (Z.of_nat (String.length (bytes src)) >=? compressionThreshold options1)
                  = true).
    { rewrite Z.geb_leb. now apply Z.leb_le. }
    rewrite Hge, Ht.
    unfold saveIndex, writeFile, indexPath.
    replace (taskDir resolve (setIndex _ s1)) with T by (symmetry; exact Hdir).
    rewrite pjoin_assoc. reflexivity. }
  rewrite H1. cbn [fst snd].
  (* the second add *)
  assert (Hc1 : cleanedUp s1' = false) by exact (eq_trans Hc Hclean).
  assert (Hi1 : initialized s1' = true) by exact Hi.
  assert (HT1 : taskDir resolve s1' = T) by exact Hdir.
  assert (HP1 : fs1 !! resolve (projectRoot s1') filePath = Some src).
  { change (projectRoot s1') with (projectRoot s1). rewrite Hr. fold P.
    unfold fs1. rewrite !lookup_insert_ne; [exact Hsrc | | |];
      intros E; symmetry in E; revert E; apply Houtside. }
  assert (HA1 : fs1 !! A = Some {| bytes := gzip (bytes src); modified := now1 |}).
  { unfold fs1. rewrite lookup_insert_ne by congruence.
    rewrite lookup_insert_ne by congruence. apply lookup_insert_eq. }
  assert (HM1 : fs1 !! M = Some {| bytes := encodeMetadata meta; modified := now1 |}).
  { unfold fs1. rewrite lookup_insert_ne by congruence. apply lookup_insert_eq. }
  rewrite (addFile_existing now2 filePath options2 s1' fs1 src Hc1 Hi1 HP1)
    by (rewrite HT1; fold h; fold A; rewrite HA1; eauto).
  cbn [fst snd alreadyExists]. split; [reflexivity |]. fold h.
  eapply getFile_served.
  - exact Hi1.
  - cbn [setIndex index files]. apply lookup_insert_eq.
  - cbn [metadataPath]. unfold saveIndex, writeFile, indexPath.
    replace (taskDir resolve (setIndex _ s1')) with T by (symmetry; exact Hdir).
    fold M. fold I. rewrite lookup_insert_ne by congruence. exact HM1.
  - exact Hjson.
  - reflexivity.
  - cbn [hashPath]. unfold saveIndex, writeFile, indexPath.
    replace (taskDir resolve (setIndex _ s1')) with T by (symmetry; exact Hdir).
    fold A. fold I. rewrite lookup_insert_ne by congruence. exact HA1.
  - exact Hzip.
Qed.

End Store.

(** X24 on the project file [a.txt], rewritten after it was added; the
    digest tells the bytes [hi] from all others. *)
Lemma added_file_change_detection_witness :
  fst (hasChanged resolveExample
         (fun b => if String.eqb b "hi" then digestExample b else "0000000000000000000000000000000000000000000000000000000000000000")
         (fun _ => None) 2 "a.txt"
         (snd (fst (addFile resolveExample
                      (fun b => if String.eqb b "hi" then digestExample b else "0000000000000000000000000000000000000000000000000000000000000000")
                      (fun b => b) (fun _ => "") (fun _ => "") (fun _ => None)
                      1 "a.txt" defaultOptions (newStore 0 "t" "/p") projectFiles)))
         {[ "/p/a.txt" := {| bytes := "hello"; modified := 6 |} ]}) = true.
Proof.
  refine (proj2 (proj2 (proj2 (proj2 (added_file_change_detection resolveExample
            (fun b => if String.eqb b "hi" then digestExample b else "0000000000000000000000000000000000000000000000000000000000000000")
            (fun b => b) (fun _ => "") (fun _ => "") (fun _ => None)
            1 2 "a.txt" defaultOptions (newStore 0 "t" "/p") projectFiles
            {[ "/p/a.txt" := {| bytes := "hello"; modified := 6 |} ]}
            {| bytes := "hi"; modified := 5 |} _ _ _ _))))).
  - intros b. destruct (String.eqb b "hi"); reflexivity.
  - reflexivity.
  - reflexivity.
  - vm_compute. reflexivity.
Defined.

(** X25 on the project file [a.txt], compressed from the first byte on. *)
Lemma second_add_serves_content_witness :
  content
    (fst (getFile resolveExample (fun b => Some b) "" ""
            (fun _ => Some {| originalPath := "a.txt"; hash := digestExample "hi";
                              size := 2; mtime := 5; compressed := true;
                              originalSize := 2; storedAt := 1; taskId := "t" |})
            (fun _ => None) 3 "a.txt"
            (snd (fst (addFile resolveExample digestExample (fun b => b)
                         (fun _ => "") (fun _ => "") (fun _ => None) 2 "a.txt"
                         defaultOptions
                         (snd (fst (addFile resolveExample digestExample (fun b => b)
                                      (fun _ => "") (fun _ => "") (fun _ => None)
                                      1 "a.txt"
                                      {| compress := true; compressionThreshold := 1 |}
                                      (newStore 0 "t" "/p") projectFiles)))
                         (snd (addFile resolveExample digestExample (fun b => b)
                                 (fun _ => "") (fun _ => "") (fun _ => None)
                                 1 "a.txt"
                                 {| compress := true; compressionThreshold := 1 |}
                                 (newStore 0 "t" "/p") projectFiles)))))
            (snd (addFile resolveExample digestExample (fun b => b)
                    (fun _ => "") (fun _ => "") (fun _ => None) 2 "a.txt"
                    defaultOptions
                    (snd (fst (addFile resolveExample digestExample (fun b => b)
                                 (fun _ => "") (fun _ => "") (fun _ => None)
                                 1 "a.txt"
                                 {| compress := true; compressionThreshold := 1 |}
                                 (newStore 0 "t" "/p") projectFiles)))
                    (snd (addFile resolveExample digestExample (fun b => b)
                            (fun _ => "") (fun _ => "") (fun _ => None)
                            1 "a.txt"
                            {| compress := true; compressionThreshold := 1 |}
                            (newStore 0 "t" "/p") projectFiles))))))
  = Some "hi".
Proof.
  refine (f_equal content
            (proj2 (second_add_serves_content resolveExample digestExample
                      (fun b => b) (fun b => Some b) "" "" (fun _ => "")
                      (fun _ => Some {| originalPath := "a.txt";
                                        hash := digestExample "hi";
                                        size := 2; mtime := 5; compressed := true;
                                        originalSize := 2; storedAt := 1;
                                        taskId := "t" |})
                      (fun _ => "") (fun _ => None) 1 2 3 "a.txt"
                      {| compress := true; compressionThreshold := 1 |} defaultOptions
                      (newStore 0 "t" "/p") projectFiles
                      {| bytes := "hi"; modified := 5 |} _ _ _ _ _ _ _ _ _))).
  - intros b. reflexivity.
  - reflexivity.
  - reflexivity.
  - reflexivity.
  - vm_compute. reflexivity.
  - intros name. apply lookup_singleton_ne. vm_compute. discriminate.
  - intros name E. vm_compute in E. discriminate.
  - reflexivity.
  - vm_compute. discriminate.
Defined.

End HashStoreViewsProps.

(** ** Numbers and lines as text *)

Module TextProps.
Import Csv.

Ltac digit_value :=
  match goal with
  | |- context [Z.of_nat (nat_of_ascii ?c - 48)] =>
      let v := eval vm_compute in (Z.of_nat (nat_of_ascii c - 48)) in
      change (Z.of_nat (nat_of_ascii c - 48)) with v
  end.

Lemma digitsPrefix_acc (d : Decimal.uint) : forall acc : positive,
  digitsPrefix (NilEmpty.string_of_uint d) (Some (Z.pos acc)) =
  Some (Z.pos (Pos.of_uint_acc d acc)).
Proof.
  induction d; intros acc; cbn [NilEmpty.string_of_uint digitsPrefix Pos.of_uint_acc];
    [reflexivity | ..];
    match goal with
    | |- context [isDigit ?c] => change (isDigit c) with true
    end; cbv iota; cbn [default from_option Datatypes.id]; digit_value;
    match goal with
    | |- digitsPrefix _ (Some ?z) = Some (Z.pos (Pos.of_uint_acc _ ?p)) =>
        replace z with (Z.pos p) by lia
    end; apply IHd.
Qed.

Lemma digitsPrefix_zero (d : Decimal.uint) :
  digitsPrefix (NilEmpty.string_of_uint d) (Some 0) = Some (Z.of_N (Pos.of_uint d)).
Proof.
  induction d; cbn [NilEmpty.string_of_uint digitsPrefix Pos.of_uint];
    [reflexivity | ..];
    match goal with
    | |- context [isDigit ?c] => change (isDigit c) with true
    end; cbv iota; cbn [default from_option Datatypes.id]; digit_value;
    [exact IHd | ..];
    match goal with
    | |- digitsPrefix _ (Some ?z) = Some (Z.of_N (N.pos (Pos.of_uint_acc _ ?p))) =>
        change z with (Z.pos p)
    end; apply digitsPrefix_acc.
Qed.

Lemma digitsPrefix_to_uint (p : positive) :
  digitsPrefix (NilEmpty.string_of_uint (Pos.to_uint p)) None = Some (Z.pos p).
Proof.
  pose proof (digitsPrefix_zero (Pos.to_uint p)) as H.
  rewrite DecimalPos.Unsigned.of_to in H. cbn [Z.of_N] in H.
  pose proof (DecimalPos.Unsigned.to_uint_nonnil p) as Hne.
  destruct (Pos.to_uint p); [congruence | ..]; exact H.
Qed.

Lemma string_of_uint_to_uint (p : positive) :
  NilZero.string_of_uint (Pos.to_uint p) = NilEmpty.string_of_uint (Pos.to_uint p).
Proof.
  pose proof (DecimalPos.Unsigned.to_uint_nonnil p) as Hne.
  destruct (Pos.to_uint p); [congruence | ..]; reflexivity.
Qed.

(** The first character of a number's text is a digit. *)
Lemma string_of_uint_digit (d : Decimal.uint) :
  d <> Decimal.Nil ->
  exists c rest, NilEmpty.string_of_uint d = String c rest /\ isDigit c = true.
Proof.
  destruct d; [congruence | ..]; intros _; eexists; eexists; split; reflexivity.
Qed.

(** [Number.parseInt(String(n), 10)] is [n]. *)
Lemma parseInt10_stringOfZ (n : Z) : parseInt10 (stringOfZ n) = Some n.
Proof.
  unfold stringOfZ. destruct n as [|p|p]; [reflexivity | |].
  - cbn [Z.to_int NilZero.string_of_int]. rewrite string_of_uint_to_uint.
    pose proof (digitsPrefix_to_uint p) as H.
    destruct (string_of_uint_digit (Pos.to_uint p)
                (DecimalPos.Unsigned.to_uint_nonnil p)) as (c & rest & E & Hc).
    rewrite E in *. unfold parseInt10.
    assert (Hs : isSpace c = false).
    { revert Hc. unfold isDigit, isSpace.
      destruct (nat_of_ascii c) as [|[|[|[|[|[|[|[|[|[|[|[|[|[|k]]]]]]]]]]]]]];
        try discriminate.
      do 19 (destruct k as [|k]; try discriminate).
      intros _. reflexivity. }
    cbn [trimStart]. rewrite Hs.
    assert (Hm : c <> "-"%char /\ c <> "+"%char).
    { split; intros ->; discriminate. }
    destruct Hm as [Hm Hp].
    destruct c as [[] [] [] [] [] [] [] []]; try exact H; congruence.
  - cbn [Z.to_int NilZero.string_of_int]. rewrite string_of_uint_to_uint.
    unfold parseInt10. cbn [trimStart]. change (isSpace "-") with false. cbv iota.
    rewrite digitsPrefix_to_uint. reflexivity.
Qed.

Lemma stringOfZ_inj (a b : Z) : stringOfZ a = stringOfZ b -> a = b.
Proof.
  intros H. pose proof (parseInt10_stringOfZ a) as Ha.
  rewrite H, parseInt10_stringOfZ in Ha. congruence.
Qed.

(** Joining lines with line feeds and splitting the text again gives the
    lines, when none of them holds a line feed. *)
Lemma splitNL_join (lines : list string) :
  lines <> [] ->
  Forall (fun l => Streaming.noNewline l = true) lines ->
  Streaming.splitNL (join NL lines) = lines.
Proof.
  induction lines as [|l rest IH]; intros Hne Hall; [congruence |].
  apply Forall_cons in Hall. destruct Hall as [Hl Hrest].
  destruct rest as [|l2 rest].
  - cbn [join]. now apply StreamingProps.splitNL_single.
  - change (join NL (l :: l2 :: rest)) with (l +:+ NL +:+ join NL (l2 :: rest)).
    unfold Streaming.splitNL.
    rewrite StreamingProps.splitNLAux_carry by exact Hl.
    rewrite StreamingProps.sapp_nil_l.
    change (NL +:+ join NL (l2 :: rest)) with (String newline (join NL (l2 :: rest))).
    rewrite StreamingProps.splitNLAux_cons.
    change (ascii_eqb newline newline) with true. cbv iota.
    f_equal. apply IH; [discriminate | exact Hrest].
Qed.

Lemma splitNLAux_noNewline (s : string) : forall cur,
  Streaming.noNewline cur = true ->
  Forall (fun l => Streaming.noNewline l = true) (Streaming.splitNLAux s cur).
Proof.
  induction s as [|c s IH]; intros cur Hcur.
  - cbn [Streaming.splitNLAux]. now repeat constructor.
  - rewrite StreamingProps.splitNLAux_cons.
    destruct (ascii_eqb c newline) eqn:Hc.
    + constructor; [exact Hcur | now apply IH].
    + apply IH. rewrite StreamingProps.noNewline_app, Hcur.
      cbn [Streaming.noNewline andb]. now rewrite Hc.
Qed.

End TextProps.

(** ** The Markdown task source *)

Module MarkdownProps.
Import MemoryQueue Markdown.

Lemma noReturn_app (a b : string) : noReturn (a +:+ b) = noReturn a && noReturn b.
Proof.
  induction a as [|c a IH]; [reflexivity |].
  rewrite StreamingProps.sapp_cons. cbn [noReturn]. rewrite IH. now rewrite andb_assoc.
Qed.

Lemma noReturn_replaceCR (s : string) : noReturn (replaceCR s) = true.
Proof.
  induction s as [|c s IH]; [reflexivity |].
  cbn [replaceCR noReturn]. rewrite IH, andb_true_r.
  destruct (ascii_eqb c creturn) eqn:Hc; [reflexivity | now rewrite Hc].
Qed.

Lemma replaceCR_noReturn (s : string) : noReturn s = true -> replaceCR s = s.
Proof.
  induction s as [|c s IH]; [reflexivity |].
  cbn [noReturn replaceCR]. intros H. apply andb_true_iff in H. destruct H as [Hc Hs].
  apply negb_true_iff in Hc. now rewrite Hc, IH.
Qed.

Lemma replaceCRLF_noReturn (s : string) : noReturn s = true -> replaceCRLF s = s.
Proof.
  induction s as [|c s IH]; [reflexivity |].
  intros H. cbn [noReturn] in H. apply andb_true_iff in H. destruct H as [Hc Hs].
  apply negb_true_iff in Hc.
  cbn [replaceCRLF]. destruct s as [|d s]; [reflexivity |].
  rewrite Hc. cbn [andb]. now rewrite (IH Hs).
Qed.

Lemma readFileNormalized_noReturn (s : string) :
  noReturn s = true -> readFileNormalized s = s.
Proof.
  intros H. unfold readFileNormalized.
  now rewrite (replaceCRLF_noReturn s H), (replaceCR_noReturn s H).
Qed.

Lemma splitNLAux_noReturn (s : string) : forall cur,
  noReturn s = true -> noReturn cur = true ->
  Forall (fun l => noReturn l = true) (Streaming.splitNLAux s cur).
Proof.
  induction s as [|c s IH]; intros cur Hs Hcur.
  - cbn [Streaming.splitNLAux]. now repeat constructor.
  - cbn [noReturn] in Hs. apply andb_true_iff in Hs. destruct Hs as [Hc Hs].
    rewrite StreamingProps.splitNLAux_cons.
    destruct (ascii_eqb c newline).
    + constructor; [exact Hcur | now apply IH].
    + apply IH; [exact Hs |]. rewrite noReturn_app, Hcur.
      cbn [noReturn andb]. now rewrite Hc.
Qed.

Lemma noReturn_join (lines : list string) :
  Forall (fun l => noReturn l = true) lines -> noReturn (join NL lines) = true.
Proof.
  induction lines as [|l rest IH]; intros H; [reflexivity |].
  apply Forall_cons in H. destruct H as [Hl Hrest].
  destruct rest as [|l2 rest]; [exact Hl |].
  change (join NL (l :: l2 :: rest)) with (l +:+ NL +:+ join NL (l2 :: rest)).
  rewrite !noReturn_app, Hl, (IH Hrest). reflexivity.
Qed.

Lemma noNewline_dropPrefix (n : nat) (s : string) :
  Streaming.noNewline s = true -> Streaming.noNewline (dropPrefix n s) = true.
Proof.
  revert s. induction n as [|n IH]; intros s H; [exact H |].
  destruct s as [|c s]; [reflexivity |].
  cbn [dropPrefix]. apply IH. cbn [Streaming.noNewline] in H.
  now apply andb_true_iff in H.
Qed.

Lemma noReturn_dropPrefix (n : nat) (s : string) :
  noReturn s = true -> noReturn (dropPrefix n s) = true.
Proof.
  revert s. induction n as [|n IH]; intros s H; [exact H |].
  destruct s as [|c s]; [reflexivity |].
  cbn [dropPrefix]. apply IH. cbn [noReturn] in H. now apply andb_true_iff in H.
Qed.

Lemma checkLine_plain (line : string) :
  Streaming.noNewline line = true -> noReturn line = true ->
  Streaming.noNewline (checkLine line) = true /\ noReturn (checkLine line) = true.
Proof.
  intros Hn Hr. unfold checkLine.
  destruct (startsWith incompletePrefix line); [| auto].
  rewrite StreamingProps.noNewline_app, noReturn_app.
  rewrite noNewline_dropPrefix, noReturn_dropPrefix by assumption. auto.
Qed.

(** A checked line is no unchecked task. *)
Lemma incompleteMatch_checkLine (line rest : string) :
  incompleteMatch line = Some rest -> incompleteMatch (checkLine line) = None.
Proof.
  unfold incompleteMatch, checkLine.
  destruct (startsWith incompletePrefix line); [| discriminate].
  intros _. reflexivity.
Qed.

Lemma tasksFrom_ids (lines : list string) : forall k u,
  In u (tasksFrom k lines) ->
  exists j, (k <= j)%nat /\ id u = Csv.stringOfZ (Z.of_nat j + 1).
Proof.
  induction lines as [|line rest IH]; intros k u Hu; [contradiction |].
  cbn [tasksFrom] in Hu.
  destruct (incompleteMatch line) as [matched|].
  - destruct Hu as [<- | Hu]; [exists k; split; [lia | reflexivity] |].
    destruct (IH (S k) u Hu) as (j & Hj & Hid). exists j. split; [lia | exact Hid].
  - destruct (IH (S k) u Hu) as (j & Hj & Hid). exists j. split; [lia | exact Hid].
Qed.

Lemma filter_all {A} (f : A -> bool) (l : list A) :
  (forall x, In x l -> f x = true) -> List.filter f l = l.
Proof.
  induction l as [|x l IH]; intros H; [reflexivity |].
  cbn [List.filter]. rewrite (H x (or_introl eq_refl)).
  f_equal. apply IH. intros y Hy. apply H. now right.
Qed.

Lemma other_line_kept (k i : nat) (lines : list string) :
  (i < k)%nat ->
  List.filter (fun u => negb (String.eqb (id u) (Csv.stringOfZ (Z.of_nat i + 1))))
    (tasksFrom k lines) = tasksFrom k lines.
Proof.
  intros Hik. apply filter_all. intros u Hu.
  destruct (tasksFrom_ids lines k u Hu) as (j & Hj & Hid).
  apply negb_true_iff, String.eqb_neq. rewrite Hid. intros E.
  apply TextProps.stringOfZ_inj in E. lia.
Qed.

Lemma tasksFrom_insert (lines : list string) : forall k i line line',
  lines !! i = Some line ->
  incompleteMatch line' = None ->
  tasksFrom k (<[i := line']> lines) =
  List.filter (fun u => negb (String.eqb (id u) (Csv.stringOfZ (Z.of_nat (k + i) + 1))))
    (tasksFrom k lines).
Proof.
  induction lines as [|line0 rest IH]; intros k i line line' Hi Hnone; [discriminate |].
  destruct i as [|i].
  - cbn [insert list_insert tasksFrom]. rewrite Hnone. rewrite Nat.add_0_r.
    destruct (incompleteMatch line0) as [matched|].
    + cbn [List.filter id]. rewrite String.eqb_refl. cbn [negb].
      symmetry. apply other_line_kept. lia.
    + symmetry. apply other_line_kept. lia.
  - cbn [lookup list_lookup] in Hi.
    change (<[S i := line']> (line0 :: rest)) with (line0 :: <[i := line']> rest).
    cbn [tasksFrom]. rewrite (IH (S k) i line line' Hi Hnone).
    replace (S k + i)%nat with (k + S i)%nat by lia.
    destruct (incompleteMatch line0) as [matched|]; [| reflexivity].
    cbn [List.filter id].
    destruct (String.eqb_spec (Csv.stringOfZ (Z.of_nat k + 1))
                (Csv.stringOfZ (Z.of_nat (k + S i) + 1))) as [E | _];
      [apply TextProps.stringOfZ_inj in E; lia | reflexivity].
Qed.

Lemma tasksFrom_In (lines : list string) : forall k t,
  In t (tasksFrom k lines) ->
  exists i line rest,
    lines !! i = Some line /\ incompleteMatch line = Some rest /\
    id t = Csv.stringOfZ (Z.of_nat (k + i) + 1).
Proof.
  induction lines as [|line0 rest0 IH]; intros k t Ht; [contradiction |].
  cbn [tasksFrom] in Ht.
  destruct (incompleteMatch line0) as [matched|] eqn:Hm.
  - destruct Ht as [<- | Ht].
    + exists 0%nat, line0, matched. rewrite Nat.add_0_r. auto.
    + destruct (IH (S k) t Ht) as (i & line & rest & Hi & Hl & Hid).
      exists (S i), line, rest. replace (k + S i)%nat with (S k + i)%nat by lia. auto.
  - destruct (IH (S k) t Ht) as (i & line & rest & Hi & Hl & Hid).
    exists (S i), line, rest. replace (k + S i)%nat with (S k + i)%nat by lia. auto.
Qed.

(** X27: marking a task of the file complete removes that task and no
    other.  For every text of the file and every task [getAllTasks] reads
    from it, after [markComplete] of the task's id [getAllTasks] reads the
    same tasks, with the same ids and titles and in the same order, without
    that one. *)
Theorem markComplete_removes_the_task (content : string) (t : Task) :
  In t (getAllTasks content) ->
  getAllTasks (markComplete (id t) content) =
  List.filter (fun u => negb (String.eqb (id u) (id t))) (getAllTasks content).
Proof.
  unfold getAllTasks, markComplete. intros Ht.
  set (lines := Streaming.splitNL (readFileNormalized content)) in *.
  destruct (tasksFrom_In lines 0 t Ht) as (i & line & rest & Hi & Hl & Hid).
  cbn [Nat.add] in Hid. rewrite Hid, TextProps.parseInt10_stringOfZ.
  replace (Z.of_nat i + 1 - 1) with (Z.of_nat i) by lia.
  pose proof (lookup_lt_Some _ _ _ Hi) as Hlt.
  replace (0 <=? Z.of_nat i) with true by (symmetry; apply Z.leb_le; lia).
  replace (Z.of_nat i <? Z.of_nat (length lines)) with true
    by (symmetry; apply Z.ltb_lt; lia).
  cbn [andb]. rewrite Nat2Z.id, Hi.
  assert (Hplain : Forall (fun l => Streaming.noNewline l = true) lines /\
                   Forall (fun l => noReturn l = true) lines).
  { split.
    - now apply TextProps.splitNLAux_noNewline.
    - apply splitNLAux_noReturn; [| reflexivity].
      unfold readFileNormalized. apply noReturn_replaceCR. }
  destruct Hplain as [Hn Hr].
  assert (Hline : Streaming.noNewline line = true /\ noReturn line = true).
  { rewrite Forall_forall in Hn, Hr. split; [apply Hn | apply Hr];
      now apply list_elem_of_lookup_2 with i. }
  destruct (checkLine_plain line) as [Hcn Hcr]; [tauto | tauto |].
  assert (Hn' : Forall (fun l => Streaming.noNewline l = true)
                  (<[i := checkLine line]> lines)) by now apply Forall_insert.
  assert (Hr' : Forall (fun l => noReturn l = true)
                  (<[i := checkLine line]> lines)) by now apply Forall_insert.
  rewrite readFileNormalized_noReturn by now apply noReturn_join.
  rewrite TextProps.splitNL_join; [| | exact Hn'].
  - apply (tasksFrom_insert lines 0 i line); [exact Hi |].
    now apply incompleteMatch_checkLine with rest.
  - intros E. apply (f_equal length) in E.
    rewrite length_insert in E. simpl in E. lia.
Qed.

(** X27 on a file of three lines with Windows line ends. *)
Lemma markComplete_removes_the_task_witness :
  getAllTasks
    (markComplete "3"
       ("- [ ] one" +:+ String creturn NL +:+ "- [x] two" +:+ String creturn NL +:+
        "- [ ] three")) =
  [ {| id := "1"; title := "one"; body := None; parallelGroup := None;
       completed := false |} ].
Proof.
  apply (markComplete_removes_the_task
           ("- [ ] one" +:+ String creturn NL +:+ "- [x] two" +:+ String creturn NL +:+
            "- [ ] three")
           {| id := "3"; title := "three"; body := None; parallelGroup := None;
              completed := false |}).
  vm_compute. right. left. reflexivity.
Defined.

Lemma startsWith_dropPrefix_nil (p s : string) :
  startsWith p s = true -> dropPrefix (String.length p) s = EmptyString -> s = p.
Proof.
  revert s. induction p as [|a p IH]; intros s Hs Hd.
  - exact Hd.
  - destruct s as [|b s]; [discriminate |].
    cbn [startsWith] in Hs. apply andb_true_iff in Hs. destruct Hs as [Hab Hs].
    apply Ascii.eqb_eq in Hab. subst b.
    cbn [String.length dropPrefix] in Hd. now rewrite (IH s Hs Hd).
Qed.

Lemma startsWith_refl (p : string) : startsWith p p = true.
Proof.
  induction p as [|a p IH]; [reflexivity |].
  cbn [startsWith]. unfold ascii_eqb. now rewrite Ascii.eqb_refl, IH.
Qed.

Lemma count_lines (lines : list string) : forall k,
  Forall (fun l => Streaming.noNewline l = true) lines ->
  Forall (fun l => noReturn l = true) lines ->
  length (List.filter (startsWith incompletePrefix) lines) =
  (length (tasksFrom k lines) + length (List.filter bareBox lines))%nat.
Proof.
  induction lines as [|line rest IH]; intros k Hn Hr; [reflexivity |].
  apply Forall_cons in Hn. destruct Hn as [Hln Hn].
  apply Forall_cons in Hr. destruct Hr as [Hlr Hr].
  cbn [List.filter tasksFrom]. unfold incompleteMatch.
  destruct (startsWith incompletePrefix line) eqn:Hs.
  - destruct (dropPrefix 6 line) as [|c rest'] eqn:Hd.
    + assert (Hb : bareBox line = true).
      { rewrite (startsWith_dropPrefix_nil incompletePrefix line Hs Hd).
        apply String.eqb_refl. }
      rewrite Hb. cbn [length]. rewrite (IH (S k) Hn Hr). lia.
    + assert (Hplain : Streaming.noNewline (String c rest') && noReturn (String c rest')
                       = true).
      { rewrite <- Hd. rewrite noNewline_dropPrefix, noReturn_dropPrefix by assumption.
        reflexivity. }
      rewrite Hplain.
      assert (Hb : bareBox line = false).
      { apply String.eqb_neq. intros ->. discriminate. }
      rewrite Hb. cbn [length]. rewrite (IH (S k) Hn Hr). lia.
  - assert (Hb : bareBox line = false).
    { apply String.eqb_neq. intros ->. discriminate. }
    rewrite Hb. apply (IH (S k) Hn Hr).
Qed.

(** X28: on an ASCII text, [countRemaining] counts every task
    [getAllTasks] reads, and besides them the lines that are an unchecked
    box with nothing behind it, which [getAllTasks] and [getNextTask] do not
    read. *)
Theorem countRemaining_counts_bare_boxes (content : string) :
  asciiText content = true ->
  countRemaining content =
  (length (getAllTasks content) +
   length (List.filter bareBox (Streaming.splitNL (readFileNormalized content))))%nat.
Proof.
  intros _. unfold countRemaining, getAllTasks. apply count_lines.
  - now apply TextProps.splitNLAux_noNewline.
  - apply splitNLAux_noReturn; [| reflexivity].
    unfold readFileNormalized. apply noReturn_replaceCR.
Qed.

(** X28 on a file of one task and one bare box: two remaining, one task. *)
Lemma countRemaining_counts_bare_boxes_witness :
  countRemaining ("- [ ] a" +:+ NL +:+ "- [ ] " +:+ NL +:+ "- [x] b") = 2%nat /\
  length (getAllTasks ("- [ ] a" +:+ NL +:+ "- [ ] " +:+ NL +:+ "- [x] b")) = 1%nat.
Proof.
  split; [| vm_compute; reflexivity].
  rewrite (countRemaining_counts_bare_boxes
             ("- [ ] a" +:+ NL +:+ "- [ ] " +:+ NL +:+ "- [x] b") eq_refl).
  vm_compute. reflexivity.
Defined.

End MarkdownProps.

(** ** Round trip of the CSV task file *)

Module CsvFileProps.
Import Csv CsvFile.

Lemma app_nonempty (a b : string) : b <> EmptyString -> a +:+ b <> EmptyString.
Proof.
  destruct a as [|c a]; [now rewrite StreamingProps.sapp_nil_l |].
  rewrite StreamingProps.sapp_cons. discriminate.
Qed.

(** Nothing is trimmed from the end of a text that ends in a text from
    which nothing is trimmed. *)
Lemma trimEnd_app (a b : string) :
  b <> EmptyString -> trimEnd b = b -> trimEnd (a +:+ b) = a +:+ b.
Proof.
  intros Hne Hb. induction a as [|c a IH].
  - now rewrite StreamingProps.sapp_nil_l.
  - rewrite StreamingProps.sapp_cons. cbn [trimEnd]. rewrite IH.
    pose proof (app_nonempty a b Hne) as Hab.
    destruct (a +:+ b); [congruence | reflexivity].
Qed.

Lemma trimEnd_escapeCSV (v : string) : trimEnd v = v -> trimEnd (escapeCSV v) = escapeCSV v.
Proof.
  intros Hv. unfold escapeCSV.
  destruct (includesChar "," v || includesChar dquote v || includesChar newline v);
    [| exact Hv].
  rewrite <- StreamingProps.sapp_assoc.
  apply trimEnd_app; [discriminate | reflexivity].
Qed.

Lemma join_last (sep : string) (lines : list string) :
  lines <> [] -> exists before, join sep lines = before +:+ List.last lines EmptyString.
Proof.
  induction lines as [|l rest IH]; intros Hne; [congruence |].
  destruct rest as [|l2 rest].
  - exists EmptyString. reflexivity.
  - destruct IH as [before Hb]; [discriminate |].
    exists (l +:+ sep +:+ before).
    change (join sep (l :: l2 :: rest)) with (l +:+ sep +:+ join sep (l2 :: rest)).
    rewrite Hb. change (List.last (l :: l2 :: rest) EmptyString)
                  with (List.last (l2 :: rest) EmptyString).
    now rewrite !StreamingProps.sapp_assoc.
Qed.

(** The line of a row of five cells. *)
Lemma rowLine_five (a b c d e : string) :
  join "," (map escapeCSV [a; b; c; d; e]) =
  (escapeCSV a +:+ "," +:+ escapeCSV b +:+ "," +:+ escapeCSV c +:+ "," +:+
   escapeCSV d) +:+ ("," +:+ escapeCSV e).
Proof. cbn [map join]. now rewrite !StreamingProps.sapp_assoc. Qed.

Lemma rowLine_clean (a b c d e : string) :
  trimEnd e = e ->
  join "," (map escapeCSV [a; b; c; d; e]) <> EmptyString /\
  trimEnd (join "," (map escapeCSV [a; b; c; d; e])) =
    join "," (map escapeCSV [a; b; c; d; e]).
Proof.
  intros He. rewrite rowLine_five. split.
  - apply app_nonempty. discriminate.
  - apply trimEnd_app; [discriminate |].
    destruct (escapeCSV e) as [|x rest] eqn:E; [reflexivity |].
    change ("," +:+ String x rest) with ("," +:+ String x rest).
    apply (trimEnd_app "," (String x rest)); [discriminate |].
    rewrite <- E. now apply trimEnd_escapeCSV.
Qed.

(** *** Cells and lines without line breaks *)

Lemma oneLine_app (a b : string) : oneLine (a +:+ b) = oneLine a && oneLine b.
Proof.
  unfold oneLine. rewrite StreamingProps.noNewline_app, MarkdownProps.noReturn_app.
  destruct (Streaming.noNewline a), (Streaming.noNewline b), (Markdown.noReturn a),
    (Markdown.noReturn b); reflexivity.
Qed.

Lemma oneLine_cons (c : ascii) (s : string) :
  oneLine (String c s) =
  negb (ascii_eqb c newline) && negb (ascii_eqb c creturn) && oneLine s.
Proof.
  unfold oneLine. cbn [Streaming.noNewline Markdown.noReturn].
  destruct (ascii_eqb c newline), (ascii_eqb c creturn), (Streaming.noNewline s),
    (Markdown.noReturn s); reflexivity.
Qed.

Lemma oneLine_doubleQuotes (v : string) : oneLine v = true -> oneLine (doubleQuotes v) = true.
Proof.
  induction v as [|c v IH]; [reflexivity |].
  rewrite oneLine_cons. intros H. apply andb_true_iff in H. destruct H as [Hc Hv].
  cbn [doubleQuotes]. destruct (ascii_eqb c dquote).
  - rewrite !oneLine_app, (IH Hv). reflexivity.
  - rewrite oneLine_cons, Hc, (IH Hv). reflexivity.
Qed.

Lemma oneLine_escapeCSV (v : string) : oneLine v = true -> oneLine (escapeCSV v) = true.
Proof.
  intros Hv. unfold escapeCSV.
  destruct (includesChar "," v || includesChar dquote v || includesChar newline v);
    [| exact Hv].
  rewrite !oneLine_app, (oneLine_doubleQuotes v Hv). reflexivity.
Qed.

Lemma oneLine_join (sep : string) (parts : list string) :
  oneLine sep = true -> Forall (fun p => oneLine p = true) parts ->
  oneLine (join sep parts) = true.
Proof.
  intros Hsep. induction parts as [|p rest IH]; intros H; [reflexivity |].
  apply Forall_cons in H. destruct H as [Hp Hrest].
  destruct rest as [|q rest]; [exact Hp |].
  change (join sep (p :: q :: rest)) with (p +:+ sep +:+ join sep (q :: rest)).
  rewrite !oneLine_app, Hp, Hsep, (IH Hrest). reflexivity.
Qed.

Lemma oneLine_string_of_uint (d : Decimal.uint) :
  oneLine (NilEmpty.string_of_uint d) = true.
Proof.
  induction d; cbn [NilEmpty.string_of_uint]; [reflexivity | ..];
    rewrite oneLine_cons, IHd; reflexivity.
Qed.

Lemma oneLine_stringOfZ (n : Z) : oneLine (stringOfZ n) = true.
Proof.
  unfold stringOfZ. destruct n as [|p|p]; [reflexivity | |];
    cbn [Z.to_int NilZero.string_of_int]; rewrite TextProps.string_of_uint_to_uint.
  - apply oneLine_string_of_uint.
  - rewrite oneLine_cons, oneLine_string_of_uint. reflexivity.
Qed.

Lemma oneLine_rowLine (row : list string) :
  Forall (fun cell => oneLine cell = true) row ->
  oneLine (join "," (map escapeCSV row)) = true.
Proof.
  intros H. apply oneLine_join; [reflexivity |].
  apply Forall_fmap. eapply Forall_impl; [exact H |].
  intros cell Hc. now apply oneLine_escapeCSV.
Qed.

(** Without carriage return the two ways of splitting lines agree. *)
Lemma splitLinesAux_noReturn (s : string) : forall cur,
  Markdown.noReturn s = true -> splitLinesAux s cur = Streaming.splitNLAux s cur.
Proof.
  induction s as [|c s IH]; intros cur H; [reflexivity |].
  cbn [Markdown.noReturn] in H. apply andb_true_iff in H. destruct H as [Hc Hs].
  apply negb_true_iff in Hc.
  cbn [splitLinesAux]. rewrite StreamingProps.splitNLAux_cons.
  destruct (ascii_eqb c newline); [now rewrite (IH _ Hs) |].
  rewrite Hc. cbn [andb]. destruct s as [|d s']; [reflexivity | now apply IH].
Qed.

(** *** Rows and tasks *)

Lemma taskRow_oneLine (t : CsvTask) :
  storable t -> Forall (fun cell => oneLine cell = true) (taskRow t).
Proof.
  intros (_ & _ & Hi & Ht & Hd & _). unfold taskRow.
  repeat constructor; auto.
  - now destruct (completed t).
  - apply oneLine_stringOfZ.
Qed.

Lemma rowToTask_taskRow (i : nat) (t : CsvTask) :
  id t <> EmptyString -> rowToTask i (taskRow t) = t.
Proof.
  intros Hid. unfold rowToTask, taskRow. cbn [lookup list_lookup].
  destruct t as [ti tt tc tg td]. cbn [id title completed parallelGroup description] in *.
  f_equal.
  - destruct ti; [congruence | reflexivity].
  - now destruct tt.
  - now destruct tc.
  - pose proof (TextProps.parseInt10_stringOfZ tg) as Hg.
    destruct (stringOfZ tg) as [|c rest] eqn:E; [discriminate |].
    cbn [orElse]. now rewrite Hg.
  - now destruct td.
Qed.

Lemma readRows_taskRows (tasks : list CsvTask) : forall i,
  Forall storable tasks -> readRows i (map taskRow tasks) = tasks.
Proof.
  induction tasks as [|t rest IH]; intros i H; [reflexivity |].
  apply Forall_cons in H. destruct H as [Ht Hrest].
  cbn [map readRows]. change (2 <=? length (taskRow t))%nat with true. cbv iota.
  rewrite rowToTask_taskRow by apply Ht. now rewrite (IH _ Hrest).
Qed.

(** X26: the tasks written to the CSV file are the tasks read from it.
    For every list of tasks that have an id and a safe integer as group,
    hold ASCII text without line break in their id, title and description
    and no white space at the end of the description, [readFile] of the text [writeFile] produces gives the list
    back: ids, titles, completion, groups and descriptions, commas and quotes
    included. *)
Theorem csv_file_round_trip (tasks : list CsvTask) :
  Forall storable tasks -> readFile (writeFile tasks) = tasks.
Proof.
  intros Hall.
  set (header := ["id"; "title"; "done"; "group"; "desc"]).
  set (rows := header :: map taskRow tasks).
  set (lines := map (fun row => join "," (map escapeCSV row)) rows).
  assert (Hw : writeFile tasks = join NL lines) by reflexivity.
  assert (Hrows : Forall (fun row => Forall (fun cell => oneLine cell = true) row) rows).
  { constructor; [now repeat constructor |].
    apply Forall_fmap. eapply Forall_impl; [exact Hall |].
    intros t Ht. now apply taskRow_oneLine. }
  assert (Hlines : Forall (fun l => oneLine l = true) lines).
  { apply Forall_fmap. eapply Forall_impl; [exact Hrows |].
    intros row Hrow. now apply oneLine_rowLine. }
  assert (Hn : Forall (fun l => Streaming.noNewline l = true) lines).
  { eapply Forall_impl; [exact Hlines |]. intros l Hl.
    unfold oneLine in Hl. now apply andb_true_iff in Hl. }
  assert (Hr : Markdown.noReturn (join NL lines) = true).
  { apply MarkdownProps.noReturn_join. eapply Forall_impl; [exact Hlines |].
    intros l Hl. unfold oneLine in Hl. now apply andb_true_iff in Hl. }
  (* nothing is trimmed *)
  assert (Hstart : trimStart (join NL lines) = join NL lines).
  { unfold lines, rows. cbn [map]. destruct (map taskRow tasks); reflexivity. }
  assert (Hend : trimEnd (join NL lines) = join NL lines).
  { destruct (join_last NL lines) as [before Hb]; [discriminate |].
    rewrite Hb.
    assert (Hlast : List.last lines EmptyString <> EmptyString /\
                    trimEnd (List.last lines EmptyString) = List.last lines EmptyString).
    { unfold lines, rows.
      destruct (exists_last (l := header :: map taskRow tasks)) as (front & row & E);
        [discriminate |].
      rewrite E, map_app. cbn [map]. rewrite last_last.
      assert (Hrow : row = header \/ exists t, In t tasks /\ row = taskRow t).
      { assert (Hin : In row (header :: map taskRow tasks)).
        { rewrite E. apply in_or_app. right. now left. }
        destruct Hin as [<- | Hin]; [now left | right].
        apply in_map_iff in Hin. destruct Hin as (t & <- & Ht). eauto. }
      destruct Hrow as [-> | (t & Ht & ->)].
      - split; [discriminate | reflexivity].
      - unfold taskRow. apply rowLine_clean.
        rewrite Forall_forall in Hall. apply (Hall t).
        now apply list_elem_of_In. }
    apply trimEnd_app; tauto. }
  unfold readFile, parseCSV. rewrite Hw. unfold trim. rewrite Hstart, Hend.
  unfold splitLines. rewrite splitLinesAux_noReturn by exact Hr.
  change (Streaming.splitNLAux (join NL lines) EmptyString)
    with (Streaming.splitNL (join NL lines)).
  rewrite TextProps.splitNL_join; [| discriminate | exact Hn].
  unfold lines. rewrite map_map.
  rewrite (map_ext_in _ (fun row => row)).
  - rewrite map_id. unfold rows. cbn [tail]. now apply readRows_taskRows.
  - intros row Hrow. apply CsvRowProps.csv_row_round_trip.
    destruct Hrow as [<- | Hrow]; [discriminate |].
    apply in_map_iff in Hrow. destruct Hrow as (t & <- & _). discriminate.
Qed.

(** X26 for two tasks with a comma, quotes and a negative group. *)
Lemma csv_file_round_trip_witness :
  readFile
    (writeFile
       [ {| id := "1"; title := "Fix, bug"; completed := true; parallelGroup := 0;
            description := "say " +:+ DQ +:+ "hi" +:+ DQ |};
         {| id := "b"; title := ""; completed := false; parallelGroup := -3;
            description := "" |} ]) =
  [ {| id := "1"; title := "Fix, bug"; completed := true; parallelGroup := 0;
       description := "say " +:+ DQ +:+ "hi" +:+ DQ |};
    {| id := "b"; title := ""; completed := false; parallelGroup := -3;
       description := "" |} ].
Proof.
  apply (csv_file_round_trip
           [ {| id := "1"; title := "Fix, bug"; completed := true; parallelGroup := 0;
                description := "say " +:+ DQ +:+ "hi" +:+ DQ |};
             {| id := "b"; title := ""; completed := false; parallelGroup := -3;
                description := "" |} ]).
  repeat constructor; try discriminate; unfold maxSafeInteger; cbn; lia.
Defined.

Lemma storable_setCompleted (t : CsvTask) : storable t -> storable (setCompleted t).
Proof. intros H. exact H. Qed.

Lemma completeFirst_found (key : string) (front : list CsvTask) (t : CsvTask)
    (rest : list CsvTask) :
  Forall (fun u => id u <> key /\ title u <> key) front ->
  id t = key \/ title t = key ->
  completeFirst key (front ++ t :: rest)%list = Some (front ++ setCompleted t :: rest)%list.
Proof.
  intros Hfront Ht. induction front as [|u front IH].
  - cbn [app completeFirst].
    replace (String.eqb (id t) key || String.eqb (title t) key) with true; [reflexivity |].
    symmetry. apply orb_true_iff. rewrite !String.eqb_eq. exact Ht.
  - apply Forall_cons in Hfront. destruct Hfront as [[Hi Hti] Hfront].
    cbn [app completeFirst].
    apply String.eqb_neq in Hi. apply String.eqb_neq in Hti. rewrite Hi, Hti.
    cbn [orb]. now rewrite (IH Hfront).
Qed.

Lemma completeFirst_missing (key : string) (tasks : list CsvTask) :
  Forall (fun u => id u <> key /\ title u <> key) tasks ->
  completeFirst key tasks = None.
Proof.
  induction tasks as [|u tasks IH]; intros H; [reflexivity |].
  apply Forall_cons in H. destruct H as [[Hi Hti] H].
  cbn [completeFirst].
  apply String.eqb_neq in Hi. apply String.eqb_neq in Hti. rewrite Hi, Hti.
  cbn [orb]. now rewrite (IH H).
Qed.

(** X29: [markComplete] of the CSV source completes the first task whose id
    or title is the key.  In a file written from storable tasks, when no
    task before [t] has the key as id or as title and [t] has it as id or as
    title, the file after [markComplete key] reads as the same tasks in the
    same order with [t] completed and nothing else changed; the task found
    may be one whose title is the key while a later task has the key as its
    id.  When no task has the key as id or title the file is left as it
    was. *)
Theorem csv_markComplete_first_match (key : string) (front : list CsvTask)
    (t : CsvTask) (rest : list CsvTask) :
  Forall storable (front ++ t :: rest)%list ->
  Forall (fun u => id u <> key /\ title u <> key) front ->
  (id t = key \/ title t = key ->
   readFile (markComplete key (writeFile (front ++ t :: rest)%list)) =
     (front ++ setCompleted t :: rest)%list) /\
  (id t <> key /\ title t <> key ->
   Forall (fun u => id u <> key /\ title u <> key) rest ->
   markComplete key (writeFile (front ++ t :: rest)%list) = writeFile (front ++ t :: rest)%list).
Proof.
  intros Hall Hfront. split.
  - intros Ht. unfold markComplete.
    rewrite (csv_file_round_trip _ Hall), (completeFirst_found key front t rest Hfront Ht).
    apply csv_file_round_trip.
    apply Forall_app in Hall. destruct Hall as [Hf Hr].
    apply Forall_cons in Hr. destruct Hr as [Hst Hr].
    apply Forall_app. split; [exact Hf |].
    apply Forall_cons. split; [now apply storable_setCompleted | exact Hr].
  - intros Ht Hrest. unfold markComplete.
    rewrite (csv_file_round_trip _ Hall), completeFirst_missing; [reflexivity |].
    apply Forall_app. split; [exact Hfront |]. apply Forall_cons. now split.
Qed.

(** X29 for the key [b]: the first task has it as title, the second as id. *)
Lemma csv_markComplete_first_match_witness :
  readFile
    (markComplete "b"
       (writeFile
          [ {| id := "a"; title := "b"; completed := false; parallelGroup := 1;
               description := "" |};
            {| id := "b"; title := "c"; completed := false; parallelGroup := 1;
               description := "" |} ])) =
  [ {| id := "a"; title := "b"; completed := true; parallelGroup := 1;
       description := "" |};
    {| id := "b"; title := "c"; completed := false; parallelGroup := 1;
       description := "" |} ].
Proof.
  refine (proj1 (csv_markComplete_first_match "b" []
           {| id := "a"; title := "b"; completed := false; parallelGroup := 1;
              description := "" |}
           [ {| id := "b"; title := "c"; completed := false; parallelGroup := 1;
                description := "" |} ] _ _) _).
  - repeat constructor; try discriminate; unfold maxSafeInteger; cbn; lia.
  - constructor.
  - right. reflexivity.
Defined.

End CsvFileProps.

(** ** The retry budget of an item, whatever else the queue holds *)

Module QueueBudgetProps.
Import MemoryQueue QueueViews QueueBudget.

Lemma Keyed_empty : Keyed emptyQueue.
Proof. split; constructor. Qed.

Lemma Keyed_apply (now : Z) (op : Op) (q : MemoryTaskQueue) :
  Keyed q -> Keyed (apply now op q).
Proof.
  intros [Hp Hr Hc Hf Hs].
  destruct op; simpl.
  - unfold enqueue. destruct (_ || _); simpl; [now split |].
    split; simpl; auto. now apply MemoryQueueProps.wellKeyed_mset.
  - unfold dequeue.
    destruct (fold_left selectStep (mvalues (pending q)) (None, None)) as [[it|] v];
      simpl; [| now split].
    split; simpl; auto.
    + now apply MemoryQueueProps.wellKeyed_mdelete.
    + now apply MemoryQueueProps.wellKeyed_mset.
  - unfold markComplete.
    destruct (mget taskId (running q)) as [it|] eqn:Hget; [| now split].
    pose proof (MemoryQueueProps.wellKeyed_mget _ _ _ Hr Hget) as Hid.
    split; simpl; auto.
    + now apply MemoryQueueProps.wellKeyed_mdelete.
    + now apply MemoryQueueProps.wellKeyed_mset.
  - unfold markFailed.
    destruct (mget taskId (running q)) as [it|] eqn:Hget; [| now split].
    pose proof (MemoryQueueProps.wellKeyed_mget _ _ _ Hr Hget) as Hid.
    destruct (_ <? _); split; simpl; auto;
      try (now apply MemoryQueueProps.wellKeyed_mdelete);
      now apply MemoryQueueProps.wellKeyed_mset.
  - unfold markSkipped, orItem.
    destruct (mget taskId (pending q)) as [it|] eqn:Hgp.
    + pose proof (MemoryQueueProps.wellKeyed_mget _ _ _ Hp Hgp) as Hid.
      split; simpl; auto;
        try (now apply MemoryQueueProps.wellKeyed_mdelete);
        now apply MemoryQueueProps.wellKeyed_mset.
    + destruct (mget taskId (running q)) as [it|] eqn:Hgr; [| now split].
      pose proof (MemoryQueueProps.wellKeyed_mget _ _ _ Hr Hgr) as Hid.
      split; simpl; auto;
        try (now apply MemoryQueueProps.wellKeyed_mdelete);
        now apply MemoryQueueProps.wellKeyed_mset.
  - unfold resetTask, orItem.
    destruct (mget taskId (failed q)) as [it|] eqn:Hgf.
    + pose proof (MemoryQueueProps.wellKeyed_mget _ _ _ Hf Hgf) as Hid.
      split; simpl; auto;
        try (now apply MemoryQueueProps.wellKeyed_mdelete);
        now apply MemoryQueueProps.wellKeyed_mset.
    + destruct (mget taskId (skipped q)) as [it|] eqn:Hgs; [| now split].
      pose proof (MemoryQueueProps.wellKeyed_mget _ _ _ Hs Hgs) as Hid.
      split; simpl; auto;
        try (now apply MemoryQueueProps.wellKeyed_mdelete);
        now apply MemoryQueueProps.wellKeyed_mset.
  - unfold remove. split; simpl; now apply MemoryQueueProps.wellKeyed_mdelete.
Qed.

Lemma Keyed_run (ops : list (Z * Op)) : forall q, Keyed q -> Keyed (run ops q).
Proof.
  induction ops as [|[now op] ops IH]; simpl; intros q H; [exact H |].
  apply IH. now apply Keyed_apply.
Qed.

Lemma mget_mdelete_same (k : string) (m : ItemMap) : mget k (mdelete k m) = None.
Proof.
  apply FileQueueProps.mget_absent. apply MemoryQueueProps.mhas_mdelete_same.
Qed.

(** With distinct keys, an item of the map is the one found under its id. *)
Lemma selected_mget (m : ItemMap) (item : QueueItem) :
  wellKeyed m -> distinctKeys m -> In item (mvalues m) ->
  mget (id (task item)) m = Some item.
Proof.
  unfold wellKeyed, distinctKeys, mvalues.
  induction m as [|[c v] m IH]; simpl; intros Hk Hd Hin; [contradiction |].
  apply Forall_cons in Hk. destruct Hk as [Hc Hk]. cbn [fst snd] in Hc.
  apply NoDup_cons in Hd. destruct Hd as [Hnot Hd].
  destruct Hin as [-> | Hin].
  - rewrite Hc. now rewrite String.eqb_refl.
  - destruct (String.eqb_spec c (id (task item))) as [-> | Hne]; [| now apply IH].
    exfalso. apply Hnot. apply QueueViewsProps.mhas_In.
    apply MemoryQueueProps.wellKeyed_In; assumption.
Qed.

Lemma tracked_same (i : string) (m : Z) (e : nat) (q q' : MemoryTaskQueue) :
  sameTask i q q' -> tracked i m e q -> tracked i m e q'.
Proof.
  intros (Hp & Hr & Hf) [H | [H | H]]; [left | right; left | right; right];
    destruct H as (item & H); exists item; rewrite Hp, Hr, Hf; exact H.
Qed.

Ltac frame :=
  repeat split; cbn [pending running failed];
  rewrite ?FileQueueProps.mget_mset_other, ?FileQueueProps.mget_mdelete_other
    by congruence;
  reflexivity.

(** One call that does not interfere with the task moves it along its
    course: a [dequeue] that hands it out starts its next execution, a
    [markFailed] ends the execution, and every other call leaves it where it
    is. *)
Lemma tracked_step (i : string) (m : Z) (e : nat) (now : Z) (op : Op)
    (q : MemoryTaskQueue) :
  Keyed q -> Distinct q -> tracked i m e q -> interferes i op = false ->
  tracked i m (handsOut i now op q + e) (apply now op q).
Proof.
  intros HK HD Ht Hop.
  destruct op; cbn [interferes] in Hop; cbn [handsOut apply].
  - (* enqueue of another task *)
    apply String.eqb_neq in Hop.
    apply (tracked_same i m e q); [| exact Ht].
    unfold enqueue.
    destruct (_ || _); cbn [default from_option Datatypes.id]; [now repeat split |].
    frame.
  - (* dequeue *)
    unfold dequeue.
    pose proof (MemoryQueueProps.select_In (mvalues (pending q)) (None, None)) as Hsel.
    destruct (fold_left selectStep (mvalues (pending q)) (None, None))
      as [[it|] v]; cbn [fst snd task]; [| exact Ht].
    destruct (Hsel it v eq_refl) as [Hin | Hno]; [| discriminate].
    pose proof (selected_mget _ _ (keyed_pending _ HK) (distinct_pending _ HD) Hin)
      as Hget.
    destruct (String.eqb_spec (id (task it)) i) as [Hid | Hid].
    + rewrite Hid in *.
      destruct Ht as [(item & Hp & Hr & Hf & Ha & Hm & Hb)
                     | [(item & Hr & Hp & _) | (item & Hf & Hp & _)]];
        try congruence.
      rewrite Hget in Hp. injection Hp as ->.
      right; left. eexists. cbn [pending running failed].
      split; [apply MemoryQueueProps.mget_mset |].
      split; [apply mget_mdelete_same |].
      split; [exact Hf |].
      cbn [attempts maxAttempts]. repeat split; try lia.
    + apply (tracked_same i m e q); [| exact Ht]. frame.
  - (* markComplete of another task *)
    apply String.eqb_neq in Hop.
    apply (tracked_same i m e q); [| exact Ht].
    unfold markComplete. destruct (mget taskId (running q)); [| now repeat split]. frame.
  - (* markFailed *)
    unfold markFailed.
    destruct (mget taskId (running q)) as [it|] eqn:Hget; [| exact Ht].
    destruct (String.eqb_spec taskId i) as [-> | Hne].
    + destruct Ht as [(item & Hp & Hr & _)
                     | [(item & Hr & Hp & Hf & Ha & Hm & He & Hb) | (item & Hf & Hp & Hr & _)]];
        try congruence.
      rewrite Hget in Hr. injection Hr as ->.
      destruct (attempts item + 1 <? maxAttempts item) eqn:Hlt.
      * apply Z.ltb_lt in Hlt. left. eexists. cbn [pending running failed].
        split; [apply MemoryQueueProps.mget_mset |].
        split; [apply mget_mdelete_same |].
        split; [exact Hf |].
        cbn [attempts maxAttempts]. repeat split; try lia.
      * apply Z.ltb_ge in Hlt. right; right. eexists. cbn [pending running failed].
        split; [apply MemoryQueueProps.mget_mset |].
        split; [exact Hp |].
        split; [apply mget_mdelete_same |].
        cbn [attempts maxAttempts]. repeat split; try lia.
    + apply (tracked_same i m e q); [| exact Ht].
      destruct (_ <? _); frame.
  - (* markSkipped of another task *)
    apply String.eqb_neq in Hop.
    apply (tracked_same i m e q); [| exact Ht].
    unfold markSkipped. destruct (orItem _ _); [| now repeat split]. frame.
  - (* resetTask of another task *)
    apply String.eqb_neq in Hop.
    apply (tracked_same i m e q); [| exact Ht].
    unfold resetTask. destruct (orItem _ _); [| now repeat split]. frame.
  - (* remove of another task *)
    apply String.eqb_neq in Hop.
    apply (tracked_same i m e q); [| exact Ht].
    unfold remove. frame.
Qed.

Lemma tracked_run (i : string) (m : Z) (ops : list (Z * Op)) :
  forall (e : nat) (q : MemoryTaskQueue),
    Keyed q -> Distinct q -> tracked i m e q ->
    Forall (fun c => interferes i (snd c) = false) ops ->
    tracked i m (handedOut i ops q + e) (run ops q).
Proof.
  induction ops as [|[now op] ops IH]; intros e q HK HD Ht Hops; [exact Ht |].
  apply Forall_cons in Hops. destruct Hops as [Hop Hops]. cbn [snd] in Hop.
  cbn [handedOut run].
  replace (handsOut i now op q + handedOut i ops (apply now op q) + e)%nat
    with (handedOut i ops (apply now op q) + (handsOut i now op q + e))%nat by lia.
  apply IH; [now apply Keyed_apply | now apply QueueViewsProps.Distinct_apply
            | now apply tracked_step | exact Hops].
Qed.

Lemma mhas_mget (k : string) (m : ItemMap) :
  mhas k m = true <-> is_Some (mget k m).
Proof.
  split.
  - intros H. destruct (mget k m) eqn:E; [eauto |].
    apply MemoryQueueProps.mget_None_mhas in E. congruence.
  - intros [v H]. eapply MemoryQueueProps.mget_Some_mhas. exact H.
Qed.

(** C6 (amended): [markFailed] increments the attempts counter of a
    running item and returns it to pending when the incremented counter is
    below [maxAttempts], to failed otherwise.  [dequeue] increments the
    counter as well, so each failed execution consumes two units of the
    budget.  Take a queue built by any calls, a task enqueued into it with
    [maxAttempts = m >= 1] that is not in failed at that moment, and any
    calls after that which touch the task only by handing it out and by
    marking it failed, whatever they do to the other tasks.  With [e] the
    number of times the task was handed out: [e] never exceeds
    [(m + 1) / 2], the rounded-up half of [m]; while the task is pending its
    counter is [2 * e] and [e] is below that bound; while it runs the counter
    is [2 * e - 1]; and the task is in failed exactly when it was handed out
    [(m + 1) / 2] times and the last of these executions was marked
    failed. *)
Theorem retry_budget (before after : list (Z * Op)) (now : Z) (t : Task)
    (p : TaskPriority) (m : Z) (q1 : MemoryTaskQueue) :
  1 <= m ->
  mhas (id t) (failed (run before emptyQueue)) = false ->
  enqueue now t p m (run before emptyQueue) = Some q1 ->
  Forall (fun c => interferes (id t) (snd c) = false) after ->
  (forall now' k q item, mget k (running q) = Some item ->
     mhas k (running (markFailed now' k q)) = false /\
     (attempts item + 1 < maxAttempts item ->
        exists item', mget k (pending (markFailed now' k q)) = Some item' /\
                      attempts item' = attempts item + 1 /\ startedAt item' = None) /\
     (maxAttempts item <= attempts item + 1 ->
        exists item', mget k (failed (markFailed now' k q)) = Some item' /\
                      attempts item' = attempts item + 1 /\
                      completedAt item' = Some now')) /\
  Z.of_nat (handedOut (id t) after q1) <= (m + 1) / 2 /\
  (mhas (id t) (pending (run after q1)) = true ->
   (attempts <$> mget (id t) (pending (run after q1))) =
     Some (2 * Z.of_nat (handedOut (id t) after q1)) /\
   Z.of_nat (handedOut (id t) after q1) < (m + 1) / 2) /\
  (mhas (id t) (running (run after q1)) = true ->
   (attempts <$> mget (id t) (running (run after q1))) =
     Some (2 * Z.of_nat (handedOut (id t) after q1) - 1)) /\
  (mhas (id t) (failed (run after q1)) = true <->
   Z.of_nat (handedOut (id t) after q1) = (m + 1) / 2 /\
   mhas (id t) (running (run after q1)) = false).
Proof.
  intros Hm Hfailed Henq Hafter.
  split; [intros; now apply MemoryQueueProps.markFailed_running |].
  set (q0 := run before emptyQueue) in *.
  assert (HK0 : Keyed q0) by apply Keyed_run, Keyed_empty.
  assert (HD0 : Distinct q0)
    by apply QueueViewsProps.Distinct_run, QueueViewsProps.Distinct_empty.
  assert (Hq1 : q1 = apply now (Enqueue t p m) q0)
    by (cbn [apply]; now rewrite Henq).
  assert (HK1 : Keyed q1) by (rewrite Hq1; now apply Keyed_apply).
  assert (HD1 : Distinct q1) by (rewrite Hq1; now apply QueueViewsProps.Distinct_apply).
  assert (Hstart : tracked (id t) m 0 q1).
  { left. revert Henq. unfold enqueue.
    destruct (mhas (id t) (pending q0) || mhas (id t) (running q0)) eqn:Hg;
      [discriminate |].
    apply orb_false_iff in Hg. destruct Hg as [_ Hr].
    intros [= <-]. eexists. cbn [pending running failed].
    split; [apply MemoryQueueProps.mget_mset |].
    split; [now apply FileQueueProps.mget_absent |].
    split; [now apply FileQueueProps.mget_absent |].
    cbn [attempts maxAttempts]. repeat split. now left. }
  pose proof (tracked_run (id t) m after 0 q1 HK1 HD1 Hstart Hafter) as Hend.
  rewrite Nat.add_0_r in Hend.
  set (e := handedOut (id t) after q1) in *.
  set (q := run after q1) in *.
  assert (Hlow : 2 * ((m + 1) / 2) <= m + 1) by (apply Z.mul_div_le; lia).
  assert (Hhigh : m + 1 < 2 * Z.succ ((m + 1) / 2))
    by (apply Z.mul_succ_div_gt; lia).
  set (h := (m + 1) / 2) in *.
  rewrite !mhas_mget.
  destruct Hend as [(item & Hp & Hr & Hf & Ha & Hmax & Hb)
                   | [(item & Hr & Hp & Hf & Ha & Hmax & He & Hb)
                     | (item & Hf & Hp & Hr & Ha & Hmax & He & Hfull & Hb)]];
    rewrite Hp, Hr, Hf; cbn [fmap option_fmap option_map].
  - split; [lia |]. split; [intros _; split; [congruence | lia] |].
    split; [intros [x Hx]; discriminate |].
    split; [intros [x Hx]; discriminate |].
    intros [He _]. lia.
  - split; [lia |]. split; [intros [x Hx]; discriminate |].
    split; [intros _; congruence |].
    split; [intros [x Hx]; discriminate |].
    intros [_ Hno]. apply MemoryQueueProps.mget_Some_mhas in Hr. congruence.
  - split; [lia |]. split; [intros [x Hx]; discriminate |].
    split; [intros [x Hx]; discriminate |].
    split; [intros _; split; [lia |] | eauto].
    now apply MemoryQueueProps.mget_None_mhas.
Qed.

(** The amended C6 at the default budget of 3, with a second task of
    higher priority in the queue: two executions. *)
Lemma retry_budget_witness :
  mhas "T1"
    (failed
       (run [(3, Dequeue); (4, Dequeue); (5, MarkFailed "T1"); (6, MarkComplete "T0");
             (7, Dequeue); (8, MarkFailed "T1")]
          (run [(1, Enqueue (mkTask "T0") high 3); (2, Enqueue (mkTask "T1") normal 3)]
             emptyQueue))) = true.
Proof.
  refine (proj2 (proj2 (proj2 (proj2 (proj2
            (retry_budget [(1, Enqueue (mkTask "T0") high 3)]
               [(3, Dequeue); (4, Dequeue); (5, MarkFailed "T1");
                (6, MarkComplete "T0"); (7, Dequeue); (8, MarkFailed "T1")]
               2 (mkTask "T1") normal 3
               (run [(1, Enqueue (mkTask "T0") high 3);
                     (2, Enqueue (mkTask "T1") normal 3)] emptyQueue)
               _ _ _ _))))) _).
  - lia.
  - reflexivity.
  - reflexivity.
  - repeat constructor.
  - split; vm_compute; reflexivity.
Defined.

End QueueBudgetProps.
